(** * StoryGraph: topological ordering, cycle breaking and story enumeration

    A shallow embedding of [rasa_core/training/story_graph.py].

    Python dictionaries are [gmap]s, Python sets are [gset]s, lists and
    deques are lists.  Identities and checkpoint labels are strings; the
    end-of-story label is Python's [None], so a checkpoint name is an
    [option string].

    The order in which [set.pop()] and iteration over a set deliver their
    elements is unspecified in Python.  It is modelled by an oracle [pick]
    that, given the elements still present, names the index of the one
    delivered next; the general statements below hold for all oracles.

    The recursion limit of the interpreter is not modelled: [dfs] carries a
    fuel argument, and [topological_sort] is shown to supply enough.

    The first part is the program: the sorter, the graph, the cycle breaker
    (on values and, with object identity, on a store) and the story
    enumerator.  The second part states and proves its properties. *)

From Stdlib Require Import ZArith Lia.
From stdpp Require Import base option list gmap sets strings pretty relations.

Open Scope string_scope.
Open Scope list_scope.

Set Warnings "-clear-no-such-hyp".

(** ** Data model *)

(** [dsl.Checkpoint]: a label. *)
Record Checkpoint := mkCheckpoint { name : string }.

(** Modelled from the spec: [dsl.StoryStep] (not part of this file's source):
    a unit with a unique identity, a start and an end checkpoint and the
    events it carries. *)
Record StoryStep (Event : Type) := mkStoryStep {
  id : string;
  start_checkpoint : option Checkpoint;
  end_checkpoint : option Checkpoint;
  events : list Event
}.
Arguments mkStoryStep {Event} _ _ _ _.
Arguments id {Event} _.
Arguments start_checkpoint {Event} _.
Arguments end_checkpoint {Event} _.
Arguments events {Event} _.

(** Modelled from the spec: [StoryStep.start_checkpoint_name] and
    [StoryStep.end_checkpoint_name], the label of the checkpoint, [None] when
    there is no checkpoint. *)
Definition start_checkpoint_name {Event} (s : StoryStep Event) : option string :=
  name <$> start_checkpoint s.
Definition end_checkpoint_name {Event} (s : StoryStep Event) : option string :=
  name <$> end_checkpoint s.

(** ** Topological sort *)

Inductive Color := GRAY | BLACK.

#[global] Instance Color_eq_dec : EqDecision Color.
Proof. solve_decision. Defined.

Record SortState := mkSortState {
  ordered : list string;
  unprocessed : gset string;
  visited_nodes : gmap string Color;
  removed_edges : gset (string * string)
}.

(** [graph.get(node, ())] *)
Definition successors (graph : gmap string (list string)) (node : string)
  : list string :=
  default [] (graph !! node).

(** Every identity the traversal can meet: the keys and all successors. *)
Definition graph_nodes (graph : gmap string (list string)) : gset string :=
  dom graph ∪ ⋃ ((λ p, list_to_set p.2) <$> map_to_list graph).

(** [u] comes before [v] in [l]: [l] is [l1 ++ u :: l2] with [v] in [l2]. *)
Definition precedes (u v : string) (l : list string) : Prop :=
  ∃ l1 l2, l = l1 ++ u :: l2 ∧ v ∈ l2.

(** The same, decided on a concrete list. *)
Fixpoint precedesb (u v : string) (l : list string) : bool :=
  match l with
  | [] => false
  | x :: l' =>
      if decide (x = u) then bool_decide (v ∈ l') || precedesb u v l'
      else precedesb u v l'
  end.

Section Sort.

(** The oracle behind [set.pop()]. *)
Variable pick : list string → nat.

(** [s.pop()]: removes and returns an arbitrary element; [None] stands for
    the [KeyError] of an empty set. *)
Definition set_pop (s : gset string) : option (string * gset string) :=
  let l := elements s in
  match l !! (pick l `mod` length l) with
  | Some x => Some (x, s ∖ {[x]})
  | None => None
  end.

Variable graph : gmap string (list string).

(** The body of [for k in graph.get(node, ())], with the recursive call
    abstracted as [rec]. *)
Fixpoint visit_all (rec : string → SortState → option SortState)
    (node : string) (ks : list string) (st : SortState) : option SortState :=
  match ks with
  | [] => Some st
  | k :: ks' =>
      match visited_nodes st !! k with
      | Some GRAY =>
          visit_all rec node ks'
            (mkSortState (ordered st) (unprocessed st) (visited_nodes st)
               ({[ (node, k) ]} ∪ removed_edges st))
      | Some BLACK => visit_all rec node ks' st
      | None =>
          match rec k (mkSortState (ordered st) (unprocessed st ∖ {[k]})
                         (visited_nodes st) (removed_edges st)) with
          | Some st' => visit_all rec node ks' st'
          | None => None
          end
      end
  end.

(** The nested function [dfs]; [None] when the fuel is used up. *)
Fixpoint dfs (fuel : nat) (node : string) (st : SortState) : option SortState :=
  match fuel with
  | O => None
  | S fuel' =>
      let st1 := mkSortState (ordered st) (unprocessed st)
                   (<[node := GRAY]> (visited_nodes st)) (removed_edges st) in
      match visit_all (dfs fuel') node (successors graph node) st1 with
      | Some st2 =>
          Some (mkSortState (node :: ordered st2) (unprocessed st2)
                  (<[node := BLACK]> (visited_nodes st2)) (removed_edges st2))
      | None => None
      end
  end.

(** [while unprocessed: dfs(unprocessed.pop())] *)
Fixpoint sort_loop (rounds : nat) (st : SortState) : option SortState :=
  if decide (unprocessed st = ∅) then Some st
  else
    match rounds, set_pop (unprocessed st) with
    | S rounds', Some (node, rest) =>
        match dfs (S (size (graph_nodes graph))) node
                (mkSortState (ordered st) rest (visited_nodes st)
                   (removed_edges st)) with
        | Some st' => sort_loop rounds' st'
        | None => None
        end
    | _, _ => None
    end.

Definition topological_sort : option (list string * gset (string * string)) :=
  let st0 := mkSortState [] (dom graph) ∅ ∅ in
  match sort_loop (size (dom graph)) st0 with
  | Some st => Some (ordered st, removed_edges st)
  | None => None
  end.

End Sort.

(** The graph of the docstring of [topological_sort], and a cycle of three
    nodes. *)
Definition example_graph : gmap string (list string) :=
  list_to_map [("a", ["b"; "c"; "d"]); ("b", []); ("c", ["d"]); ("d", []);
               ("e", ["f"]); ("f", [])].

Definition cycle3 : gmap string (list string) :=
  list_to_map [("A", ["B"]); ("B", ["C"]); ("C", ["A"])].

(** ** Errors *)

(** The exceptions the code can raise: a failed dictionary lookup, a method
    call on [None], and (for the model only) used-up fuel and a reference to
    no object. *)
Inductive error := KeyError | AttributeError | Exhausted | Dangling.

Inductive result (A : Type) :=
  | Ok (a : A)
  | Raise (e : error).
Arguments Ok {A} _.
Arguments Raise {A} _.

#[global] Instance result_ret : MRet result := λ A a, Ok a.
#[global] Instance result_bind : MBind result := λ A B f r,
  match r with
  | Ok a => f a
  | Raise e => Raise e
  end.

(** Calling a method or reading an attribute of an optional object. *)
Definition deref {A} (o : option A) : result A :=
  match o with
  | Some a => Ok a
  | None => Raise AttributeError
  end.

(** Iterating over a Python set: the oracle names, among the elements still
    to come, the one delivered next. *)
Fixpoint drain {A} (pick : list A → nat) (n : nat) (l : list A) : list A :=
  match n with
  | O => []
  | S n' =>
      let i := pick l `mod` length l in
      match l !! i with
      | Some x => x :: drain pick n' (delete i l)
      | None => []
      end
  end.

Definition set_iter `{Countable A} (pick : list A → nat) (s : gset A) : list A :=
  drain pick (size s) (elements s).

(** ** The story graph *)

Section Graph.

Variable Event : Type.
Abbreviation Step := (StoryStep Event).

(** [StoryGraph._group_by_start_checkpoint]: a [defaultdict(list)]. *)
Definition _group_by_start_checkpoint (story_steps : list Step)
  : gmap (option string) (list Step) :=
  foldl (λ checkpoints step,
           <[start_checkpoint_name step :=
               default [] (checkpoints !! start_checkpoint_name step) ++ [step]]>
             checkpoints)
        ∅ story_steps.

(** The dictionary comprehension of [order_steps]; a later step with the
    same identity replaces an earlier one. *)
Definition steps_graph (story_steps : list Step) : gmap string (list string) :=
  let checkpoints := _group_by_start_checkpoint story_steps in
  foldl (λ graph s,
           <[id s := id <$> default [] (checkpoints !! end_checkpoint_name s)]>
             graph)
        ∅ story_steps.

Variable pick : list string → nat.

(** [StoryGraph.order_steps] *)
Definition order_steps (story_steps : list Step)
  : option (list string * gset (string * string)) :=
  topological_sort pick (steps_graph story_steps).

Record StoryGraph := mkStoryGraph {
  story_steps : list Step;
  step_lookup : gmap string Step;
  ordered_ids : list string;
  cyclic_edge_ids : gset (string * string);
  story_end_checkpoints : list string
}.

(** [StoryGraph.__init__]; [Exhausted] is what the model answers if the sort
    ran out of fuel. *)
Definition StoryGraph_init (story_steps : list Step)
    (story_end_checkpoints : option (list string)) : result StoryGraph :=
  let step_lookup := foldl (λ d s, <[id s := s]> d) ∅ story_steps in
  match order_steps story_steps with
  | None => Raise Exhausted
  | Some (ordered_ids, cyclic_edges) =>
      Ok (mkStoryGraph story_steps step_lookup ordered_ids cyclic_edges
            (match story_end_checkpoints with
             | Some (c :: cs) => c :: cs
             | _ => []
             end))
  end.

(** [StoryGraph.get] *)
Definition get (self : StoryGraph) (step_id : string) : option Step :=
  step_lookup self !! step_id.

(** [StoryGraph.ordered_steps] *)
Definition ordered_steps (self : StoryGraph) : list (option Step) :=
  get self <$> ordered_ids self.

Variable pick_edge : list (string * string) → nat.

(** [StoryGraph.cyclic_edges], in the order the set delivers its pairs. *)
Definition cyclic_edges (self : StoryGraph) : list (option Step * option Step) :=
  (λ e, (get self e.1, get self e.2)) <$> set_iter pick_edge (cyclic_edge_ids self).

End Graph.

Arguments story_steps {Event} _.
Arguments step_lookup {Event} _.
Arguments ordered_ids {Event} _.
Arguments cyclic_edge_ids {Event} _.
Arguments story_end_checkpoints {Event} _.
Arguments mkStoryGraph {Event} _ _ _ _ _.
Arguments _group_by_start_checkpoint {Event} _.
Arguments steps_graph {Event} _.
Arguments order_steps {Event} _ _.
Arguments StoryGraph_init {Event} _ _ _.
Arguments get {Event} _ _.
Arguments ordered_steps {Event} _.
Arguments cyclic_edges {Event} _ _.

(** ** Cycle breaking *)

Section Breaker.

Variable Event : Type.
Abbreviation Step := (StoryStep Event).

(** The source of fresh names: [utils.generate_id] and the identity minted by
    [create_copy(use_new_id=True)] both draw from it.  [Gen] is its state. *)
Variable Gen : Type.
Variable generate_id : string → Gen → string * Gen.
Variable new_id : Gen → string * Gen.

(** Modelled from the spec: [StoryStep.create_copy(use_new_id=True)] (not
    part of this file's source): a copy that preserves all fields but takes a
    new unique identity. *)
Definition create_copy (s : Step) (gen : Gen) : Step * Gen :=
  let '(i, gen') := new_id gen in
  (mkStoryStep i (start_checkpoint s) (end_checkpoint s) (events s), gen').

Definition set_end_checkpoint (s : Step) (c : Checkpoint) : Step :=
  mkStoryStep (id s) (start_checkpoint s) (Some c) (events s).

Definition set_start_checkpoint (s : Step) (c : Checkpoint) : Step :=
  mkStoryStep (id s) (Some c) (end_checkpoint s) (events s).

Variable pick : list string → nat.
Variable pick_edge : list (string * string) → nat.

(** The comprehension [{start.id for start, _ in cyclic_edges}]. *)
Fixpoint start_ids (edges : list (option Step * option Step))
  : result (gset string) :=
  match edges with
  | [] => Ok ∅
  | (start, _) :: rest =>
      s ← deref start;
      ids ← start_ids rest;
      Ok ({[id s]} ∪ ids)
  end.

(** The loop [for s, e in cyclic_edges] over the two lists it appends to. *)
Fixpoint add_changed (edges : list (option Step * option Step))
    (story_steps : list Step) (story_end_checkpoints : list string)
    (gen : Gen) : result (list Step * list string * Gen) :=
  match edges with
  | [] => Ok (story_steps, story_end_checkpoints, gen)
  | (s, e) :: rest =>
      let '(cname, gen1) := generate_id "CYCLE_" gen in
      let cid := mkCheckpoint cname in
      let story_end_checkpoints := story_end_checkpoints ++ [name cid] in
      s ← deref s;
      let '(modified_start, gen2) := create_copy s gen1 in
      let modified_start := set_end_checkpoint modified_start cid in
      let story_steps := story_steps ++ [modified_start] in
      e ← deref e;
      let '(modified_end, gen3) := create_copy e gen2 in
      let modified_end := set_start_checkpoint modified_end cid in
      let story_steps := story_steps ++ [modified_end] in
      add_changed rest story_steps story_end_checkpoints gen3
  end.

(** The body of [with_cycles_removed] up to its last line: the step list and
    the end checkpoints the new graph is built from. *)
Definition changed_steps (self : StoryGraph Event) (gen : Gen)
  : result (list Step * list string * Gen) :=
  let story_end_checkpoints := story_end_checkpoints self in
  let cyclic_edges := cyclic_edges pick_edge self in
  steps_to_be_removed ← start_ids cyclic_edges;
  let story_steps :=
    filter (λ s, id s ∉ steps_to_be_removed) (story_steps self) in
  add_changed cyclic_edges story_steps story_end_checkpoints gen.

(** [StoryGraph.with_cycles_removed] *)
Definition with_cycles_removed (self : StoryGraph Event) (gen : Gen)
  : result (StoryGraph Event * Gen) :=
  '(story_steps, story_end_checkpoints, gen') ← changed_steps self gen;
  g ← StoryGraph_init pick story_steps (Some story_end_checkpoints);
  Ok (g, gen').

End Breaker.

Arguments create_copy {Event Gen} _ _ _.
Arguments set_end_checkpoint {Event} _ _.
Arguments set_start_checkpoint {Event} _ _.
Arguments start_ids {Event} _.
Arguments add_changed {Event Gen} _ _ _ _ _ _.
Arguments changed_steps {Event Gen} _ _ _ _ _.
Arguments with_cycles_removed {Event Gen} _ _ _ _ _ _.

(** ** Objects and references

    [with_cycles_removed] once more, now over a store in which steps, lists
    and graphs are objects reached through references, so that what the call
    writes and what it leaves alone can be told apart.  A reference is an
    index into the arena of its class of objects; allocation appends.
    Checkpoints and event lists are never written to and stay values. *)

Section Store.

Variable Event : Type.
Abbreviation Step := (StoryStep Event).
Variable Gen : Type.
Variable generate_id : string → Gen → string * Gen.
Variable new_id : Gen → string * Gen.
Variable pick : list string → nat.
Variable pick_edge : list (string * string) → nat.

(** A [StoryGraph] object: its lists are references, its dictionary maps
    identities to step objects. *)
Record GraphObject := mkGraphObject {
  obj_story_steps : nat;
  obj_step_lookup : gmap string nat;
  obj_ordered_ids : list string;
  obj_cyclic_edge_ids : gset (string * string);
  obj_story_end_checkpoints : nat
}.

Record Heap := mkHeap {
  step_objects : list Step;
  step_lists : list (list nat);
  label_lists : list (list string);
  graph_objects : list GraphObject
}.

Definition load {A} (arena : list A) (r : nat) : result A :=
  match arena !! r with
  | Some a => Ok a
  | None => Raise Dangling
  end.

Definition alloc_step (h : Heap) (s : Step) : nat * Heap :=
  (length (step_objects h),
   mkHeap (step_objects h ++ [s]) (step_lists h) (label_lists h)
     (graph_objects h)).

Definition alloc_list (h : Heap) (l : list nat) : nat * Heap :=
  (length (step_lists h),
   mkHeap (step_objects h) (step_lists h ++ [l]) (label_lists h)
     (graph_objects h)).

Definition alloc_labels (h : Heap) (l : list string) : nat * Heap :=
  (length (label_lists h),
   mkHeap (step_objects h) (step_lists h) (label_lists h ++ [l])
     (graph_objects h)).

Definition alloc_graph (h : Heap) (g : GraphObject) : nat * Heap :=
  (length (graph_objects h),
   mkHeap (step_objects h) (step_lists h) (label_lists h)
     (graph_objects h ++ [g])).

(** An attribute assignment [o.field = v] on the step object at [r]. *)
Definition update_step (h : Heap) (r : nat) (f : Step → Step) : result Heap :=
  o ← load (step_objects h) r;
  Ok (mkHeap (<[r := f o]> (step_objects h)) (step_lists h) (label_lists h)
        (graph_objects h)).

(** [l.append(x)] on the list object at [r]. *)
Definition append_ref (h : Heap) (r : nat) (x : nat) : result Heap :=
  l ← load (step_lists h) r;
  Ok (mkHeap (step_objects h) (<[r := l ++ [x]]> (step_lists h))
        (label_lists h) (graph_objects h)).

Definition append_label (h : Heap) (r : nat) (x : string) : result Heap :=
  l ← load (label_lists h) r;
  Ok (mkHeap (step_objects h) (step_lists h)
        (<[r := l ++ [x]]> (label_lists h)) (graph_objects h)).

(** [StoryGraph.__init__] on references. *)
Definition heap_init (story_steps : nat) (story_end_checkpoints : option nat)
    (h : Heap) : result (nat * Heap) :=
  refs ← load (step_lists h) story_steps;
  steps ← mapM (load (step_objects h)) refs;
  let step_lookup :=
    foldl (λ d p, <[id p.2 := p.1]> d) ∅ (zip refs steps) in
  match order_steps pick steps with
  | None => Raise Exhausted
  | Some (ordered_ids, cyclic_edges) =>
      '(ends, h) ←
        match story_end_checkpoints with
        | Some r =>
            l ← load (label_lists h) r;
            match l with
            | [] => Ok (alloc_labels h [])
            | _ :: _ => Ok (r, h)
            end
        | None => Ok (alloc_labels h [])
        end;
      Ok (alloc_graph h
            (mkGraphObject story_steps step_lookup ordered_ids cyclic_edges
               ends))
  end.

(** [{start.id for start, _ in cyclic_edges}] *)
Fixpoint heap_start_ids (h : Heap) (edges : list (option nat * option nat))
  : result (gset string) :=
  match edges with
  | [] => Ok ∅
  | (start, _) :: rest =>
      r ← deref start;
      s ← load (step_objects h) r;
      ids ← heap_start_ids h rest;
      Ok ({[id s]} ∪ ids)
  end.

(** [[s for s in self.story_steps if s.id not in steps_to_be_removed]] *)
Fixpoint heap_keep (h : Heap) (removed : gset string) (refs : list nat)
  : result (list nat) :=
  match refs with
  | [] => Ok []
  | r :: rest =>
      s ← load (step_objects h) r;
      kept ← heap_keep h removed rest;
      Ok (if decide (id s ∉ removed) then r :: kept else kept)
  end.

(** One round of [for s, e in cyclic_edges]. *)
Definition heap_add_edge (story_steps story_end_checkpoints : nat)
    (edge : option nat * option nat) (st : Heap * Gen) : result (Heap * Gen) :=
  let '(h, gen) := st in
  let '(s, e) := edge in
  let '(cname, gen) := generate_id "CYCLE_" gen in
  let cid := mkCheckpoint cname in
  h ← append_label h story_end_checkpoints (name cid);
  s ← deref s;
  s_obj ← load (step_objects h) s;
  let '(copy, gen) := create_copy new_id s_obj gen in
  let '(modified_start, h) := alloc_step h copy in
  h ← update_step h modified_start (λ o, set_end_checkpoint o cid);
  h ← append_ref h story_steps modified_start;
  e ← deref e;
  e_obj ← load (step_objects h) e;
  let '(copy, gen) := create_copy new_id e_obj gen in
  let '(modified_end, h) := alloc_step h copy in
  h ← update_step h modified_end (λ o, set_start_checkpoint o cid);
  h ← append_ref h story_steps modified_end;
  Ok (h, gen).

Fixpoint heap_add_changed (story_steps story_end_checkpoints : nat)
    (edges : list (option nat * option nat)) (st : Heap * Gen)
  : result (Heap * Gen) :=
  match edges with
  | [] => Ok st
  | edge :: rest =>
      st ← heap_add_edge story_steps story_end_checkpoints edge st;
      heap_add_changed story_steps story_end_checkpoints rest st
  end.

(** [StoryGraph.with_cycles_removed] on references: [self] is the receiver,
    the result is the reference of the new graph. *)
Definition heap_with_cycles_removed (self : nat) (h : Heap) (gen : Gen)
  : result (nat * Heap * Gen) :=
  obj ← load (graph_objects h) self;
  ends ← load (label_lists h) (obj_story_end_checkpoints obj);
  let '(story_end_checkpoints, h) := alloc_labels h ends in
  let cyclic_edges :=
    (λ e, (obj_step_lookup obj !! e.1, obj_step_lookup obj !! e.2))
      <$> set_iter pick_edge (obj_cyclic_edge_ids obj) in
  steps_to_be_removed ← heap_start_ids h cyclic_edges;
  refs ← load (step_lists h) (obj_story_steps obj);
  kept ← heap_keep h steps_to_be_removed refs;
  let '(story_steps, h) := alloc_list h kept in
  '(h, gen) ←
    heap_add_changed story_steps story_end_checkpoints cyclic_edges (h, gen);
  '(g, h) ← heap_init story_steps (Some story_end_checkpoints) h;
  Ok (g, h, gen).

(** The graph value an object stands for. *)
Definition graph_of (h : Heap) (g : nat) : result (StoryGraph Event) :=
  obj ← load (graph_objects h) g;
  refs ← load (step_lists h) (obj_story_steps obj);
  steps ← mapM (load (step_objects h)) refs;
  lookup ← map_fold (λ i r acc,
                       acc ← acc; s ← load (step_objects h) r;
                       Ok (<[i := s]> acc))
                    (Ok ∅) (obj_step_lookup obj);
  ends ← load (label_lists h) (obj_story_end_checkpoints obj);
  Ok (mkStoryGraph steps lookup (obj_ordered_ids obj)
        (obj_cyclic_edge_ids obj) ends).

End Store.

Arguments mkGraphObject _ _ _ _ _ : clear implicits.
Arguments mkHeap {Event} _ _ _ _.
Arguments step_objects {Event} _.
Arguments step_lists {Event} _.
Arguments label_lists {Event} _.
Arguments graph_objects {Event} _.
Arguments load {A} _ _.
Arguments alloc_step {Event} _ _.
Arguments alloc_list {Event} _ _.
Arguments alloc_labels {Event} _ _.
Arguments alloc_graph {Event} _ _.
Arguments update_step {Event} _ _ _.
Arguments append_ref {Event} _ _ _.
Arguments append_label {Event} _ _ _.
Arguments heap_init {Event} _ _ _ _.
Arguments heap_start_ids {Event} _ _.
Arguments heap_keep {Event} _ _ _.
Arguments heap_add_edge {Event Gen} _ _ _ _ _ _.
Arguments heap_add_changed {Event Gen} _ _ _ _ _ _.
Arguments heap_with_cycles_removed {Event Gen} _ _ _ _ _ _ _.
Arguments graph_of {Event} _ _.

(** ** Story enumeration *)

(** Modelled from the spec: [dsl.Story] (not part of this file's source): an
    ordered sequence of steps. *)
Record Story (Event : Type) := mkStory { Story_story_steps : list (StoryStep Event) }.
Arguments mkStory {Event} _.
Arguments Story_story_steps {Event} _.

Section Enumerator.

Variable Event : Type.
Abbreviation Step := (StoryStep Event).

(** The collaborators of [build_stories], none of them part of this file's
    source: the start label [dsl.STORY_START], the domain and
    [StoryStep.explicit_events], the generator type [random.Random] with its
    seeding constructor, and [utils.subsample_array], which reads and advances
    the generator it is given. *)
Variable STORY_START : string.
Variable Domain : Type.
Variable explicit_events : Step → Domain → list Event.
Variable Rand : Type.
Variable Random : Z → Rand.
Variable subsample_array : list (Story Event) → nat → Rand → list (Story Event) * Rand.

Abbreviation Trackers := (gmap (option string) (list (Story Event))).

(** The stories a step hands on, from those that reached it. *)
Definition extend_trackers (step : Step) (domain : Domain)
    (incoming_trackers : list (Story Event)) : list (Story Event) :=
  match explicit_events step domain with
  | _ :: _ =>
      (λ tracker, mkStory (Story_story_steps tracker ++ [step]))
        <$> incoming_trackers
  | [] => []
  end.

(** One round of the loop [for step in self.ordered_steps()]. *)
Definition process_step (domain : Domain) (max_number_of_trackers : option nat)
    (step : Step) (st : Trackers * Rand) : Trackers * Rand :=
  let '(active_trackers, rand) := st in
  match active_trackers !! start_checkpoint_name step with
  | Some incoming_trackers =>
      let '(incoming_trackers, rand) :=
        match max_number_of_trackers with
        | Some m => subsample_array incoming_trackers m rand
        | None => (incoming_trackers, rand)
        end in
      let trackers := extend_trackers step domain incoming_trackers in
      let active_trackers :=
        match active_trackers !! end_checkpoint_name step with
        | Some _ => active_trackers
        | None => <[end_checkpoint_name step := []]> active_trackers
        end in
      (<[end_checkpoint_name step :=
           default [] (active_trackers !! end_checkpoint_name step) ++ trackers]>
         active_trackers, rand)
  | None => (active_trackers, rand)
  end.

Fixpoint process_steps (domain : Domain) (max_number_of_trackers : option nat)
    (steps : list (option Step)) (st : Trackers * Rand)
  : result (Trackers * Rand) :=
  match steps with
  | [] => Ok st
  | step :: rest =>
      step ← deref step;
      process_steps domain max_number_of_trackers rest
        (process_step domain max_number_of_trackers step st)
  end.

(** [StoryGraph.build_stories] *)
Definition build_stories (self : StoryGraph Event) (domain : Domain)
    (max_number_of_trackers : option nat) : result (list (Story Event)) :=
  let active_trackers : Trackers := {[ Some STORY_START := [mkStory []] ]} in
  let rand := Random 42 in
  '(active_trackers, _) ←
    process_steps domain max_number_of_trackers (ordered_steps self)
      (active_trackers, rand);
  match active_trackers !! None with
  | Some stories => Ok stories
  | None => Raise KeyError
  end.

(** The stories waiting at a checkpoint; none when it has no entry. *)
Definition frontier (active_trackers : Trackers) (key : option string)
  : list (Story Event) :=
  default [] (active_trackers !! key).

(** What [subsample_array] hands back for the stories waiting at the start
    of a step. *)
Definition propagated (max_number_of_trackers : option nat)
    (incoming_trackers : list (Story Event)) (rand : Rand)
  : list (Story Event) :=
  match max_number_of_trackers with
  | Some m => (subsample_array incoming_trackers m rand).1
  | None => incoming_trackers
  end.

(** The loop over steps none of which is [None]. *)
Definition run_steps (domain : Domain) (max : option nat) (steps : list Step)
    (st : Trackers * Rand) : Trackers * Rand :=
  foldl (λ st step, process_step domain max step st) st steps.

(** The state in which [build_stories] enters its loop. *)
Definition initial : Trackers * Rand :=
  ({[ Some STORY_START := [mkStory []] ]}, Random 42).

End Enumerator.

Arguments extend_trackers {Event Domain} _ _ _ _.
Arguments process_step {Event Domain} _ {Rand} _ _ _ _ _.
Arguments process_steps {Event Domain} _ {Rand} _ _ _ _ _.
Arguments build_stories {Event} _ {Domain} _ {Rand} _ _ _ _ _.
Arguments frontier {Event} _ _.
Arguments propagated {Event Rand} _ _ _ _.
Arguments run_steps {Event Domain} _ {Rand} _ _ _ _ _.
Arguments initial {Event} _ {Rand} _.

(** Modelled from the spec: [utils.subsample_array] (not part of this file's
    source): a subset of the stories it is given, drawn without replacement
    with the generator it is given, of exactly the maximum size when more
    stories than that are given and of all of them otherwise. *)
Definition subsamples {Event Rand : Type}
    (subsample_array : list (Story Event) → nat → Rand
                       → list (Story Event) * Rand) : Prop :=
  ∀ l m r, (subsample_array l m r).1 ⊆+ l ∧
           length (subsample_array l m r).1 = m `min` length l.

(** ** Story enumeration in its surroundings

    [build_stories] calls three pieces of code that are not part of this
    file's source: [random.Random], [utils.subsample_array] and
    [StoryStep.explicit_events].  Each of them can reach state outside the
    call: the shared generator of module [random], the clock, the entropy
    pool.  [World] stands for all of that state; every call out of the file
    takes the world it finds and leaves the world it makes.  Dictionary
    operations and [ordered_steps] stay inside the file and do not touch
    it. *)

Section Runs.

Variable Event : Type.
Abbreviation Step := (StoryStep Event).
Variable STORY_START : string.
Variable Domain : Type.
Variable World : Type.
Variable explicit_events : Step → Domain → World → list Event * World.
Variable Rand : Type.
Variable Random : Z → World → Rand * World.
Variable subsample_array :
  list (Story Event) → nat → Rand → World → list (Story Event) * Rand * World.

Abbreviation Trackers := (gmap (option string) (list (Story Event))).

(** One round of the loop [for step in self.ordered_steps()]. *)
Definition process_step_in (domain : Domain)
    (max_number_of_trackers : option nat) (step : Step)
    (st : Trackers * Rand * World) : Trackers * Rand * World :=
  let '(active_trackers, rand, world) := st in
  match active_trackers !! start_checkpoint_name step with
  | Some incoming_trackers =>
      let '(incoming_trackers, rand, world) :=
        match max_number_of_trackers with
        | Some m => subsample_array incoming_trackers m rand world
        | None => (incoming_trackers, rand, world)
        end in
      let '(events, world) := explicit_events step domain world in
      let trackers :=
        match events with
        | _ :: _ =>
            (λ tracker, mkStory (Story_story_steps tracker ++ [step]))
              <$> incoming_trackers
        | [] => []
        end in
      let active_trackers :=
        match active_trackers !! end_checkpoint_name step with
        | Some _ => active_trackers
        | None => <[end_checkpoint_name step := []]> active_trackers
        end in
      (<[end_checkpoint_name step :=
           default [] (active_trackers !! end_checkpoint_name step) ++ trackers]>
         active_trackers, rand, world)
  | None => (active_trackers, rand, world)
  end.

Fixpoint process_steps_in (domain : Domain)
    (max_number_of_trackers : option nat) (steps : list (option Step))
    (st : Trackers * Rand * World) : result (Trackers * Rand * World) :=
  match steps with
  | [] => Ok st
  | step :: rest =>
      step ← deref step;
      process_steps_in domain max_number_of_trackers rest
        (process_step_in domain max_number_of_trackers step st)
  end.

(** [StoryGraph.build_stories], started in [world]. *)
Definition build_stories_in (self : StoryGraph Event) (domain : Domain)
    (max_number_of_trackers : option nat) (world : World)
  : result (list (Story Event) * World) :=
  let active_trackers : Trackers := {[ Some STORY_START := [mkStory []] ]} in
  let '(rand, world) := Random 42 world in
  '(active_trackers, _, world) ←
    process_steps_in domain max_number_of_trackers (ordered_steps self)
      (active_trackers, rand, world);
  match active_trackers !! None with
  | Some stories => Ok (stories, world)
  | None => Raise KeyError
  end.

(** What the caller of a run sees: the value returned or the exception
    raised. *)
Definition returned {A} (r : result (A * World)) : result A :=
  match r with
  | Ok (a, _) => Ok a
  | Raise e => Raise e
  end.

(** The collaborators as the call relies on them.  A generator made from a
    seed is determined by the seed. *)
Definition seeded : Prop :=
  ∀ seed world1 world2, (Random seed world1).1 = (Random seed world2).1.

(** [subsample_array] draws from the generator it is given and from nothing
    else: the stories it returns and the state it leaves the generator in
    are determined by its arguments. *)
Definition draws_from_generator : Prop :=
  ∀ arr max_values rand world1 world2,
    (subsample_array arr max_values rand world1).1
    = (subsample_array arr max_values rand world2).1.

(** The events of a step are determined by the step and the domain. *)
Definition events_of_domain : Prop :=
  ∀ step domain world1 world2,
    (explicit_events step domain world1).1
    = (explicit_events step domain world2).1.

End Runs.

Arguments process_step_in {Event Domain World} _ {Rand} _ _ _ _ _.
Arguments process_steps_in {Event Domain World} _ {Rand} _ _ _ _ _.
Arguments build_stories_in {Event} _ {Domain World} _ {Rand} _ _ _ _ _ _.
Arguments returned {World A} _.
Arguments seeded {World Rand} _.
Arguments draws_from_generator {Event World Rand} _.
Arguments events_of_domain {Event Domain World} _.

(** ** A concrete setting

    Collaborators and inputs on which the statements below are evaluated:
    events are numbers and a step's explicit events are the events it
    carries; fresh names count upwards; the generator state is a counter and
    subsampling keeps the leading stories. *)

Definition demo_events (s : StoryStep nat) (_ : bool) : list nat := events s.

Definition demo_generate_id (prefix : string) (n : nat) : string * nat :=
  (prefix +:+ pretty n, S n).

Definition demo_new_id (n : nat) : string * nat := demo_generate_id "" n.

Definition demo_subsample (l : list (Story nat)) (m : nat) (r : nat)
  : list (Story nat) * nat :=
  (take m l, S r).

(** Collaborators that count the calls made to the outside in the world and
    do not read it: events depend on the domain, the generator state is the
    number of draws. *)
Definition clocked_events (s : StoryStep nat) (domain : bool) (world : nat)
  : list nat * nat :=
  (if domain then events s else [], S world).

Definition clocked_Random (seed : Z) (world : nat) : nat * nat :=
  (Z.to_nat seed, S world).

Definition clocked_subsample (l : list (Story nat)) (m : nat) (r : nat)
    (world : nat) : list (Story nat) * nat * nat :=
  (take m (rotate r l), S r, S world).

(** A [subsample_array] that draws from the surroundings instead of the
    generator it is given. *)
Definition ambient_subsample (l : list (Story nat)) (m : nat) (r : nat)
    (world : nat) : list (Story nat) * nat * nat :=
  (take m (rotate world l), r, S world).

Definition checkpoint (label : string) : option Checkpoint :=
  Some (mkCheckpoint label).

(** Three steps that form the cycle [A -> B -> C -> A]. *)
Definition step_A : StoryStep nat :=
  mkStoryStep "A" (checkpoint "cpA") (checkpoint "cpB") [1].
Definition step_B : StoryStep nat :=
  mkStoryStep "B" (checkpoint "cpB") (checkpoint "cpC") [2].
Definition step_C : StoryStep nat :=
  mkStoryStep "C" (checkpoint "cpC") (checkpoint "cpA") [3].
Definition cycle3_steps : list (StoryStep nat) := [step_A; step_B; step_C].

(** Two steps from the start that meet at a checkpoint, a step from there to
    the end of the story, and a step without events from start to end. *)
Definition step_S1 : StoryStep nat :=
  mkStoryStep "s1" (checkpoint "STORY_START") (checkpoint "cp1") [1].
Definition step_S2 : StoryStep nat :=
  mkStoryStep "s2" (checkpoint "STORY_START") (checkpoint "cp1") [2].
Definition step_S3 : StoryStep nat :=
  mkStoryStep "s3" (checkpoint "cp1") None [3].
Definition step_Z : StoryStep nat :=
  mkStoryStep "z" (checkpoint "STORY_START") None [].

Definition graph_or_empty (r : result (StoryGraph nat)) : StoryGraph nat :=
  match r with
  | Ok g => g
  | Raise _ => mkStoryGraph [] ∅ [] ∅ []
  end.

Definition merge_graph : StoryGraph nat :=
  graph_or_empty (StoryGraph_init (λ _, 0) [step_S1; step_S2; step_S3] None).

Definition zero_graph : StoryGraph nat :=
  graph_or_empty (StoryGraph_init (λ _, 0) [step_Z] None).

(** The three steps of the cycle as objects, and the graph made of them. *)
Definition cycle3_heap : Heap nat :=
  let h := mkHeap cycle3_steps [[0; 1; 2]] [] [] in
  match heap_init (λ _, 1) 0 None h with
  | Ok (_, h') => h'
  | Raise _ => h
  end.

(** * Verification *)

(** ** Invariants of the traversal *)

Section SortProofs.

Variable pick : list string → nat.
Variable graph : gmap string (list string).

Lemma set_pop_nonempty (s : gset string) :
  s ≠ ∅ → ∃ x, set_pop pick s = Some (x, s ∖ {[x]}) ∧ x ∈ s.
Proof.
  intros Hne. unfold set_pop.
  assert (Hlen : length (elements s) ≠ 0).
  { intros H0. apply Hne. apply leibniz_equiv, elements_empty_inv.
    by apply nil_length_inv. }
  destruct (lookup_lt_is_Some_2 (elements s)
              (pick (elements s) `mod` length (elements s))) as [x Hx].
  { by apply Nat.mod_upper_bound. }
  exists x. rewrite Hx. split; [done |].
  apply elem_of_elements. by eapply list_elem_of_lookup_2.
Qed.

Lemma successors_in_nodes (x k : string) :
  k ∈ successors graph x → k ∈ graph_nodes graph.
Proof.
  unfold successors, graph_nodes. intros Hk.
  destruct (graph !! x) as [ks|] eqn:Hx; simpl in Hk; [| by inversion Hk].
  apply elem_of_union. right. apply elem_of_union_list.
  exists (list_to_set ks). split.
  - apply list_elem_of_fmap. exists (x, ks). split; [done |].
    by apply elem_of_map_to_list.
  - by apply elem_of_list_to_set.
Qed.

Lemma precedes_app (u v : string) (p l : list string) :
  precedes u v l → precedes u v (p ++ l).
Proof.
  intros (l1 & l2 & -> & Hv). exists (p ++ l1), l2.
  by rewrite <- app_assoc.
Qed.

Lemma precedes_head (u v : string) (l : list string) :
  v ∈ l → precedes u v (u :: l).
Proof. intros Hv. by exists [], l. Qed.

(** What a stretch of the traversal that finished the nodes [new] (latest
    first) did to the state. *)
Record extends (st st' : SortState) (new : list string) : Prop := {
  ext_ordered : ordered st' = new ++ ordered st;
  ext_nodup : NoDup new;
  ext_new : ∀ x, x ∈ new →
      visited_nodes st !! x = None ∧ visited_nodes st' !! x = Some BLACK;
  ext_old : ∀ x, x ∉ new → visited_nodes st' !! x = visited_nodes st !! x;
  ext_unprocessed : unprocessed st' ⊆ unprocessed st;
  ext_discarded : ∀ x, x ∈ new → x ∉ unprocessed st';
  ext_kept : ∀ x, x ∈ unprocessed st → x ∈ unprocessed st' ∨ x ∈ new;
  ext_removed : removed_edges st ⊆ removed_edges st';
  ext_removed_edge : ∀ x k, (x, k) ∈ removed_edges st' →
      (x, k) ∈ removed_edges st ∨ k ∈ successors graph x;
  ext_edges : ∀ x k, x ∈ new → k ∈ successors graph x →
      (x, k) ∈ removed_edges st' ∨ precedes x k (ordered st');
  ext_nodes : ∀ x, x ∈ new → x ∈ graph_nodes graph
}.

Lemma extends_refl (st : SortState) : extends st st [].
Proof.
  split; try done; try (intros x Hx; by apply elem_of_nil in Hx).
  - constructor.
  - intros x Hx. by left.
  - intros x k Hx. by left.
  - intros x k Hx; by apply elem_of_nil in Hx.
Qed.

(** Recording a back edge changes nothing else. *)
Lemma extends_add_removed (st : SortState) (u v : string) :
  v ∈ successors graph u →
  extends st (mkSortState (ordered st) (unprocessed st) (visited_nodes st)
                ({[(u, v)]} ∪ removed_edges st)) [].
Proof.
  intros Huv.
  split; try done; try (intros x Hx; by apply elem_of_nil in Hx).
  - constructor.
  - intros x Hx. by left.
  - simpl. set_solver.
  - simpl. intros x k Hx. apply elem_of_union in Hx as [Hx | Hx]; [| by left].
    apply elem_of_singleton in Hx. right. congruence.
  - intros x k Hx; by apply elem_of_nil in Hx.
Qed.

(** [unprocessed.discard(k)] (or the [pop] that delivered [k]) followed by a
    stretch that finishes [k]. *)
Lemma extends_discard (st st' : SortState) (k : string) (new : list string) :
  extends (mkSortState (ordered st) (unprocessed st ∖ {[k]})
             (visited_nodes st) (removed_edges st)) st' new →
  k ∈ new → extends st st' new.
Proof.
  intros He Hk. destruct He as [H1 H2 H3 H4 H5 H6 H7 H8 H8' H9 H10].
  simpl in *. split; try done.
  - set_solver.
  - intros x Hx. destruct (decide (x = k)) as [-> | Hne]; [by right |].
    apply H7. set_solver.
Qed.

Lemma extends_trans (a b c : SortState) (n1 n2 : list string) :
  extends a b n1 → extends b c n2 → extends a c (n2 ++ n1).
Proof.
  intros H1 H2. split.
  - rewrite (ext_ordered _ _ _ H2), (ext_ordered _ _ _ H1).
    by rewrite app_assoc.
  - apply NoDup_app. split; [apply (ext_nodup _ _ _ H2) |].
    split; [| apply (ext_nodup _ _ _ H1)].
    intros x Hx2 Hx1.
    destruct (ext_new _ _ _ H2 x Hx2) as [Hb _].
    destruct (ext_new _ _ _ H1 x Hx1) as [_ Hb']. congruence.
  - intros x Hx. apply elem_of_app in Hx as [Hx | Hx].
    + destruct (ext_new _ _ _ H2 x Hx) as [Hb Hc]. split; [| done].
      destruct (decide (x ∈ n1)) as [Hin | Hnin].
      * destruct (ext_new _ _ _ H1 x Hin) as [_ Hb']. congruence.
      * rewrite <- (ext_old _ _ _ H1 x Hnin). done.
    + destruct (ext_new _ _ _ H1 x Hx) as [Ha Hb]. split; [done |].
      destruct (decide (x ∈ n2)) as [Hin | Hnin].
      * destruct (ext_new _ _ _ H2 x Hin) as [Hb' _]. congruence.
      * rewrite (ext_old _ _ _ H2 x Hnin). done.
  - intros x Hx. rewrite not_elem_of_app in Hx. destruct Hx as [Hx2 Hx1].
    rewrite (ext_old _ _ _ H2 x Hx2). by apply (ext_old _ _ _ H1).
  - pose proof (ext_unprocessed _ _ _ H1). pose proof (ext_unprocessed _ _ _ H2).
    set_solver.
  - intros x Hx. apply elem_of_app in Hx as [Hx | Hx].
    + by apply (ext_discarded _ _ _ H2).
    + pose proof (ext_discarded _ _ _ H1 x Hx).
      pose proof (ext_unprocessed _ _ _ H2). set_solver.
  - intros x Hx. destruct (ext_kept _ _ _ H1 x Hx) as [Hb | Hn].
    + destruct (ext_kept _ _ _ H2 x Hb) as [Hc | Hn]; [by left | right].
      apply elem_of_app. by left.
    + right. apply elem_of_app. by right.
  - pose proof (ext_removed _ _ _ H1). pose proof (ext_removed _ _ _ H2).
    set_solver.
  - intros x k Hx. destruct (ext_removed_edge _ _ _ H2 x k Hx) as [Hb | Hs].
    + by apply (ext_removed_edge _ _ _ H1).
    + by right.
  - intros x k Hx Hk. apply elem_of_app in Hx as [Hx | Hx].
    + by apply (ext_edges _ _ _ H2).
    + destruct (ext_edges _ _ _ H1 x k Hx Hk) as [Hr | Hp].
      * left. by apply (ext_removed _ _ _ H2).
      * right. rewrite (ext_ordered _ _ _ H2). by apply precedes_app.
  - intros x Hx. apply elem_of_app in Hx as [Hx | Hx].
    + by apply (ext_nodes _ _ _ H2).
    + by apply (ext_nodes _ _ _ H1).
Qed.

(** Finished nodes are in the output. *)
Definition black_ordered (st : SortState) : Prop :=
  ∀ k, visited_nodes st !! k = Some BLACK → k ∈ ordered st.

Lemma extends_black_ordered (st st' : SortState) (new : list string) :
  extends st st' new → black_ordered st → black_ordered st'.
Proof.
  intros He Hb k Hk. rewrite (ext_ordered _ _ _ He). apply elem_of_app.
  destruct (decide (k ∈ new)) as [Hin | Hnin]; [by left | right].
  apply Hb. by rewrite <- (ext_old _ _ _ He k Hnin).
Qed.

(** The nodes not yet coloured: the measure that bounds the recursion. *)
Definition white (st : SortState) : gset string :=
  graph_nodes graph ∖ dom (visited_nodes st).

Lemma extends_white (st st' : SortState) (new : list string) :
  extends st st' new → white st' ⊆ white st.
Proof.
  intros He x. unfold white. rewrite !elem_of_difference, !elem_of_dom.
  intros [Hn Hv]. split; [done |]. intros Hs. apply Hv.
  destruct (decide (x ∈ new)) as [Hin | Hnin].
  - destruct (ext_new _ _ _ He x Hin) as [_ ->]. by eexists.
  - by rewrite (ext_old _ _ _ He x Hnin).
Qed.

(** The loop over the successors of a node in progress, given that the
    recursive calls behave. *)
Lemma visit_all_spec (rec : string → SortState → option SortState)
    (bound : nat) (node : string) :
  (∀ k st, black_ordered st → visited_nodes st !! k = None →
       k ∈ graph_nodes graph → k ∉ unprocessed st → (size (white st) ≤ bound)%nat →
       ∃ st' new, rec k st = Some st' ∧ extends st st' new ∧ k ∈ new) →
  ∀ ks st, black_ordered st → visited_nodes st !! node = Some GRAY →
       (∀ k, k ∈ ks → k ∈ successors graph node) →
       (size (white st) ≤ bound)%nat →
       ∃ st' new, visit_all rec node ks st = Some st' ∧ extends st st' new ∧
         ∀ k, k ∈ ks → (node, k) ∈ removed_edges st' ∨ k ∈ ordered st'.
Proof.
  intros Hrec ks. induction ks as [| k ks IH]; intros st Hb Hg Hks Hsz.
  - exists st, []. split; [done |]. split; [apply extends_refl |].
    intros k Hk. by apply elem_of_nil in Hk.
  - assert (Hks' : ∀ k', k' ∈ ks → k' ∈ successors graph node).
    { intros k' Hk'. apply Hks. by right. }
    assert (Hk0 : k ∈ successors graph node) by (apply Hks; by left).
    simpl. destruct (visited_nodes st !! k) as [[|]|] eqn:Hk.
    + set (stg := mkSortState (ordered st) (unprocessed st) (visited_nodes st)
                    ({[(node, k)]} ∪ removed_edges st)).
      pose proof (extends_add_removed st node k Hk0) as Hext. fold stg in Hext.
      destruct (IH stg) as (st' & new & Hrun & He & Hout); try done.
      exists st', new. split; [done |]. split.
      { pose proof (extends_trans _ _ _ _ _ Hext He) as Ht.
        by rewrite app_nil_r in Ht. }
      intros k' Hk'. apply elem_of_cons in Hk' as [-> | Hk']; [| by apply Hout].
      left. apply (ext_removed _ _ _ He). simpl. set_solver.
    + destruct (IH st) as (st' & new & Hrun & He & Hout); try done.
      exists st', new. split; [done |]. split; [done |].
      intros k' Hk'. apply elem_of_cons in Hk' as [-> | Hk']; [| by apply Hout].
      right. rewrite (ext_ordered _ _ _ He). apply elem_of_app. right.
      by apply Hb.
    + set (stk := mkSortState (ordered st) (unprocessed st ∖ {[k]})
                    (visited_nodes st) (removed_edges st)).
      destruct (Hrec k stk) as (st1 & new1 & Hrun1 & He1 & Hin1); try done.
      { by eapply successors_in_nodes. }
      { simpl. set_solver. }
      rewrite Hrun1.
      destruct (IH st1) as (st' & new & Hrun & He & Hout); try done.
      { by eapply extends_black_ordered. }
      { rewrite (ext_old _ _ _ He1); [done |].
        intros Hn. destruct (ext_new _ _ _ He1 node Hn) as [Hnone _].
        simpl in Hnone. congruence. }
      { etrans; [| exact Hsz]. apply subseteq_size.
        by eapply (extends_white stk). }
      exists st', (new ++ new1). split; [done |]. split.
      { eapply extends_trans; [| exact He].
        by apply (extends_discard st st1 k). }
      intros k' Hk'. apply elem_of_cons in Hk' as [-> | Hk']; [| by apply Hout].
      right. rewrite (ext_ordered _ _ _ He), (ext_ordered _ _ _ He1).
      apply elem_of_app. right. apply elem_of_app. by left.
Qed.

(** A call of [dfs] on an uncoloured node returns when the fuel covers the
    uncoloured nodes, and finishes a stretch that starts with the node. *)
Lemma dfs_spec (fuel : nat) :
  ∀ node st, black_ordered st → visited_nodes st !! node = None →
    node ∈ graph_nodes graph → node ∉ unprocessed st →
    (size (white st) ≤ fuel)%nat →
    ∃ st' new, dfs graph fuel node st = Some st' ∧ extends st st' new ∧
      node ∈ new.
Proof.
  induction fuel as [| fuel IH]; intros node st Hb Hw Hn Hu Hsz.
  - exfalso. assert (Hin : node ∈ white st).
    { unfold white. apply elem_of_difference. split; [done |].
      by apply not_elem_of_dom. }
    assert (Hemp : white st = ∅).
    { apply leibniz_equiv, size_empty_inv. lia. }
    rewrite Hemp in Hin. by apply not_elem_of_empty in Hin.
  - simpl.
    set (st1 := mkSortState (ordered st) (unprocessed st)
                  (<[node:=GRAY]> (visited_nodes st)) (removed_edges st)).
    assert (Hb1 : black_ordered st1).
    { intros k Hk. simpl in *. apply Hb.
      destruct (decide (k = node)) as [-> | Hne].
      - rewrite lookup_insert_eq in Hk. congruence.
      - by rewrite lookup_insert_ne in Hk. }
    assert (Hsz1 : (size (white st1) ≤ fuel)%nat).
    { assert (Hin : node ∈ white st).
      { unfold white. apply elem_of_difference. split; [done |].
        by apply not_elem_of_dom. }
      assert (Heq : white st1 = white st ∖ {[node]}).
      { unfold white, st1. simpl. rewrite dom_insert_L. set_solver. }
      rewrite Heq. rewrite size_difference by set_solver.
      rewrite size_singleton. lia. }
    destruct (visit_all_spec (dfs graph fuel) fuel node IH
                (successors graph node) st1)
      as (st2 & new & Hrun & He & Hout); try done.
    { simpl. by rewrite lookup_insert_eq. }
    rewrite Hrun.
    assert (Hnew : node ∉ new).
    { intros Hin. destruct (ext_new _ _ _ He node Hin) as [Hnone _].
      simpl in Hnone. rewrite lookup_insert_eq in Hnone. congruence. }
    eexists _, (node :: new). split; [done |]. split; [| by left].
    split; simpl.
    + by rewrite (ext_ordered _ _ _ He).
    + constructor; [done | apply (ext_nodup _ _ _ He)].
    + intros x Hx. apply elem_of_cons in Hx as [-> | Hx].
      * by rewrite lookup_insert_eq.
      * destruct (ext_new _ _ _ He x Hx) as [Hnone Hblack].
        assert (x ≠ node) by congruence.
        simpl in Hnone. rewrite lookup_insert_ne in Hnone by done.
        by rewrite lookup_insert_ne.
    + intros x Hx. apply not_elem_of_cons in Hx as [Hne Hx].
      rewrite lookup_insert_ne by done.
      rewrite (ext_old _ _ _ He x Hx). simpl. by rewrite lookup_insert_ne.
    + apply (ext_unprocessed _ _ _ He).
    + intros x Hx. apply elem_of_cons in Hx as [-> | Hx].
      * pose proof (ext_unprocessed _ _ _ He). set_solver.
      * by apply (ext_discarded _ _ _ He).
    + intros x Hx. destruct (ext_kept _ _ _ He x Hx) as [Hk | Hk]; [by left |].
      right. by right.
    + apply (ext_removed _ _ _ He).
    + apply (ext_removed_edge _ _ _ He).
    + intros x k Hx Hk. apply elem_of_cons in Hx as [-> | Hx].
      * destruct (Hout k Hk) as [Hr | Ho]; [by left | right].
        by apply precedes_head.
      * destruct (ext_edges _ _ _ He x k Hx Hk) as [Hr | Hp]; [by left | right].
        by apply (precedes_app _ _ [node]).
    + intros x Hx. apply elem_of_cons in Hx as [-> | Hx]; [done |].
      by apply (ext_nodes _ _ _ He).
Qed.

(** What holds between two rounds of the outer loop. *)
Record loop_inv (st : SortState) : Prop := {
  li_black : ∀ k c, visited_nodes st !! k = Some c → c = BLACK;
  li_ordered : ∀ k, k ∈ ordered st ↔ is_Some (visited_nodes st !! k);
  li_nodup : NoDup (ordered st);
  li_unprocessed : ∀ k, k ∈ unprocessed st →
      visited_nodes st !! k = None ∧ k ∈ dom graph;
  li_keys : ∀ k, k ∈ dom graph → k ∈ unprocessed st ∨ k ∈ ordered st;
  li_edges : ∀ x k, x ∈ ordered st → k ∈ successors graph x →
      (x, k) ∈ removed_edges st ∨ precedes x k (ordered st);
  li_nodes : ∀ x, x ∈ ordered st → x ∈ graph_nodes graph;
  li_removed : ∀ x k, (x, k) ∈ removed_edges st → k ∈ successors graph x
}.

Lemma loop_inv_init : loop_inv (mkSortState [] (dom graph) ∅ ∅).
Proof.
  split; simpl.
  - intros k c Hk. by rewrite lookup_empty in Hk.
  - intros k. rewrite lookup_empty. split.
    + intros Hk. by apply elem_of_nil in Hk.
    + intros [c Hc]. done.
  - constructor.
  - intros k Hk. by rewrite lookup_empty.
  - intros k Hk. by left.
  - intros x k Hx. by apply elem_of_nil in Hx.
  - intros x Hx. by apply elem_of_nil in Hx.
  - intros x k Hx. by apply not_elem_of_empty in Hx.
Qed.

Lemma loop_inv_extends (st st' : SortState) (new : list string) :
  loop_inv st → extends st st' new → loop_inv st'.
Proof.
  intros Hi He. split.
  - intros k c Hk. destruct (decide (k ∈ new)) as [Hin | Hnin].
    + destruct (ext_new _ _ _ He k Hin) as [_ Hb]. congruence.
    + rewrite (ext_old _ _ _ He k Hnin) in Hk. by eapply (li_black _ Hi).
  - intros k. rewrite (ext_ordered _ _ _ He), elem_of_app.
    destruct (decide (k ∈ new)) as [Hin | Hnin].
    + destruct (ext_new _ _ _ He k Hin) as [_ Hb]. rewrite Hb.
      split; [by eexists | by left].
    + rewrite (ext_old _ _ _ He k Hnin), (li_ordered _ Hi). tauto.
  - rewrite (ext_ordered _ _ _ He). apply NoDup_app.
    split; [apply (ext_nodup _ _ _ He) |]. split; [| apply (li_nodup _ Hi)].
    intros x Hx Ho. destruct (ext_new _ _ _ He x Hx) as [Hnone _].
    apply (li_ordered _ Hi) in Ho as [c Hc]. congruence.
  - intros k Hk.
    destruct (li_unprocessed _ Hi k (ext_unprocessed _ _ _ He k Hk))
      as [Hnone Hdom].
    split; [| done]. rewrite (ext_old _ _ _ He); [done |].
    intros Hin. by apply (ext_discarded _ _ _ He k Hin).
  - intros k Hk. rewrite (ext_ordered _ _ _ He), elem_of_app.
    destruct (li_keys _ Hi k Hk) as [Hu | Ho]; [| by right; right].
    destruct (ext_kept _ _ _ He k Hu) as [Hu' | Hn]; [by left | by right; left].
  - intros x k Hx Hk. rewrite (ext_ordered _ _ _ He) in Hx.
    apply elem_of_app in Hx as [Hx | Hx].
    + by apply (ext_edges _ _ _ He).
    + destruct (li_edges _ Hi x k Hx Hk) as [Hr | Hp].
      * left. by apply (ext_removed _ _ _ He).
      * right. rewrite (ext_ordered _ _ _ He). by apply precedes_app.
  - intros x Hx. rewrite (ext_ordered _ _ _ He) in Hx.
    apply elem_of_app in Hx as [Hx | Hx].
    + by apply (ext_nodes _ _ _ He).
    + by apply (li_nodes _ Hi).
  - intros x k Hx. destruct (ext_removed_edge _ _ _ He x k Hx) as [Hr | Hs].
    + by apply (li_removed _ Hi).
    + done.
Qed.

Lemma loop_inv_black_ordered (st : SortState) : loop_inv st → black_ordered st.
Proof. intros Hi k Hk. apply (li_ordered _ Hi). by eexists. Qed.

(** The outer loop empties [unprocessed] within as many rounds as it has
    elements. *)
Lemma sort_loop_spec (rounds : nat) :
  ∀ st, loop_inv st → (size (unprocessed st) ≤ rounds)%nat →
    ∃ st', sort_loop pick graph rounds st = Some st' ∧ loop_inv st' ∧
      unprocessed st' = ∅.
Proof.
  induction rounds as [| rounds IH]; intros st Hi Hsz.
  - exists st. assert (Hemp : unprocessed st = ∅).
    { apply leibniz_equiv, size_empty_inv. lia. }
    simpl. rewrite decide_True by done. done.
  - cbn [sort_loop]. destruct (decide (unprocessed st = ∅)) as [Hemp | Hne].
    { by exists st. }
    destruct (set_pop_nonempty (unprocessed st) Hne) as (x & Hpop & Hx).
    rewrite Hpop.
    destruct (li_unprocessed _ Hi x Hx) as [Hnone Hdom].
    set (stp := mkSortState (ordered st) (unprocessed st ∖ {[x]})
                  (visited_nodes st) (removed_edges st)).
    assert (Hb : black_ordered stp).
    { intros k Hk. by apply (loop_inv_black_ordered st Hi k). }
    assert (Hnode : x ∈ graph_nodes graph).
    { unfold graph_nodes. set_solver. }
    assert (Hgone : x ∉ unprocessed stp) by (simpl; set_solver).
    assert (Hfuel : (size (white stp) ≤ S (size (graph_nodes graph)))%nat).
    { etrans; [apply subseteq_size | apply Nat.le_succ_diag_r].
      unfold white. set_solver. }
    destruct (dfs_spec (S (size (graph_nodes graph))) x stp Hb Hnone Hnode
                Hgone Hfuel) as (st1 & new & Hrun & He & Hin).
    rewrite Hrun.
    assert (He' : extends st st1 new) by by apply (extends_discard st st1 x).
    apply IH.
    + by eapply loop_inv_extends.
    + assert (Hsub : unprocessed st1 ⊆ unprocessed st ∖ {[x]}).
      { apply (ext_unprocessed _ _ _ He). }
      apply subseteq_size in Hsub.
      rewrite size_difference in Hsub by set_solver.
      rewrite size_singleton in Hsub.
      assert (size (unprocessed st) ≠ 0).
      { intros H0. apply size_empty_inv in H0. apply Hne.
        by apply leibniz_equiv. }
      lia.
Qed.

(** [topological_sort] returns; its sequence has no duplicates, holds every
    key of the graph and only nodes of the graph; its removed edges are edges
    of the graph; and along every other edge the source comes first. *)
Lemma topological_sort_spec :
  ∃ ord rem, topological_sort pick graph = Some (ord, rem) ∧
    NoDup ord ∧
    (∀ k, k ∈ dom graph → k ∈ ord) ∧
    (∀ k, k ∈ ord → k ∈ graph_nodes graph) ∧
    (∀ u v, (u, v) ∈ rem → v ∈ successors graph u) ∧
    (∀ u v, u ∈ ord → v ∈ successors graph u → (u, v) ∉ rem →
       precedes u v ord).
Proof.
  unfold topological_sort.
  destruct (sort_loop_spec (size (dom graph))
              (mkSortState [] (dom graph) ∅ ∅) loop_inv_init)
    as (st & Hrun & Hi & Hemp); [done |].
  rewrite Hrun. exists (ordered st), (removed_edges st).
  split; [done |]. split; [apply (li_nodup _ Hi) |].
  split; [| split; [apply (li_nodes _ Hi) | split; [apply (li_removed _ Hi) |]]].
  - intros k Hk. destruct (li_keys _ Hi k Hk) as [Hu | Ho]; [| done].
    rewrite Hemp in Hu. by apply not_elem_of_empty in Hu.
  - intros u v Hu Hv Hnr. by destruct (li_edges _ Hi u v Hu Hv).
Qed.

End SortProofs.

(** ** The sorter on arbitrary and on concrete graphs *)

Lemma successors_lookup (graph : gmap string (list string)) (u v : string)
    (ks : list string) :
  graph !! u = Some ks → v ∈ ks → v ∈ successors graph u.
Proof. intros Hu Hv. unfold successors. by rewrite Hu. Qed.

(** C4: for every graph, [topological_sort] returns a duplicate-free sequence
    in which, for every edge [u -> v] of the graph that is not among the
    removed edges, [u] comes before [v]. *)
Theorem topological_sort_retained_edges (pick : list string → nat)
    (graph : gmap string (list string)) :
  ∃ ord rem, topological_sort pick graph = Some (ord, rem) ∧ NoDup ord ∧
    ∀ u ks v, graph !! u = Some ks → v ∈ ks → (u, v) ∉ rem →
      precedes u v ord.
Proof.
  destruct (topological_sort_spec pick graph)
    as (ord & rem & Hrun & Hnd & Hkeys & _ & _ & Hedges).
  exists ord, rem. split; [done |]. split; [done |].
  intros u ks v Hu Hv Hnr. apply Hedges; [| by eapply successors_lookup | done].
  apply Hkeys. apply elem_of_dom. by eexists.
Qed.

(** The first round of the outer loop, spelled out. *)
Lemma topological_sort_first (pick : list string → nat)
    (graph : gmap string (list string)) :
  dom graph ≠ ∅ →
  ∃ x, x ∈ dom graph ∧
    topological_sort pick graph =
      match
        st ← dfs graph (S (size (graph_nodes graph))) x
               (mkSortState [] (dom graph ∖ {[x]}) ∅ ∅);
        sort_loop pick graph (pred (size (dom graph))) st
      with
      | Some st => Some (ordered st, removed_edges st)
      | None => None
      end.
Proof.
  intros Hne. destruct (set_pop_nonempty pick (dom graph) Hne) as (x & Hpop & Hx).
  exists x. split; [done |]. unfold topological_sort.
  destruct (size (dom graph)) as [| n] eqn:Hsz.
  { apply size_empty_inv in Hsz. by apply leibniz_equiv in Hsz. }
  cbn [sort_loop]. rewrite decide_False by done. simpl ordered.
  simpl unprocessed. rewrite Hpop. simpl pred.
  by destruct (dfs graph _ x _).
Qed.

Ltac solve_elem_of :=
  repeat first [apply list_elem_of_here | apply list_elem_of_further].

Lemma precedesb_sound (u v : string) (l : list string) :
  precedesb u v l = true → precedes u v l.
Proof.
  induction l as [| x l IH]; simpl; [done |].
  destruct (decide (x = u)) as [-> | Hne].
  - intros H. apply orb_true_iff in H as [H | H].
    + apply bool_decide_eq_true in H. by apply precedes_head.
    + by apply (precedes_app _ _ [u]), IH.
  - intros H. by apply (precedes_app _ _ [x]), IH.
Qed.

Ltac solve_precedes := apply precedesb_sound; vm_compute; reflexivity.

Lemma cycle3_lookup (u v : string) (ks : list string) :
  cycle3 !! u = Some ks → v ∈ ks →
  (u, v) = ("A", "B") ∨ (u, v) = ("B", "C") ∨ (u, v) = ("C", "A").
Proof.
  unfold cycle3. simpl. intros Hu Hv.
  repeat (apply lookup_insert_Some in Hu as [[<- <-] | [_ Hu]];
          [apply list_elem_of_singleton in Hv as ->; tauto |]).
  by rewrite lookup_empty in Hu.
Qed.

(** A list without duplicates cannot order a cycle. *)
Lemma precedes_lookup (u v : string) (l : list string) :
  precedes u v l → ∃ i j, l !! i = Some u ∧ l !! j = Some v ∧ i < j.
Proof.
  intros (l1 & l2 & -> & Hv). apply list_elem_of_lookup in Hv as [j Hj].
  exists (length l1), (length l1 + S j). split; [| split; [| lia]].
  - by rewrite list_lookup_middle.
  - rewrite lookup_app_r by lia.
    replace (length l1 + S j - length l1) with (S j) by lia. done.
Qed.

Lemma precedes_cycle3 (a b c : string) (l : list string) :
  NoDup l → precedes a b l → precedes b c l → precedes c a l → False.
Proof.
  intros Hnd (i1 & j1 & Ha1 & Hb1 & H1)%precedes_lookup
    (i2 & j2 & Hb2 & Hc2 & H2)%precedes_lookup
    (i3 & j3 & Hc3 & Ha3 & H3)%precedes_lookup.
  pose proof (NoDup_lookup _ _ _ _ Hnd Ha1 Ha3).
  pose proof (NoDup_lookup _ _ _ _ Hnd Hb1 Hb2).
  pose proof (NoDup_lookup _ _ _ _ Hnd Hc2 Hc3). lia.
Qed.

(** On a graph with a cycle of three keys the sorter removes an edge of the
    cycle. *)
Lemma sort_reports_cycle3 (pick : list string → nat)
    (graph : gmap string (list string)) (ord : list string)
    (rem : gset (string * string)) (a b c : string) :
  topological_sort pick graph = Some (ord, rem) →
  a ∈ dom graph → b ∈ dom graph → c ∈ dom graph →
  b ∈ successors graph a → c ∈ successors graph b → a ∈ successors graph c →
  (a, b) ∈ rem ∨ (b, c) ∈ rem ∨ (c, a) ∈ rem.
Proof.
  intros Hrun Ha Hb Hc Hab Hbc Hca.
  destruct (topological_sort_spec pick graph)
    as (ord' & rem' & Hrun' & Hnd & Hkeys & _ & _ & Hedges).
  rewrite Hrun in Hrun'. injection Hrun' as <- <-.
  destruct (decide ((a, b) ∈ rem)) as [| Hn1]; [by left |].
  destruct (decide ((b, c) ∈ rem)) as [| Hn2]; [by right; left |].
  destruct (decide ((c, a) ∈ rem)) as [| Hn3]; [by right; right |].
  exfalso. apply (precedes_cycle3 a b c ord Hnd); apply Hedges; auto.
Qed.

(** The three runs of the sorter on the cycle, by the node it starts at. *)
Lemma cycle3_sort_cases (pick : list string → nat) :
  topological_sort pick cycle3 = Some (["A"; "B"; "C"], {[("C", "A")]}) ∨
  topological_sort pick cycle3 = Some (["B"; "C"; "A"], {[("A", "B")]}) ∨
  topological_sort pick cycle3 = Some (["C"; "A"; "B"], {[("B", "C")]}).
Proof.
  destruct (topological_sort_first pick cycle3) as (x & Hx & ->).
  { intros H%(f_equal size). vm_compute in H. discriminate H. }
  assert (Hcases : x = "A" ∨ x = "B" ∨ x = "C").
  { apply elem_of_dom in Hx as [ks Hx]. unfold cycle3 in Hx. simpl in Hx.
    repeat (apply lookup_insert_Some in Hx as [[<- _] | [_ Hx]]; [tauto |]).
    by rewrite lookup_empty in Hx. }
  destruct Hcases as [-> | [-> | ->]].
  - left. vm_compute. reflexivity.
  - right. left. vm_compute. reflexivity.
  - right. right. vm_compute. reflexivity.
Qed.

(** C5: on the cycle [A -> B -> C -> A] the sorter reports exactly one back
    edge, one of the three edges of the cycle; the sequence it returns holds
    the three nodes once each and orders the graph without that edge: along
    each of the two other edges the source comes first.  Which edge it is
    depends on where the traversal starts, and each of the three occurs. *)
Theorem cycle3_one_back_edge :
  (∀ pick : list string → nat,
     ∃ ord e, topological_sort pick cycle3 = Some (ord, {[e]}) ∧
       e ∈ [("A", "B"); ("B", "C"); ("C", "A")] ∧
       ord ≡ₚ ["A"; "B"; "C"] ∧
       ∀ u ks v, cycle3 !! u = Some ks → v ∈ ks → (u, v) ≠ e →
         precedes u v ord) ∧
  (∀ e, e ∈ [("A", "B"); ("B", "C"); ("C", "A")] →
     ∃ pick ord, topological_sort pick cycle3 = Some (ord, {[e]})).
Proof.
  split.
  - intros pick. destruct (cycle3_sort_cases pick) as [-> | [-> | ->]].
    + exists ["A"; "B"; "C"], ("C", "A"). split; [done |].
      split; [solve_elem_of |]. split; [done |].
      intros u ks v Hu Hv Hne.
      destruct (cycle3_lookup u v ks Hu Hv)
        as [[= -> ->] | [[= -> ->] | [= -> ->]]];
        clear Hu Hv; first [by destruct Hne | solve_precedes].
    + exists ["B"; "C"; "A"], ("A", "B"). split; [done |].
      split; [solve_elem_of |]. split; [solve_Permutation |].
      intros u ks v Hu Hv Hne.
      destruct (cycle3_lookup u v ks Hu Hv)
        as [[= -> ->] | [[= -> ->] | [= -> ->]]];
        clear Hu Hv; first [by destruct Hne | solve_precedes].
    + exists ["C"; "A"; "B"], ("B", "C"). split; [done |].
      split; [solve_elem_of |]. split; [solve_Permutation |].
      intros u ks v Hu Hv Hne.
      destruct (cycle3_lookup u v ks Hu Hv)
        as [[= -> ->] | [[= -> ->] | [= -> ->]]];
        clear Hu Hv; first [by destruct Hne | solve_precedes].
  - intros e He. repeat (apply elem_of_cons in He as [-> | He]).
    + exists (λ _, 2), ["B"; "C"; "A"]. vm_compute; reflexivity.
    + exists (λ _, 0), ["C"; "A"; "B"]. vm_compute; reflexivity.
    + exists (λ _, 1), ["A"; "B"; "C"]. vm_compute; reflexivity.
    + by apply elem_of_nil in He.
Qed.

(** ** The graph of a list of steps *)

Section GraphProofs.

Variable Event : Type.
Abbreviation Step := (StoryStep Event).

Lemma graph_nodes_inv (graph : gmap string (list string)) (x : string) :
  x ∈ graph_nodes graph → x ∈ dom graph ∨ ∃ y, x ∈ successors graph y.
Proof.
  unfold graph_nodes. intros Hx. apply elem_of_union in Hx as [Hx | Hx].
  { by left. }
  right. apply elem_of_union_list in Hx as (X & HX & Hx).
  apply list_elem_of_fmap in HX as ([y ks] & -> & Hy).
  apply elem_of_map_to_list in Hy. exists y. unfold successors.
  rewrite Hy. simpl in *. by apply elem_of_list_to_set in Hx.
Qed.

(** Each bucket holds the steps that start at its label, in input order. *)
Lemma group_fold_lookup (steps : list Step)
    (acc : gmap (option string) (list Step)) (key : option string) :
  default [] (foldl (λ checkpoints step,
      <[start_checkpoint_name step :=
          default [] (checkpoints !! start_checkpoint_name step) ++ [step]]>
        checkpoints) acc steps !! key)
  = default [] (acc !! key)
      ++ filter (λ s, start_checkpoint_name s = key) steps.
Proof.
  revert acc. induction steps as [| s steps IH]; intros acc.
  - simpl. by rewrite app_nil_r.
  - simpl. rewrite IH. rewrite filter_cons.
    destruct (decide (start_checkpoint_name s = key)) as [-> | Hne].
    + rewrite lookup_insert_eq. simpl. by rewrite <- app_assoc.
    + by rewrite lookup_insert_ne.
Qed.

Lemma group_lookup (steps : list Step) (key : option string) :
  default [] (_group_by_start_checkpoint steps !! key)
  = filter (λ s, start_checkpoint_name s = key) steps.
Proof.
  unfold _group_by_start_checkpoint. rewrite group_fold_lookup.
  by rewrite lookup_empty.
Qed.

Lemma graph_fold_dom (f : Step → list string) (steps : list Step)
    (acc : gmap string (list string)) :
  dom (foldl (λ graph s, <[id s := f s]> graph) acc steps)
  = dom acc ∪ list_to_set (id <$> steps).
Proof.
  revert acc. induction steps as [| s steps IH]; intros acc; simpl.
  - set_solver.
  - rewrite IH, dom_insert_L. set_solver.
Qed.

Lemma graph_fold_lookup (f : Step → list string) (steps : list Step)
    (acc : gmap string (list string)) (x : string) (ks : list string) :
  foldl (λ graph s, <[id s := f s]> graph) acc steps !! x = Some ks →
  acc !! x = Some ks ∨ ∃ s, s ∈ steps ∧ id s = x ∧ ks = f s.
Proof.
  revert acc. induction steps as [| s steps IH]; intros acc; simpl.
  - by left.
  - intros Hx. destruct (IH _ Hx) as [Hacc | (s' & Hs' & Hid & Hks)].
    + destruct (decide (id s = x)) as [Heq | Hne].
      * rewrite <- Heq, lookup_insert_eq in Hacc. right. exists s.
        split; [by left |]. split; [done | congruence].
      * rewrite lookup_insert_ne in Hacc by done. by left.
    + right. exists s'. split; [by right | done].
Qed.

(** The keys of the graph are the identities of the steps. *)
Lemma steps_graph_dom (steps : list Step) :
  dom (steps_graph steps) = list_to_set (id <$> steps).
Proof.
  unfold steps_graph. rewrite graph_fold_dom. set_solver.
Qed.

(** The successors of a node are identities of steps that start where a step
    with the node's identity ends. *)
Lemma steps_graph_successors (steps : list Step) (x k : string) :
  k ∈ successors (steps_graph steps) x →
  ∃ s other, s ∈ steps ∧ id s = x ∧ other ∈ steps ∧ id other = k ∧
    start_checkpoint_name other = end_checkpoint_name s.
Proof.
  unfold successors. intros Hk.
  destruct (steps_graph steps !! x) as [ks|] eqn:Hx; simpl in Hk;
    [| by apply elem_of_nil in Hk].
  unfold steps_graph in Hx.
  apply graph_fold_lookup in Hx as [Hx | (s & Hs & Hid & ->)].
  { by rewrite lookup_empty in Hx. }
  apply list_elem_of_fmap in Hk as (other & -> & Ho).
  rewrite group_lookup in Ho. apply list_elem_of_filter in Ho as [Hst Ho].
  by exists s, other.
Qed.

Lemma steps_graph_nodes (steps : list Step) (x : string) :
  x ∈ graph_nodes (steps_graph steps) → x ∈ id <$> steps.
Proof.
  intros Hx. apply graph_nodes_inv in Hx as [Hx | [y Hx]].
  - rewrite steps_graph_dom in Hx. by apply elem_of_list_to_set in Hx.
  - apply steps_graph_successors in Hx as (s & other & _ & _ & Ho & <- & _).
    apply list_elem_of_fmap. by exists other.
Qed.

(** C3: for every list of steps, also the empty one, [order_steps] returns,
    and the sequence it returns holds the identity of every input step exactly
    once: it has no duplicates and its elements are exactly the identities of
    the input steps. *)
Theorem order_steps_each_identity_once (pick : list string → nat)
    (steps : list Step) :
  ∃ ord rem, order_steps pick steps = Some (ord, rem) ∧
    NoDup ord ∧ ∀ i, i ∈ ord ↔ i ∈ id <$> steps.
Proof.
  destruct (topological_sort_spec pick (steps_graph steps))
    as (ord & rem & Hrun & Hnd & Hkeys & Hnodes & _).
  exists ord, rem. split; [done |]. split; [done |]. intros i. split.
  - intros Hi. by apply steps_graph_nodes, Hnodes.
  - intros Hi. apply Hkeys. rewrite steps_graph_dom.
    by apply elem_of_list_to_set.
Qed.

End GraphProofs.

(** ** The cycle breaker on the cycle of three steps *)

Lemma set_iter_singleton `{Countable A} (pick : list A → nat) (x : A) :
  set_iter pick ({[x]} : gset A) = [x].
Proof.
  unfold set_iter. rewrite size_singleton, elements_singleton.
  cbn [drain length]. by rewrite Nat.mod_1_r.
Qed.

Lemma steps_graph_cycle3 : steps_graph cycle3_steps = cycle3.
Proof. vm_compute. reflexivity. Qed.

Section BreakerProofs.

Variable pick : list string → nat.
Variable pick_edge : list (string * string) → nat.

(** With a single back edge the order of iteration plays no role. *)
Lemma changed_steps_singleton {Event Gen : Type}
    (generate_id : string → Gen → string * Gen) (new_id : Gen → string * Gen)
    (g : StoryGraph Event) (gen : Gen) (e : string * string) :
  cyclic_edge_ids g = {[e]} →
  changed_steps generate_id new_id pick_edge g gen
  = changed_steps generate_id new_id (λ _, 0) g gen.
Proof.
  intros H. unfold changed_steps, cyclic_edges.
  by rewrite H, !set_iter_singleton.
Qed.

Ltac run_changed_steps :=
  unfold with_cycles_removed;
  erewrite changed_steps_singleton by reflexivity;
  match goal with |- context [changed_steps ?a ?b ?c ?d ?e] =>
    let r := eval vm_compute in (changed_steps a b c d e) in
    change (changed_steps a b c d e) with r end;
  cbn [mbind result_bind]; unfold StoryGraph_init, order_steps.

Ltac decide_by_computation :=
  vm_compute; first [reflexivity | by solve_elem_of].

(** C1, evaluated: the graph of the three steps [A -> B -> C -> A] has one
    back edge, whatever node the sort starts at; [with_cycles_removed] returns
    a graph, and the sort made for that graph reports a back edge again: the
    copies keep the checkpoints that close the cycle.  Started at the copy of
    the target step, that sort reports the edge between the two copies. *)
Theorem cycle3_breaker_keeps_cycle :
  (∃ g e, StoryGraph_init pick cycle3_steps None = Ok g ∧
     cyclic_edge_ids g = {[e]} ∧
     ∃ g' gen', with_cycles_removed demo_generate_id demo_new_id pick
                  pick_edge g 0 = Ok (g', gen') ∧
       ∃ u v, (u, v) ∈ cyclic_edge_ids g') ∧
  (g ← StoryGraph_init (λ _, 2) cycle3_steps None;
   '(g', _) ← with_cycles_removed demo_generate_id demo_new_id (λ _, 2)
                (λ _, 0) g 0;
   Ok (elements (cyclic_edge_ids g), id <$> story_steps g',
       elements (cyclic_edge_ids g')))
  = Ok ([("A", "B")], ["B"; "C"; "1"; "2"], [("1", "2")]).
Proof.
  split; [| vm_compute; reflexivity].
  unfold StoryGraph_init, order_steps. rewrite steps_graph_cycle3.
  destruct (cycle3_sort_cases pick) as [-> | [-> | ->]].
  - eexists _, _. split; [reflexivity |]. split; [reflexivity |].
    run_changed_steps.
    match goal with |- context [topological_sort pick ?g] =>
      destruct (topological_sort_spec pick g) as (ord & rem & Hrun & _);
      rewrite Hrun end.
    cbn [mbind result_bind]. eexists _, _. split; [reflexivity |].
    cbn [cyclic_edge_ids].
    destruct (sort_reports_cycle3 pick _ ord rem "B" "1" "2" Hrun)
      as [H | [H | H]]; try decide_by_computation; eauto.
  - eexists _, _. split; [reflexivity |]. split; [reflexivity |].
    run_changed_steps.
    match goal with |- context [topological_sort pick ?g] =>
      destruct (topological_sort_spec pick g) as (ord & rem & Hrun & _);
      rewrite Hrun end.
    cbn [mbind result_bind]. eexists _, _. split; [reflexivity |].
    cbn [cyclic_edge_ids].
    destruct (sort_reports_cycle3 pick _ ord rem "C" "1" "2" Hrun)
      as [H | [H | H]]; try decide_by_computation; eauto.
  - eexists _, _. split; [reflexivity |]. split; [reflexivity |].
    run_changed_steps.
    match goal with |- context [topological_sort pick ?g] =>
      destruct (topological_sort_spec pick g) as (ord & rem & Hrun & _);
      rewrite Hrun end.
    cbn [mbind result_bind]. eexists _, _. split; [reflexivity |].
    cbn [cyclic_edge_ids].
    destruct (sort_reports_cycle3 pick _ ord rem "A" "1" "2" Hrun)
      as [H | [H | H]]; try decide_by_computation; eauto.
Qed.

End BreakerProofs.

(** ** The store under [with_cycles_removed] *)

(** Takes the next call apart in an equation [... = Ok _]. *)
Ltac next_call H :=
  match type of H with
  | mbind _ ?r = Ok _ =>
      let E := fresh "E" in
      destruct r eqn:E; cbn [mbind result_bind] in H; [| discriminate H]
  | (let '(_, _) := ?r in _) = Ok _ =>
      let E := fresh "E" in destruct r eqn:E
  end.

Section StoreProofs.

Variable Event : Type.
Variable Gen : Type.
Variable generate_id : string → Gen → string * Gen.
Variable new_id : Gen → string * Gen.
Variable pick : list string → nat.
Variable pick_edge : list (string * string) → nat.

(** Every object of [h0] is an object of [h], unchanged. *)
Record frames (h0 h : Heap Event) : Prop := {
  fr_steps : step_objects h0 `prefix_of` step_objects h;
  fr_lists : step_lists h0 `prefix_of` step_lists h;
  fr_labels : label_lists h0 `prefix_of` label_lists h;
  fr_graphs : graph_objects h0 `prefix_of` graph_objects h
}.

Lemma frames_refl (h : Heap Event) : frames h h.
Proof. by split. Qed.

Lemma prefix_insert_ge {A} (l1 l2 : list A) (i : nat) (x : A) :
  l1 `prefix_of` l2 → (length l1 ≤ i)%nat → l1 `prefix_of` <[i := x]> l2.
Proof.
  intros [k ->] Hi. rewrite insert_app_r_alt by done. by eexists.
Qed.

Lemma prefix_snoc {A} (l1 l2 : list A) (x : A) :
  l1 `prefix_of` l2 → l1 `prefix_of` l2 ++ [x].
Proof. intros H. by apply prefix_app_r. Qed.

Lemma frames_alloc_step (h0 h : Heap Event) (s : StoryStep Event) :
  frames h0 h → frames h0 (alloc_step h s).2 ∧
    (length (step_objects h0) ≤ (alloc_step h s).1)%nat.
Proof.
  intros [H1 H2 H3 H4]. split; [split; simpl; auto using prefix_snoc |].
  simpl. by apply prefix_length.
Qed.

Lemma frames_alloc_list (h0 h : Heap Event) (l : list nat) :
  frames h0 h → frames h0 (alloc_list h l).2 ∧
    (length (step_lists h0) ≤ (alloc_list h l).1)%nat.
Proof.
  intros [H1 H2 H3 H4]. split; [split; simpl; auto using prefix_snoc |].
  simpl. by apply prefix_length.
Qed.

Lemma frames_alloc_labels (h0 h : Heap Event) (l : list string) :
  frames h0 h → frames h0 (alloc_labels h l).2 ∧
    (length (label_lists h0) ≤ (alloc_labels h l).1)%nat.
Proof.
  intros [H1 H2 H3 H4]. split; [split; simpl; auto using prefix_snoc |].
  simpl. by apply prefix_length.
Qed.

Lemma frames_alloc_graph (h0 h : Heap Event) (g : GraphObject) :
  frames h0 h → frames h0 (alloc_graph h g).2 ∧
    (length (graph_objects h0) ≤ (alloc_graph h g).1)%nat.
Proof.
  intros [H1 H2 H3 H4]. split; [split; simpl; auto using prefix_snoc |].
  simpl. by apply prefix_length.
Qed.

Lemma frames_update_step (h0 h h' : Heap Event) (r : nat)
    (f : StoryStep Event → StoryStep Event) :
  frames h0 h → (length (step_objects h0) ≤ r)%nat →
  update_step h r f = Ok h' → frames h0 h'.
Proof.
  intros [H1 H2 H3 H4] Hr. unfold update_step.
  destruct (load (step_objects h) r) as [o |]; [| done].
  intros [= <-]. split; simpl; auto using prefix_insert_ge.
Qed.

Lemma frames_append_ref (h0 h h' : Heap Event) (r x : nat) :
  frames h0 h → (length (step_lists h0) ≤ r)%nat →
  append_ref h r x = Ok h' → frames h0 h'.
Proof.
  intros [H1 H2 H3 H4] Hr. unfold append_ref.
  destruct (load (step_lists h) r) as [o |]; [| done].
  intros [= <-]. split; simpl; auto using prefix_insert_ge.
Qed.

Lemma frames_append_label (h0 h h' : Heap Event) (r : nat) (x : string) :
  frames h0 h → (length (label_lists h0) ≤ r)%nat →
  append_label h r x = Ok h' → frames h0 h'.
Proof.
  intros [H1 H2 H3 H4] Hr. unfold append_label.
  destruct (load (label_lists h) r) as [o |]; [| done].
  intros [= <-]. split; simpl; auto using prefix_insert_ge.
Qed.

(** Carries [frames h0 _] over the calls taken apart. *)
Ltac frame_step h0 :=
  match goal with
  | Hf : frames h0 ?h, E : append_label ?h ?r _ = Ok ?h' |- _ =>
      let Hf' := fresh "Hf" in
      assert (Hf' : frames h0 h')
        by (eapply frames_append_label; [exact Hf | | exact E]; lia);
      clear E
  | Hf : frames h0 ?h, E : append_ref ?h ?r _ = Ok ?h' |- _ =>
      let Hf' := fresh "Hf" in
      assert (Hf' : frames h0 h')
        by (eapply frames_append_ref; [exact Hf | | exact E]; lia);
      clear E
  | Hf : frames h0 ?h, E : update_step ?h ?r _ = Ok ?h' |- _ =>
      let Hf' := fresh "Hf" in
      assert (Hf' : frames h0 h')
        by (eapply frames_update_step; [exact Hf | | exact E]; lia);
      clear E
  | Hf : frames h0 ?h, E : alloc_step ?h ?s = (?n, ?h') |- _ =>
      let Hf' := fresh "Hf" in let Hn := fresh "Hn" in
      destruct (frames_alloc_step h0 h s Hf) as [Hf' Hn];
      rewrite E in Hf', Hn; cbn [fst snd] in Hf', Hn; clear E
  | Hf : frames h0 ?h, E : alloc_list ?h ?s = (?n, ?h') |- _ =>
      let Hf' := fresh "Hf" in let Hn := fresh "Hn" in
      destruct (frames_alloc_list h0 h s Hf) as [Hf' Hn];
      rewrite E in Hf', Hn; cbn [fst snd] in Hf', Hn; clear E
  | Hf : frames h0 ?h, E : alloc_labels ?h ?s = (?n, ?h') |- _ =>
      let Hf' := fresh "Hf" in let Hn := fresh "Hn" in
      destruct (frames_alloc_labels h0 h s Hf) as [Hf' Hn];
      rewrite E in Hf', Hn; cbn [fst snd] in Hf', Hn; clear E
  | Hf : frames h0 ?h, E : alloc_graph ?h ?s = (?n, ?h') |- _ =>
      let Hf' := fresh "Hf" in let Hn := fresh "Hn" in
      destruct (frames_alloc_graph h0 h s Hf) as [Hf' Hn];
      rewrite E in Hf', Hn; cbn [fst snd] in Hf', Hn; clear E
  end.

Lemma frames_add_edge (h0 : Heap Event) (story_steps ends : nat)
    (edge : option nat * option nat) (h h' : Heap Event) (gen gen' : Gen) :
  frames h0 h → (length (step_lists h0) ≤ story_steps)%nat →
  (length (label_lists h0) ≤ ends)%nat →
  heap_add_edge generate_id new_id story_steps ends edge (h, gen)
  = Ok (h', gen') →
  frames h0 h'.
Proof.
  intros Hf Hs He Hrun. unfold heap_add_edge in Hrun.
  destruct edge as [s e].
  destruct (generate_id "CYCLE_" gen) as [cname gen1].
  repeat next_call Hrun. injection Hrun as <- <-.
  repeat frame_step h0. done.
Qed.

Lemma frames_add_changed (h0 : Heap Event) (story_steps ends : nat)
    (edges : list (option nat * option nat)) :
  (length (step_lists h0) ≤ story_steps)%nat →
  (length (label_lists h0) ≤ ends)%nat →
  ∀ h gen h' gen', frames h0 h →
    heap_add_changed generate_id new_id story_steps ends edges (h, gen)
    = Ok (h', gen') →
    frames h0 h'.
Proof.
  intros Hs He. induction edges as [| edge edges IH];
    intros h gen h' gen' Hf Hrun.
  - by injection Hrun as <- <-.
  - cbn [heap_add_changed] in Hrun. next_call Hrun. destruct a as [h1 gen1].
    eapply IH; [| exact Hrun]. by eapply frames_add_edge.
Qed.

Lemma frames_init (h0 h h' : Heap Event) (story_steps : nat)
    (ends : option nat) (g : nat) :
  frames h0 h → heap_init pick story_steps ends h = Ok (g, h') →
  frames h0 h' ∧ (length (graph_objects h0) ≤ g)%nat ∧
  is_Some (graph_objects h' !! g).
Proof.
  intros Hf Hrun. unfold heap_init in Hrun. repeat next_call Hrun.
  destruct (order_steps pick a0) as [[ord cyc] |]; [| done].
  next_call Hrun. destruct a1 as [r h1].
  assert (Hf1 : frames h0 h1).
  { destruct ends as [r0 |].
    - next_call E1. destruct a1; injection E1 as <- <-; [| done].
      by apply frames_alloc_labels.
    - injection E1 as <- <-. by apply frames_alloc_labels. }
  injection Hrun as <- <-.
  destruct (frames_alloc_graph h0 h1
              (mkGraphObject story_steps
                 (foldl (λ d p, <[id p.2 := p.1]> d) ∅ (zip a a0)) ord cyc r)
              Hf1) as [Hf2 Hn].
  split; [done |]. split; [done |]. simpl.
  rewrite lookup_app_r by done. rewrite Nat.sub_diag. by eexists.
Qed.

(** C9: [with_cycles_removed] leaves every object that existed before the
    call as it was: the receiver (with its ordered identities and its cyclic
    edges), its list of steps and every step, and its list of end
    checkpoints; the graph it returns is an object that did not exist
    before. *)
Theorem with_cycles_removed_frame (self : nat) (h h' : Heap Event)
    (gen gen' : Gen) (g' : nat) :
  heap_with_cycles_removed generate_id new_id pick pick_edge self h gen
  = Ok (g', h', gen') →
  (∀ r g, graph_objects h !! r = Some g → graph_objects h' !! r = Some g) ∧
  (∀ r l, step_lists h !! r = Some l → step_lists h' !! r = Some l) ∧
  (∀ r s, step_objects h !! r = Some s → step_objects h' !! r = Some s) ∧
  (∀ r l, label_lists h !! r = Some l → label_lists h' !! r = Some l) ∧
  graph_objects h !! g' = None ∧ is_Some (graph_objects h' !! g').
Proof.
  intros Hrun. unfold heap_with_cycles_removed in Hrun.
  pose proof (frames_refl h) as Hf.
  repeat next_call Hrun. injection Hrun as <- <- <-.
  repeat frame_step h.
  match goal with
  | Hf1 : frames h ?h1,
    Ea : heap_add_changed _ _ ?ss ?es _ (?h1, _) = Ok (?h2, _),
    Ei : heap_init _ ?ss _ ?h2 = Ok (?g, ?h3) |- _ =>
      assert (Hf2 : frames h h2)
        by (eapply (frames_add_changed h ss es); [lia | lia | exact Hf1 | exact Ea]);
      destruct (frames_init h h2 h3 ss _ g Hf2 Ei) as (Hf3 & Hnew & Hsome)
  end.
  destruct Hf3 as [H1 H2 H3 H4].
  split; [intros r x Hx; by eapply prefix_lookup_Some |].
  split; [intros r x Hx; by eapply prefix_lookup_Some |].
  split; [intros r x Hx; by eapply prefix_lookup_Some |].
  split; [intros r x Hx; by eapply prefix_lookup_Some |].
  split; [by apply lookup_ge_None_2 | done].
Qed.

End StoreProofs.

(** ** The store-level run against the value-level run *)

Section Refinement.

Variable Event : Type.
Variable Gen : Type.
Variable generate_id : string → Gen → string * Gen.
Variable new_id : Gen → string * Gen.
Variable pick : list string → nat.
Variable pick_edge : list (string * string) → nat.

(** The references [refs] lead to the steps [steps]. *)
Definition loads (h : Heap Event) (refs : list nat)
    (steps : list (StoryStep Event)) : Prop :=
  Forall2 (λ r s, step_objects h !! r = Some s) refs steps.

Definition looks_up (h : Heap Event) (o : option nat)
    (s : option (StoryStep Event)) : Prop :=
  match o, s with
  | Some r, Some s => step_objects h !! r = Some s
  | None, None => True
  | _, _ => False
  end.

(** The object [g] of the store [h] stands for the graph value [G]. *)
Definition represents (h : Heap Event) (g : nat) (G : StoryGraph Event)
  : Prop :=
  ∃ obj refs, graph_objects h !! g = Some obj ∧
    step_lists h !! obj_story_steps obj = Some refs ∧
    loads h refs (story_steps G) ∧
    (∀ i, looks_up h (obj_step_lookup obj !! i) (step_lookup G !! i)) ∧
    obj_ordered_ids obj = ordered_ids G ∧
    obj_cyclic_edge_ids obj = cyclic_edge_ids G ∧
    label_lists h !! obj_story_end_checkpoints obj
    = Some (story_end_checkpoints G).

Lemma load_Ok {A} (arena : list A) (r : nat) (a : A) :
  load arena r = Ok a ↔ arena !! r = Some a.
Proof.
  unfold load. destruct (arena !! r); split; intros H; congruence.
Qed.

Lemma loads_prefix (h h' : Heap Event) (refs : list nat)
    (steps : list (StoryStep Event)) :
  step_objects h `prefix_of` step_objects h' →
  loads h refs steps → loads h' refs steps.
Proof.
  intros Hp Hl. eapply Forall2_impl; [exact Hl |]. intros r s Hr.
  simpl in *. by eapply prefix_lookup_Some.
Qed.

Lemma looks_up_prefix (h h' : Heap Event) (o : option nat)
    (s : option (StoryStep Event)) :
  step_objects h `prefix_of` step_objects h' →
  looks_up h o s → looks_up h' o s.
Proof.
  intros Hp. destruct o, s; simpl; try done. intros Hr.
  by eapply prefix_lookup_Some.
Qed.

Lemma mapM_cons {A B} (f : A → result B) (x : A) (l : list A) :
  mapM f (x :: l) = (y ← f x; k ← mapM f l; Ok (y :: k)).
Proof. reflexivity. Qed.

Lemma mapM_loads (h : Heap Event) (refs : list nat)
    (steps : list (StoryStep Event)) :
  mapM (load (step_objects h)) refs = Ok steps ↔ loads h refs steps.
Proof.
  split.
  - revert steps. induction refs as [| r refs IH]; intros steps Hm.
    + injection Hm as <-. constructor.
    + rewrite mapM_cons in Hm.
      destruct (load (step_objects h) r) as [s |] eqn:Hr; [| done].
      cbn [mbind result_bind] in Hm.
      destruct (mapM (load (step_objects h)) refs) as [k |] eqn:Hk; [| done].
      injection Hm as <-. constructor; [by apply load_Ok | by apply IH].
  - induction 1 as [| r s refs steps Hr _ IH]; [done |].
    rewrite mapM_cons. apply load_Ok in Hr. rewrite Hr.
    cbn [mbind result_bind]. by rewrite IH.
Qed.

Definition edge_rel (h : Heap Event) (a : option nat * option nat)
    (b : option (StoryStep Event) * option (StoryStep Event)) : Prop :=
  looks_up h a.1 b.1 ∧ looks_up h a.2 b.2.

Lemma looks_up_deref (h : Heap Event) (o : option nat)
    (s : option (StoryStep Event)) (r : nat) :
  looks_up h o s → deref o = Ok r →
  ∃ v, s = Some v ∧ step_objects h !! r = Some v.
Proof.
  destruct o as [r' |], s as [v |]; simpl; try done.
  intros Hr [= <-]. by exists v.
Qed.

Lemma start_ids_sim (h : Heap Event) (eh : list (option nat * option nat))
    (ep : list (option (StoryStep Event) * option (StoryStep Event)))
    (X : gset string) :
  Forall2 (edge_rel h) eh ep →
  heap_start_ids h eh = Ok X → start_ids ep = Ok X.
Proof.
  intros Hrel. revert X.
  induction Hrel as [| [a1 a2] [b1 b2] eh ep [H1 H2] _ IH]; intros X Hrun.
  - done.
  - cbn [heap_start_ids] in Hrun. cbn [start_ids].
    destruct (deref a1) as [r |] eqn:Hd; [| done].
    cbn [mbind result_bind] in Hrun.
    destruct (looks_up_deref h a1 b1 r H1 Hd) as (v & -> & Hv).
    apply load_Ok in Hv. rewrite Hv in Hrun. cbn [mbind result_bind] in Hrun.
    destruct (heap_start_ids h eh) as [ids |]; [| done].
    cbn [mbind result_bind] in Hrun. injection Hrun as <-.
    cbn [deref mbind result_bind]. by rewrite (IH ids eq_refl).
Qed.

Lemma keep_sim (h : Heap Event) (X : gset string) (refs kept : list nat)
    (steps : list (StoryStep Event)) :
  loads h refs steps → heap_keep h X refs = Ok kept →
  loads h kept (filter (λ s, id s ∉ X) steps).
Proof.
  intros Hl. revert kept.
  induction Hl as [| r s refs steps Hr _ IH]; intros kept Hrun.
  - injection Hrun as <-. constructor.
  - cbn [heap_keep] in Hrun. apply load_Ok in Hr. rewrite Hr in Hrun.
    cbn [mbind result_bind] in Hrun.
    destruct (heap_keep h X refs) as [k |]; [| done].
    cbn [mbind result_bind] in Hrun. injection Hrun as <-.
    rewrite filter_cons. destruct (decide (id s ∉ X)).
    + constructor; [by apply load_Ok | by apply IH].
    + by apply IH.
Qed.

Lemma append_label_inv (h h' : Heap Event) (r : nat) (x : string) :
  append_label h r x = Ok h' →
  ∃ l, label_lists h !! r = Some l ∧
    h' = mkHeap (step_objects h) (step_lists h)
           (<[r := l ++ [x]]> (label_lists h)) (graph_objects h).
Proof.
  unfold append_label. intros H. next_call H. injection H as <-.
  apply load_Ok in E. by eexists.
Qed.

Lemma append_ref_inv (h h' : Heap Event) (r x : nat) :
  append_ref h r x = Ok h' →
  ∃ l, step_lists h !! r = Some l ∧
    h' = mkHeap (step_objects h) (<[r := l ++ [x]]> (step_lists h))
           (label_lists h) (graph_objects h).
Proof.
  unfold append_ref. intros H. next_call H. injection H as <-.
  apply load_Ok in E. by eexists.
Qed.

Lemma update_step_inv (h h' : Heap Event) (r : nat)
    (f : StoryStep Event → StoryStep Event) :
  update_step h r f = Ok h' →
  ∃ o, step_objects h !! r = Some o ∧
    h' = mkHeap (<[r := f o]> (step_objects h)) (step_lists h)
           (label_lists h) (graph_objects h).
Proof.
  unfold update_step. intros H. next_call H. injection H as <-.
  apply load_Ok in E. by eexists.
Qed.

Lemma insert_snoc {A} (l : list A) (x y : A) :
  <[length l := y]> (l ++ [x]) = l ++ [y].
Proof. rewrite insert_app_r_alt by done. by rewrite Nat.sub_diag. Qed.

Lemma loads_snoc (h : Heap Event) (refs : list nat)
    (steps : list (StoryStep Event)) (s : StoryStep Event) :
  loads h refs steps →
  loads (mkHeap (step_objects h ++ [s]) (step_lists h) (label_lists h)
           (graph_objects h))
    (refs ++ [length (step_objects h)]) (steps ++ [s]).
Proof.
  intros Hl. apply Forall2_app.
  - eapply loads_prefix; [| exact Hl]. simpl. by apply prefix_app_r.
  - constructor; [| constructor]. simpl. by rewrite list_lookup_middle.
Qed.

(** One round of the loop, on the store and on values. *)
Lemma add_edge_sim (h0 : Heap Event) (story_steps ends_ref : nat)
    (eh : option nat * option nat)
    (ep : option (StoryStep Event) * option (StoryStep Event))
    (h h' : Heap Event) (gen gen' : Gen) (refs : list nat)
    (steps : list (StoryStep Event)) (ends : list string) :
  edge_rel h0 eh ep →
  step_objects h0 `prefix_of` step_objects h →
  step_lists h !! story_steps = Some refs → loads h refs steps →
  label_lists h !! ends_ref = Some ends →
  heap_add_edge generate_id new_id story_steps ends_ref eh (h, gen)
  = Ok (h', gen') →
  ∃ refs' steps' ends',
    add_changed generate_id new_id [ep] steps ends gen
    = Ok (steps', ends', gen') ∧
    step_objects h0 `prefix_of` step_objects h' ∧
    step_lists h' !! story_steps = Some refs' ∧ loads h' refs' steps' ∧
    label_lists h' !! ends_ref = Some ends'.
Proof.
  intros [Hs He] Hp Hrefs Hl Hends Hrun. unfold heap_add_edge in Hrun.
  destruct eh as [s e], ep as [sv ev]. simpl in Hs, He.
  cbn [add_changed].
  destruct (generate_id "CYCLE_" gen) as [cname gen1].
  next_call Hrun. apply append_label_inv in E as (l & Hl0 & ->).
  rewrite Hends in Hl0. injection Hl0 as <-.
  next_call Hrun.
  destruct (looks_up_deref h0 s sv a Hs E) as (s_val & -> & Hsv).
  next_call Hrun. simpl in E0. apply load_Ok in E0.
  rewrite (prefix_lookup_Some _ _ _ _ Hsv Hp) in E0. injection E0 as <-.
  cbn [deref mbind result_bind].
  destruct (create_copy new_id s_val gen1) as [copy1 gen2].
  next_call Hrun. injection E0 as <- <-.
  next_call Hrun. apply update_step_inv in E0 as (o & Ho & ->).
  simpl in Ho. rewrite list_lookup_middle in Ho by done. injection Ho as <-.
  cbn [step_objects step_lists label_lists graph_objects] in Hrun.
  rewrite insert_snoc in Hrun.
  next_call Hrun. apply append_ref_inv in E0 as (l & Hl0 & ->).
  simpl in Hl0. rewrite Hrefs in Hl0. injection Hl0 as <-.
  next_call Hrun.
  destruct (looks_up_deref h0 e ev a0 He E0) as (e_val & -> & Hev).
  next_call Hrun. simpl in E1. apply load_Ok in E1.
  rewrite (prefix_lookup_Some _ _ _ _ Hev (prefix_app_r _ _ _ Hp)) in E1.
  injection E1 as <-. cbn [deref mbind result_bind].
  destruct (create_copy new_id e_val gen2) as [copy2 gen3].
  next_call Hrun. injection E1 as <- <-.
  next_call Hrun. apply update_step_inv in E1 as (o & Ho & ->).
  simpl in Ho. rewrite list_lookup_middle in Ho by done. injection Ho as <-.
  cbn [step_objects step_lists label_lists graph_objects] in Hrun.
  rewrite insert_snoc in Hrun.
  next_call Hrun. apply append_ref_inv in E1 as (l & Hl0 & ->).
  simpl in Hl0. assert (Hlt : story_steps < length (step_lists h))
    by by eapply lookup_lt_Some.
  rewrite list_lookup_insert_eq in Hl0 by done. injection Hl0 as <-.
  injection Hrun as <- <-.
  eexists _, _, _. split; [reflexivity |]. simpl.
  split; [by do 2 apply prefix_app_r |].
  split; [by rewrite list_lookup_insert_eq by by rewrite length_insert |].
  split.
  - set (ms := set_end_checkpoint copy1 {| name := cname |}).
    set (me := set_start_checkpoint copy2 {| name := cname |}).
    pose proof (loads_snoc h refs steps ms Hl) as H1.
    pose proof (loads_snoc _ _ _ me H1) as H2. simpl in H2.
    eapply loads_prefix; [| exact H2]. done.
  - apply list_lookup_insert_eq. by eapply lookup_lt_Some.
Qed.

Lemma add_changed_cons
    (ep : option (StoryStep Event) * option (StoryStep Event))
    (rest : list (option (StoryStep Event) * option (StoryStep Event)))
    (steps : list (StoryStep Event)) (ends : list string) (gen : Gen) :
  add_changed generate_id new_id (ep :: rest) steps ends gen
  = ('(steps', ends', gen') ← add_changed generate_id new_id [ep] steps ends
                                gen;
     add_changed generate_id new_id rest steps' ends' gen').
Proof.
  destruct ep as [s e]. cbn [add_changed].
  destruct (generate_id "CYCLE_" gen) as [cname gen1].
  destruct s as [s |]; [| done]. cbn [deref mbind result_bind].
  destruct (create_copy new_id s gen1) as [copy1 gen2].
  destruct e as [e |]; [| done]. cbn [deref mbind result_bind].
  by destruct (create_copy new_id e gen2) as [copy2 gen3].
Qed.

(** The whole loop, on the store and on values. *)
Lemma add_changed_sim (h0 : Heap Event) (story_steps ends_ref : nat)
    (eh : list (option nat * option nat))
    (ep : list (option (StoryStep Event) * option (StoryStep Event))) :
  Forall2 (edge_rel h0) eh ep →
  ∀ (h h' : Heap Event) (gen gen' : Gen) (refs : list nat)
    (steps : list (StoryStep Event)) (ends : list string),
    step_objects h0 `prefix_of` step_objects h →
    step_lists h !! story_steps = Some refs → loads h refs steps →
    label_lists h !! ends_ref = Some ends →
    heap_add_changed generate_id new_id story_steps ends_ref eh (h, gen)
    = Ok (h', gen') →
    ∃ refs' steps' ends',
      add_changed generate_id new_id ep steps ends gen
      = Ok (steps', ends', gen') ∧
      step_lists h' !! story_steps = Some refs' ∧ loads h' refs' steps' ∧
      label_lists h' !! ends_ref = Some ends'.
Proof.
  induction 1 as [| a b eh ep Hab _ IH];
    intros h h' gen gen' refs steps ends Hp Hrefs Hl Hends Hrun.
  - injection Hrun as <- <-. by exists refs, steps, ends.
  - cbn [heap_add_changed] in Hrun. next_call Hrun.
    destruct a0 as [h1 gen1].
    destruct (add_edge_sim _ _ _ _ _ _ _ _ _ _ _ _ Hab Hp Hrefs Hl Hends E)
      as (refs1 & steps1 & ends1 & Hpure & Hp1 & Hrefs1 & Hl1 & Hends1).
    destruct (IH _ _ _ _ _ _ _ Hp1 Hrefs1 Hl1 Hends1 Hrun)
      as (refs' & steps' & ends' & Hpure' & Hrest).
    exists refs', steps', ends'. split; [| done].
    rewrite add_changed_cons, Hpure. by cbn [mbind result_bind].
Qed.

Lemma lookup_fold_sim (h : Heap Event) (refs : list nat)
    (steps : list (StoryStep Event)) :
  loads h refs steps →
  ∀ (d1 : gmap string nat) (d2 : gmap string (StoryStep Event)),
    (∀ i, looks_up h (d1 !! i) (d2 !! i)) →
    ∀ i, looks_up h
           (foldl (λ d p, <[id p.2 := p.1]> d) d1 (zip refs steps) !! i)
           (foldl (λ d s, <[id s := s]> d) d2 steps !! i).
Proof.
  induction 1 as [| r s refs steps Hr _ IH]; intros d1 d2 Hd; [done |].
  cbn [zip zip_with foldl]. apply IH. intros i. cbn [fst snd].
  destruct (decide (id s = i)) as [<- | Hne].
  - by rewrite !lookup_insert_eq.
  - by rewrite !lookup_insert_ne.
Qed.

(** [__init__] on the store and on values. *)
Lemma init_sim (h h' : Heap Event) (story_steps ends_ref g : nat)
    (refs : list nat) (steps : list (StoryStep Event)) (ends : list string) :
  step_lists h !! story_steps = Some refs → loads h refs steps →
  label_lists h !! ends_ref = Some ends →
  heap_init pick story_steps (Some ends_ref) h = Ok (g, h') →
  ∃ G', StoryGraph_init pick steps (Some ends) = Ok G' ∧ represents h' g G'.
Proof.
  intros Hrefs Hl Hends Hrun. unfold heap_init in Hrun.
  apply load_Ok in Hrefs. rewrite Hrefs in Hrun.
  cbn [mbind result_bind] in Hrun. apply load_Ok in Hrefs.
  rewrite (proj2 (mapM_loads h refs steps) Hl) in Hrun.
  cbn [mbind result_bind] in Hrun. unfold StoryGraph_init.
  destruct (order_steps pick steps) as [[ord cyc] |]; [| done].
  apply load_Ok in Hends. rewrite Hends in Hrun.
  cbn [mbind result_bind] in Hrun. apply load_Ok in Hends.
  eexists. split; [reflexivity |].
  destruct ends as [| c cs]; cbn [mbind result_bind alloc_labels] in Hrun;
    injection Hrun as <- <-.
  - eexists _, refs. simpl. rewrite list_lookup_middle by done.
    split; [reflexivity |]. simpl.
    split; [done |]. split; [done |].
    split; [by apply lookup_fold_sim |].
    split; [done |]. split; [done |]. by rewrite list_lookup_middle.
  - eexists _, refs. simpl. rewrite list_lookup_middle by done.
    split; [reflexivity |]. simpl.
    split; [done |]. split; [done |].
    split; [by apply lookup_fold_sim |]. done.
Qed.

(** The store-level [with_cycles_removed] computes what the value-level one
    computes: run on an object that stands for a graph value, it returns an
    object that stands for the value the other returns, with the same state
    of the source of fresh names. *)
Lemma heap_with_cycles_removed_refines (self : nat) (h h' : Heap Event)
    (G : StoryGraph Event) (gen gen' : Gen) (g' : nat) :
  represents h self G →
  heap_with_cycles_removed generate_id new_id pick pick_edge self h gen
  = Ok (g', h', gen') →
  ∃ G', with_cycles_removed generate_id new_id pick pick_edge G gen
        = Ok (G', gen') ∧
    represents h' g' G'.
Proof.
  intros (obj & refs & Hobj & Hrefs & Hl & Hlook & Hord & Hcyc & Hends) Hrun.
  unfold heap_with_cycles_removed in Hrun.
  apply load_Ok in Hobj. rewrite Hobj in Hrun. cbn [mbind result_bind] in Hrun.
  apply load_Ok in Hends. rewrite Hends in Hrun.
  cbn [mbind result_bind alloc_labels] in Hrun. apply load_Ok in Hends.
  set (h1 := mkHeap (step_objects h) (step_lists h)
               (label_lists h ++ [story_end_checkpoints G])
               (graph_objects h)) in Hrun.
  set (eh := (λ e : string * string,
                (obj_step_lookup obj !! e.1, obj_step_lookup obj !! e.2))
               <$> set_iter pick_edge (obj_cyclic_edge_ids obj)) in Hrun.
  assert (Hedges : Forall2 (edge_rel h1) eh (cyclic_edges pick_edge G)).
  { unfold eh, cyclic_edges, get. rewrite Hcyc.
    apply Forall2_fmap, Forall_Forall2_diag, Forall_forall.
    intros e _. split; apply Hlook. }
  next_call Hrun. pose proof (start_ids_sim h1 _ _ _ Hedges E) as Hstart.
  apply load_Ok in Hrefs. change (step_lists h1) with (step_lists h) in Hrun.
  rewrite Hrefs in Hrun. cbn [mbind result_bind] in Hrun.
  next_call Hrun. pose proof (keep_sim h1 _ _ _ _ Hl E0) as Hkept.
  cbn [alloc_list] in Hrun.
  set (h2 := mkHeap (step_objects h1) (step_lists h1 ++ [a0])
               (label_lists h1) (graph_objects h1)) in Hrun.
  next_call Hrun. destruct a1 as [h3 gen3].
  destruct (add_changed_sim h1 (length (step_lists h1))
              (length (label_lists h)) eh _ Hedges h2 h3 gen gen3 a0
              (filter (λ s, id s ∉ a) (story_steps G))
              (story_end_checkpoints G)) as
    (refs' & steps' & ends' & Hpure & Hrefs' & Hl' & Hends').
  { done. }
  { simpl. by rewrite list_lookup_middle. }
  { exact Hkept. }
  { simpl. by rewrite list_lookup_middle. }
  { exact E1. }
  next_call Hrun. destruct a1 as [g h4]. injection Hrun as <- <- <-.
  destruct (init_sim _ _ _ _ _ _ _ _ Hrefs' Hl' Hends' E2) as (G' & HG' & Hrep).
  exists G'. split; [| done].
  unfold with_cycles_removed, changed_steps. rewrite Hstart.
  cbn [mbind result_bind]. rewrite Hpure. cbn [mbind result_bind].
  rewrite HG'. done.
Qed.

End Refinement.

(** ** The story enumerator *)

Section EnumeratorProofs.

Variable Event : Type.
Abbreviation Step := (StoryStep Event).
Variable STORY_START : string.
Variable Domain : Type.
Variable explicit_events : Step → Domain → list Event.
Variable Rand : Type.
Variable Random : Z → Rand.
Variable subsample_array : list (Story Event) → nat → Rand → list (Story Event) * Rand.

Abbreviation Trackers := (gmap (option string) (list (Story Event))).
Abbreviation process_step' := (process_step explicit_events subsample_array).
Abbreviation process_steps' :=
  (process_steps explicit_events subsample_array).
Abbreviation run_steps' := (run_steps explicit_events subsample_array).
Abbreviation propagated' := (propagated subsample_array).
Abbreviation initial' := (initial STORY_START Random).
Abbreviation build_stories' :=
  (build_stories STORY_START explicit_events Random subsample_array).

Lemma process_steps_some (domain : Domain) (max : option nat)
    (steps : list Step) (st : Trackers * Rand) :
  process_steps' domain max (Some <$> steps) st
  = Ok (run_steps' domain max steps st).
Proof.
  revert st. induction steps as [| s steps IH]; intros st; [done |].
  simpl. by rewrite IH.
Qed.

Lemma run_steps_app (domain : Domain) (max : option nat)
    (l1 l2 : list Step) (st : Trackers * Rand) :
  run_steps' domain max (l1 ++ l2) st
  = run_steps' domain max l2 (run_steps' domain max l1 st).
Proof. unfold run_steps'. by rewrite foldl_app. Qed.

(** A step whose start checkpoint has no entry is skipped. *)
Lemma process_step_skipped (domain : Domain) (max : option nat) (step : Step)
    (active : Trackers) (rand : Rand) :
  active !! start_checkpoint_name step = None →
  process_step' domain max step (active, rand) = (active, rand).
Proof. intros H. unfold process_step. by rewrite H. Qed.

(** A step whose start checkpoint has an entry appends the stories it hands
    on to the entry of its end checkpoint, creating that entry if needed. *)
Lemma process_step_reached (domain : Domain) (max : option nat) (step : Step)
    (active : Trackers) (rand : Rand) (incoming : list (Story Event)) :
  active !! start_checkpoint_name step = Some incoming →
  (process_step' domain max step (active, rand)).1
  = <[end_checkpoint_name step :=
        frontier active (end_checkpoint_name step)
          ++ extend_trackers explicit_events step domain
               (propagated' max incoming rand)]> active.
Proof.
  intros H. unfold process_step, propagated', frontier. rewrite H.
  destruct max as [m |].
  - destruct (subsample_array incoming m rand) as [picked rand'] eqn:Hs.
    simpl. destruct (active !! end_checkpoint_name step) as [old |] eqn:He.
    + by rewrite He.
    + rewrite lookup_insert_eq. simpl. by rewrite insert_insert_eq.
  - simpl. destruct (active !! end_checkpoint_name step) as [old |] eqn:He.
    + by rewrite He.
    + rewrite lookup_insert_eq. simpl. by rewrite insert_insert_eq.
Qed.

(** Entries are never deleted. *)
Lemma process_step_keeps (domain : Domain) (max : option nat) (step : Step)
    (st : Trackers * Rand) (key : option string) :
  is_Some (st.1 !! key) →
  is_Some ((process_step' domain max step st).1 !! key).
Proof.
  destruct st as [active rand]. intros Hk.
  change (is_Some (active !! key)) in Hk.
  destruct (active !! start_checkpoint_name step) as [incoming |] eqn:Hs.
  - rewrite (process_step_reached _ _ _ _ _ _ Hs).
    destruct (decide (end_checkpoint_name step = key)) as [-> | Hne].
    + rewrite lookup_insert_eq. by eexists.
    + by rewrite lookup_insert_ne.
  - by rewrite (process_step_skipped _ _ _ _ _ Hs).
Qed.

Lemma run_steps_keeps (domain : Domain) (max : option nat) (steps : list Step)
    (st : Trackers * Rand) (key : option string) :
  is_Some (st.1 !! key) →
  is_Some ((run_steps' domain max steps st).1 !! key).
Proof.
  revert st. induction steps as [| s steps IH]; intros st Hk; [done |].
  cbn [run_steps' foldl]. apply IH. by apply process_step_keeps.
Qed.

Lemma extend_trackers_no_events (domain : Domain) (step : Step)
    (incoming : list (Story Event)) :
  explicit_events step domain = [] →
  extend_trackers explicit_events step domain incoming = [].
Proof. intros H. unfold extend_trackers. by rewrite H. Qed.

Lemma extend_trackers_length (domain : Domain) (step : Step)
    (incoming : list (Story Event)) :
  explicit_events step domain ≠ [] →
  length (extend_trackers explicit_events step domain incoming)
  = length incoming.
Proof.
  intros H. unfold extend_trackers.
  destruct (explicit_events step domain); [done |]. by rewrite length_fmap.
Qed.

(** A step changes the waiting stories only at its end checkpoint, and
    there only when it contributes events. *)
Lemma process_step_frontier (domain : Domain) (max : option nat) (step : Step)
    (st : Trackers * Rand) (key : option string) :
  end_checkpoint_name step ≠ key ∨ explicit_events step domain = [] →
  frontier (process_step' domain max step st).1 key = frontier st.1 key.
Proof.
  destruct st as [active rand]. intros Hcase.
  change (frontier (active, rand).1 key) with (frontier active key).
  destruct (active !! start_checkpoint_name step) as [incoming |] eqn:Hs.
  - rewrite (process_step_reached _ _ _ _ _ _ Hs). unfold frontier at 1.
    destruct (decide (end_checkpoint_name step = key)) as [Heq | Hne].
    + destruct Hcase as [Hne | Hnil]; [done |]. subst key.
      rewrite lookup_insert_eq. simpl.
      by rewrite extend_trackers_no_events, app_nil_r.
    + by rewrite lookup_insert_ne.
  - by rewrite (process_step_skipped _ _ _ _ _ Hs).
Qed.

Lemma run_steps_frontier (domain : Domain) (max : option nat)
    (steps : list Step) (st : Trackers * Rand) (key : option string) :
  (∀ s, s ∈ steps → end_checkpoint_name s = key →
     explicit_events s domain = []) →
  frontier (run_steps' domain max steps st).1 key = frontier st.1 key.
Proof.
  revert st. induction steps as [| s steps IH]; intros st Hall; [done |].
  cbn [run_steps' foldl]. unfold run_steps' in IH. rewrite IH.
  - apply process_step_frontier.
    destruct (decide (end_checkpoint_name s = key)) as [Heq | Hne];
      [right | by left].
    apply Hall; [by left | done].
  - intros s' Hs'. apply Hall. by right.
Qed.

Lemma process_step_ext (domain1 domain2 : Domain) (max : option nat)
    (s : Step) (st : Trackers * Rand) :
  explicit_events s domain1 = explicit_events s domain2 →
  process_step' domain1 max s st = process_step' domain2 max s st.
Proof. intros H. unfold process_step, extend_trackers. by rewrite H. Qed.

(** The run depends on the domain only through the events of the steps. *)
Lemma run_steps_ext (domain1 domain2 : Domain) (max : option nat)
    (steps : list Step) (st : Trackers * Rand) :
  (∀ s, s ∈ steps → explicit_events s domain1 = explicit_events s domain2) →
  run_steps' domain1 max steps st = run_steps' domain2 max steps st.
Proof.
  revert st. induction steps as [| s steps IH]; intros st Hall; [done |].
  cbn [run_steps' foldl]. unfold run_steps' in IH.
  rewrite (process_step_ext domain1 domain2) by (apply Hall; by left).
  apply IH. intros s' Hs'. apply Hall. by right.
Qed.

Lemma build_stories_run (self : StoryGraph Event) (domain : Domain)
    (max : option nat) (steps : list Step) :
  ordered_steps self = Some <$> steps →
  build_stories' self domain max
  = match (run_steps' domain max steps initial').1 !! None with
    | Some stories => Ok stories
    | None => Raise KeyError
    end.
Proof.
  intros Hord. unfold build_stories. rewrite Hord, process_steps_some.
  cbn [mbind result_bind]. unfold initial.
  by destruct (run_steps' domain max steps _).
Qed.

(** C8: a step whose event list is empty creates no stories, whatever
    reaches it, and leaves the stories waiting at every checkpoint, its end
    checkpoint included, as they were. *)
Theorem zero_event_step_adds_nothing (domain : Domain) (max : option nat)
    (step : Step) (active : Trackers) (rand : Rand) :
  explicit_events step domain = [] →
  (∀ incoming,
     extend_trackers explicit_events step domain incoming = []) ∧
  (∀ key, frontier (process_step' domain max step (active, rand)).1 key
          = frontier active key).
Proof.
  intros Hnil. split.
  - intros incoming. by apply extend_trackers_no_events.
  - intros key. apply (process_step_frontier domain max step (active, rand)).
    by right.
Qed.


(** C10: a step reached by the run leaves an entry for its end checkpoint,
    an empty one when the entry is new and the step has no events; a later
    step that starts there finds the entry and is processed, so that its own
    end checkpoint has an entry too; and when the end checkpoint is the end
    of the story, the final lookup succeeds, with the empty list when no step
    that ends there has events. *)
Theorem zero_event_step_still_creates_entry (self : StoryGraph Event)
    (domain : Domain) (max : option nat) (pre post : list Step) (step : Step) :
  ordered_steps self = Some <$> (pre ++ step :: post) →
  let before := run_steps' domain max pre initial' in
  let after := process_step' domain max step before in
  is_Some (before.1 !! start_checkpoint_name step) →
  is_Some (after.1 !! end_checkpoint_name step) ∧
  (before.1 !! end_checkpoint_name step = None →
   explicit_events step domain = [] →
   after.1 !! end_checkpoint_name step = Some []) ∧
  (∀ mid later rest, post = mid ++ later :: rest →
     start_checkpoint_name later = end_checkpoint_name step →
     let st := run_steps' domain max mid after in
     is_Some (st.1 !! start_checkpoint_name later) ∧
     is_Some ((process_step' domain max later st).1
                !! end_checkpoint_name later)) ∧
  (end_checkpoint_name step = None →
     ∃ stories, build_stories' self domain max = Ok stories ∧
       ((∀ s, s ∈ pre ++ step :: post → end_checkpoint_name s = None →
           explicit_events s domain = []) → stories = [])).
Proof.
  intros Hord before after [incoming Hin].
  assert (Hafter : after.1 = <[end_checkpoint_name step :=
            frontier before.1 (end_checkpoint_name step)
              ++ extend_trackers explicit_events step domain
                   (propagated' max incoming before.2)]> before.1).
  { unfold after. destruct before as [active rand].
    by apply process_step_reached. }
  assert (Hentry : is_Some (after.1 !! end_checkpoint_name step)).
  { rewrite Hafter, lookup_insert_eq. by eexists. }
  split; [done |]. split; [| split].
  - intros Hnone Hnil. rewrite Hafter, lookup_insert_eq.
    unfold frontier. rewrite Hnone. simpl.
    by rewrite extend_trackers_no_events.
  - intros mid later rest -> Hstart st.
    assert (Hst : is_Some (st.1 !! start_checkpoint_name later)).
    { rewrite Hstart. by apply run_steps_keeps. }
    split; [done |]. destruct Hst as [inc Hinc]. destruct st as [active rand].
    rewrite (process_step_reached _ _ _ _ _ _ Hinc), lookup_insert_eq.
    by eexists.
  - intros Hend. rewrite (build_stories_run _ _ _ _ Hord).
    rewrite run_steps_app. cbn [run_steps' foldl].
    fold (run_steps' domain max pre initial'). fold before. fold after.
    fold (run_steps' domain max post after).
    destruct (run_steps_keeps domain max post after None) as [stories Hst].
    { by rewrite <- Hend. }
    rewrite Hst. exists stories. split; [done |]. intros Hall.
    assert (Hfr : frontier (run_steps' domain max (pre ++ step :: post)
                              initial').1 None = frontier initial'.1 None).
    { by apply run_steps_frontier. }
    rewrite run_steps_app in Hfr. cbn [run_steps' foldl] in Hfr.
    fold (run_steps' domain max pre initial') in Hfr. fold before after in Hfr.
    fold (run_steps' domain max post after) in Hfr.
    unfold frontier in Hfr. rewrite Hst in Hfr. simpl in Hfr.
    by rewrite lookup_singleton_ne in Hfr.
Qed.

(** C2, evaluated: a graph built from zero steps has an empty ordering and
    no cyclic edge, and [build_stories] on it does not return: the lookup of
    the end of the story in its last line finds no entry and raises
    [KeyError]. *)
Theorem build_stories_no_steps (pick : list string → nat)
    (ends : option (list string)) (domain : Domain) (max : option nat) :
  ∃ g, StoryGraph_init pick ([] : list Step) ends = Ok g ∧
    ordered_ids g = [] ∧ cyclic_edge_ids g = ∅ ∧
    build_stories' g domain max = Raise KeyError.
Proof.
  unfold StoryGraph_init, order_steps, topological_sort, steps_graph.
  cbn [foldl]. rewrite dom_empty_L, size_empty. cbn [sort_loop unprocessed].
  rewrite decide_True by done. cbn [ordered removed_edges].
  eexists. split; [reflexivity |]. split; [done |]. split; [done |].
  rewrite (build_stories_run _ domain max []) by done.
  cbn [run_steps' foldl]. unfold initial'. cbn [fst].
  by rewrite lookup_singleton_ne.
Qed.

End EnumeratorProofs.

(** ** Runs in different surroundings *)

Section RunProofs.

Variable Event : Type.
Variable STORY_START : string.
Variable Domain : Type.
Variable World : Type.
Variable explicit_events : StoryStep Event → Domain → World → list Event * World.
Variable Rand : Type.
Variable Random : Z → World → Rand * World.
Variable subsample_array :
  list (Story Event) → nat → Rand → World → list (Story Event) * Rand * World.

Abbreviation process_step_in' := (process_step_in explicit_events subsample_array).
Abbreviation process_steps_in' := (process_steps_in explicit_events subsample_array).
Abbreviation build_stories_in' :=
  (build_stories_in STORY_START explicit_events Random subsample_array).

Hypothesis Hseed : seeded Random.
Hypothesis Hdraw : draws_from_generator subsample_array.
Hypothesis Hevents : events_of_domain explicit_events.

(** One round started with the same stories and the same generator state in
    two worlds ends with the same stories and the same generator state. *)
Lemma process_step_in_worlds (domain : Domain) (max : option nat)
    (step : StoryStep Event)
    (active : gmap (option string) (list (Story Event))) (rand : Rand)
    (world1 world2 : World) :
  (process_step_in' domain max step (active, rand, world1)).1
  = (process_step_in' domain max step (active, rand, world2)).1.
Proof.
  unfold process_step_in.
  destruct (active !! start_checkpoint_name step) as [incoming |]; [| done].
  assert (Hsub : ∃ inc rand' w1 w2,
    match max with
    | Some m => subsample_array incoming m rand world1
    | None => (incoming, rand, world1)
    end = (inc, rand', w1) ∧
    match max with
    | Some m => subsample_array incoming m rand world2
    | None => (incoming, rand, world2)
    end = (inc, rand', w2)).
  { destruct max as [m |]; [| by eexists _, _, _, _].
    pose proof (Hdraw incoming m rand world1 world2) as Heq.
    destruct (subsample_array incoming m rand world1) as [[i1 r1] w1].
    destruct (subsample_array incoming m rand world2) as [[i2 r2] w2].
    simpl in Heq. injection Heq as <- <-. by eexists _, _, _, _. }
  destruct Hsub as (inc & rand' & w1 & w2 & -> & ->).
  pose proof (Hevents step domain w1 w2) as Heq.
  destruct (explicit_events step domain w1) as [ev1 w1'].
  destruct (explicit_events step domain w2) as [ev2 w2'].
  simpl in Heq. by subst ev2.
Qed.

Lemma process_steps_in_worlds (domain : Domain) (max : option nat)
    (steps : list (option (StoryStep Event))) :
  ∀ active rand world1 world2,
    match process_steps_in' domain max steps (active, rand, world1),
          process_steps_in' domain max steps (active, rand, world2) with
    | Ok st1, Ok st2 => st1.1 = st2.1
    | Raise e1, Raise e2 => e1 = e2
    | _, _ => False
    end.
Proof.
  induction steps as [| [step |] steps IH]; intros active rand world1 world2.
  - done.
  - cbn [process_steps_in deref mbind result_bind].
    pose proof (process_step_in_worlds domain max step active rand
                  world1 world2) as Heq.
    destruct (process_step_in' domain max step (active, rand, world1))
      as [[a1 r1] w1].
    destruct (process_step_in' domain max step (active, rand, world2))
      as [[a2 r2] w2].
    simpl in Heq. injection Heq as <- <-. apply IH.
  - done.
Qed.


End RunProofs.

(** With collaborators that leave the surroundings alone a run returns what
    the enumerator on values returns. *)
Lemma process_steps_in_pure {Event Domain World Rand : Type}
    (explicit_events : StoryStep Event → Domain → list Event)
    (subsample_array : list (Story Event) → nat → Rand
                       → list (Story Event) * Rand)
    (domain : Domain) (max : option nat)
    (steps : list (option (StoryStep Event))) :
  ∀ active rand (world : World),
    match process_steps_in (λ s d w, (explicit_events s d, w))
            (λ l m r w, (subsample_array l m r, w)) domain max steps
            (active, rand, world),
          process_steps explicit_events subsample_array domain max steps
            (active, rand) with
    | Ok st1, Ok st2 => st1.1 = st2
    | Raise e1, Raise e2 => e1 = e2
    | _, _ => False
    end.
Proof.
  induction steps as [| [step |] steps IH]; intros active rand world.
  - done.
  - cbn [process_steps_in process_steps deref mbind result_bind].
    assert (Hstep : process_step_in (λ s d w, (explicit_events s d, w))
                      (λ l m r w, (subsample_array l m r, w)) domain max step
                      (active, rand, world)
                    = (process_step explicit_events subsample_array domain max
                         step (active, rand), world)).
    { unfold process_step_in, process_step, extend_trackers.
      destruct (active !! start_checkpoint_name step) as [incoming |];
        [| done].
      destruct max as [m |]; [| done].
      by destruct (subsample_array incoming m rand). }
    rewrite Hstep.
    destruct (process_step explicit_events subsample_array domain max step
                (active, rand)) as [a r].
    apply IH.
  - done.
Qed.

Lemma build_stories_in_pure {Event Domain World Rand : Type}
    (STORY_START : string)
    (explicit_events : StoryStep Event → Domain → list Event)
    (Random : Z → Rand)
    (subsample_array : list (Story Event) → nat → Rand
                       → list (Story Event) * Rand)
    (self : StoryGraph Event) (domain : Domain) (max : option nat)
    (world : World) :
  returned (build_stories_in STORY_START (λ s d w, (explicit_events s d, w))
              (λ z w, (Random z, w)) (λ l m r w, (subsample_array l m r, w))
              self domain max world)
  = build_stories STORY_START explicit_events Random subsample_array self
      domain max.
Proof.
  unfold build_stories_in, build_stories.
  pose proof (process_steps_in_pure explicit_events subsample_array domain max
                (ordered_steps self) {[ Some STORY_START := [mkStory []] ]}
                (Random 42%Z) world) as Hrun.
  destruct (process_steps_in _ _ domain max (ordered_steps self) _)
    as [[[a1 r1] w1] | e1];
    destruct (process_steps explicit_events subsample_array domain max
                (ordered_steps self) _) as [[a2 r2] | e2]; try done.
  - simpl in Hrun. injection Hrun as <- <-. cbn [mbind result_bind].
    by destruct (a1 !! None).
  - simpl. by subst.
Qed.

(** ** The statements at concrete inputs *)

(** The run of the docstring of [topological_sort]: started at [b], the
    sorter returns the order printed there and removes no edge. *)
Lemma docstring_example :
  topological_sort (λ _, 4) example_graph
  = Some (["e"; "f"; "a"; "c"; "d"; "b"], ∅).
Proof. vm_compute. reflexivity. Qed.

(** Two steps that meet at a checkpoint and a step from there to the end
    give two stories. *)
Lemma merge_example :
  build_stories "STORY_START" demo_events Z.to_nat demo_subsample merge_graph
    true None
  = Ok [mkStory [step_S2; step_S3]; mkStory [step_S1; step_S3]].
Proof. vm_compute. reflexivity. Qed.

Lemma demo_subsample_subsamples : subsamples demo_subsample.
Proof.
  intros l m r. split; simpl.
  - apply sublist_submseteq, sublist_take.
  - apply length_take.
Qed.

Lemma clocked_seeded : seeded clocked_Random.
Proof. by intros seed w1 w2. Qed.

Lemma clocked_draws : draws_from_generator clocked_subsample.
Proof. by intros l m r w1 w2. Qed.

Lemma clocked_events_of_domain : events_of_domain clocked_events.
Proof. by intros s d w1 w2. Qed.


(** The run on the merging steps above, started in world 0: the generator
    state picks the story through [s2], and the world has counted every call
    to the outside. *)
Lemma clocked_run :
  build_stories_in "STORY_START" clocked_events clocked_Random
    clocked_subsample merge_graph true (Some 1) 0
  = Ok ([mkStory [step_S2; step_S3]], 7).
Proof. vm_compute. reflexivity. Qed.

(** Without the contract of [subsample_array] the result depends on the
    surroundings: a subsampling that draws from the world returns different
    stories in different worlds. *)
Lemma ambient_subsample_not_reproducible :
  returned (build_stories_in "STORY_START" clocked_events clocked_Random
              ambient_subsample merge_graph true (Some 1) 0)
  ≠ returned (build_stories_in "STORY_START" clocked_events clocked_Random
                ambient_subsample merge_graph true (Some 1) 1).
Proof. vm_compute. discriminate. Qed.


Lemma zero_event_step_adds_nothing_witness :
  (∀ incoming, extend_trackers demo_events step_Z true incoming = []) ∧
  (∀ key,
     frontier (process_step demo_events demo_subsample true None step_Z
                 (initial "STORY_START" Z.to_nat)).1 key
     = frontier (initial "STORY_START" Z.to_nat).1 key).
Proof.
  apply (zero_event_step_adds_nothing nat bool demo_events nat demo_subsample
           true None step_Z {[Some "STORY_START" := [mkStory []]]}
           (Z.to_nat 42)).
  reflexivity.
Defined.

Lemma with_cycles_removed_frame_witness :
  match heap_with_cycles_removed demo_generate_id demo_new_id (λ _, 1)
          (λ _, 0) 0 cycle3_heap 0 with
  | Ok (g', h', _) =>
      graph_objects h' !! 0 = graph_objects cycle3_heap !! 0 ∧
      step_lists h' !! 0 = Some [0; 1; 2] ∧
      step_objects h' !! 2 = Some step_C ∧
      graph_objects cycle3_heap !! g' = None
  | Raise _ => False
  end.
Proof.
  destruct (heap_with_cycles_removed demo_generate_id demo_new_id (λ _, 1)
              (λ _, 0) 0 cycle3_heap 0) as [[[g' h'] gen'] | e] eqn:Hrun.
  - destruct (with_cycles_removed_frame nat nat demo_generate_id demo_new_id
                (λ _, 1) (λ _, 0) 0 cycle3_heap h' 0 gen' g' Hrun)
      as (Hg & Hl & Hs & _ & Hnew & _).
    split; [| split; [| split]].
    + destruct (graph_objects cycle3_heap !! 0) as [g |] eqn:Hg0.
      * by apply Hg.
      * vm_compute in Hg0. discriminate Hg0.
    + apply Hl. vm_compute. reflexivity.
    + apply Hs. vm_compute. reflexivity.
    + exact Hnew.
  - vm_compute in Hrun. discriminate Hrun.
Defined.

Lemma zero_event_step_still_creates_entry_witness :
  build_stories "STORY_START" demo_events Z.to_nat demo_subsample zero_graph
    true None = Ok [].
Proof.
  destruct (zero_event_step_still_creates_entry nat "STORY_START" bool
              demo_events nat Z.to_nat demo_subsample zero_graph true None
              [] [] step_Z) as (_ & _ & _ & Hend).
  - vm_compute. reflexivity.
  - vm_compute. by eexists.
  - destruct (Hend eq_refl) as (stories & Hrun & Hnil).
    rewrite Hrun. f_equal. apply Hnil.
    intros s Hs _. apply list_elem_of_singleton in Hs as ->. reflexivity.
Defined.

(** On the cycle of three steps the store-level run and the value-level run
    of [with_cycles_removed] give the same graph. *)
Lemma heap_run_agrees_on_cycle3 :
  ('(g', h', _) ← heap_with_cycles_removed demo_generate_id demo_new_id
                    (λ _, 1) (λ _, 0) 0 cycle3_heap 0;
   graph_of h' g')
  = (g ← graph_of cycle3_heap 0;
     '(g', _) ← with_cycles_removed demo_generate_id demo_new_id (λ _, 1)
                  (λ _, 0) g 0;
     Ok g').
Proof. vm_compute. reflexivity. Qed.

(** * Further properties *)

(** ** What the sorter removes *)

(** [v] is listed among the successors of [u]. *)
Definition edge (graph : gmap string (list string)) (u v : string) : Prop :=
  v ∈ successors graph u.

(** An edge the sorter kept. *)
Definition retained (graph : gmap string (list string))
    (rem : gset (string * string)) (u v : string) : Prop :=
  edge graph u v ∧ (u, v) ∉ rem.

Section SortCycles.

Variable pick : list string → nat.
Variable graph : gmap string (list string).

(** What a stretch of the traversal does to the nodes in progress and to the
    removed edges: no node is newly left in progress, coloured nodes stay
    coloured, and each edge removed in the stretch closes a cycle. *)
Record gray_post (st st' : SortState) : Prop := {
  gp_gray : ∀ g, visited_nodes st' !! g = Some GRAY →
      visited_nodes st !! g = Some GRAY;
  gp_visited : ∀ g, is_Some (visited_nodes st !! g) →
      is_Some (visited_nodes st' !! g);
  gp_removed : ∀ x k, (x, k) ∈ removed_edges st' →
      (x, k) ∈ removed_edges st ∨
      (edge graph x k ∧ rtc (edge graph) k x ∧
       is_Some (visited_nodes st' !! k))
}.

Lemma gray_post_refl (st : SortState) : gray_post st st.
Proof. split; auto. Qed.

Lemma gray_post_trans (a b c : SortState) :
  gray_post a b → gray_post b c → gray_post a c.
Proof.
  intros H1 H2. split.
  - intros g Hg. by apply (gp_gray _ _ H1), (gp_gray _ _ H2).
  - intros g Hg. by apply (gp_visited _ _ H2), (gp_visited _ _ H1).
  - intros x k Hx. destruct (gp_removed _ _ H2 x k Hx) as [Hb | Hnew];
      [| by right].
    destruct (gp_removed _ _ H1 x k Hb) as [Ha | (He & Hr & Hv)]; [by left |].
    right. split; [done |]. split; [done |]. by apply (gp_visited _ _ H2).
Qed.

Lemma visit_all_gray (rec : string → SortState → option SortState)
    (node : string) :
  (∀ k st st', rec k st = Some st' →
     (∀ g, visited_nodes st !! g = Some GRAY → rtc (edge graph) g k) →
     gray_post st st') →
  ∀ ks st st', (∀ k, k ∈ ks → edge graph node k) →
    visit_all rec node ks st = Some st' →
    (∀ g, visited_nodes st !! g = Some GRAY → rtc (edge graph) g node) →
    gray_post st st'.
Proof.
  intros Hrec ks. induction ks as [| k ks IH]; intros st st' Hks Hrun Hgray.
  - injection Hrun as <-. apply gray_post_refl.
  - assert (Hk : edge graph node k) by (apply Hks; by left).
    assert (Hks' : ∀ k', k' ∈ ks → edge graph node k').
    { intros k' Hk'. apply Hks. by right. }
    cbn [visit_all] in Hrun.
    destruct (visited_nodes st !! k) as [[|] |] eqn:Hvk.
    + eapply gray_post_trans; [| eapply IH; [done | exact Hrun | done]].
      split; simpl; auto. intros x k' Hx.
      apply elem_of_union in Hx as [Hx | Hx]; [| by left].
      apply elem_of_singleton in Hx. injection Hx as -> ->. right.
      split; [done |]. split; [by apply Hgray |]. by eexists.
    + by eapply IH.
    + destruct (rec k _) as [st1 |] eqn:Hcall; [| done].
      assert (Hp1 : gray_post st st1).
      { destruct (Hrec _ _ _ Hcall) as [G1 G2 G3].
        - simpl. intros g Hg. eapply rtc_r; [by apply Hgray | done].
        - split; auto. }
      eapply gray_post_trans; [exact Hp1 |].
      eapply IH; [done | exact Hrun |].
      intros g Hg. apply Hgray. by apply (gp_gray _ _ Hp1).
Qed.

Lemma dfs_gray (fuel : nat) :
  ∀ node st st', dfs graph fuel node st = Some st' →
    (∀ g, visited_nodes st !! g = Some GRAY → rtc (edge graph) g node) →
    gray_post st st'.
Proof.
  induction fuel as [| fuel IH]; intros node st st' Hrun Hgray; [done |].
  cbn [dfs] in Hrun.
  destruct (visit_all _ node _ _) as [st2 |] eqn:Hloop; [| done].
  injection Hrun as <-.
  apply (visit_all_gray (dfs graph fuel) node IH) in Hloop as [G1 G2 G3].
  - split; simpl.
    + intros g Hg. destruct (decide (g = node)) as [-> | Hne].
      * by rewrite lookup_insert_eq in Hg.
      * rewrite lookup_insert_ne in Hg by done. apply G1 in Hg. simpl in Hg.
        by rewrite lookup_insert_ne in Hg.
    + intros g Hg. destruct (decide (g = node)) as [-> | Hne].
      * rewrite lookup_insert_eq. by eexists.
      * rewrite lookup_insert_ne by done. apply G2. simpl.
        by rewrite lookup_insert_ne.
    + intros x k Hx. destruct (G3 x k Hx) as [Hold | (He & Hr & Hv)];
        [by left | right].
      split; [done |]. split; [done |].
      destruct (decide (k = node)) as [-> | Hne].
      * rewrite lookup_insert_eq. by eexists.
      * by rewrite lookup_insert_ne.
  - done.
  - simpl. intros g Hg. destruct (decide (g = node)) as [-> | Hne]; [done |].
    rewrite lookup_insert_ne in Hg by done. by apply Hgray.
Qed.

(** Between two rounds no node is in progress and every removed edge closes
    a cycle and leads to a coloured node. *)
Definition cycles_only (st : SortState) : Prop :=
  (∀ g, visited_nodes st !! g ≠ Some GRAY) ∧
  ∀ x k, (x, k) ∈ removed_edges st →
    edge graph x k ∧ rtc (edge graph) k x ∧ is_Some (visited_nodes st !! k).

Lemma sort_loop_gray (rounds : nat) :
  ∀ st st', sort_loop pick graph rounds st = Some st' →
    cycles_only st → cycles_only st'.
Proof.
  induction rounds as [| rounds IH]; intros st st' Hrun Hc.
  - cbn [sort_loop] in Hrun. destruct (decide _); [| done].
    by injection Hrun as <-.
  - cbn [sort_loop] in Hrun. destruct (decide _).
    { by injection Hrun as <-. }
    destruct (set_pop pick (unprocessed st)) as [[node rest] |]; [| done].
    destruct (dfs graph _ node _) as [st1 |] eqn:Hcall; [| done].
    apply (IH _ _ Hrun). destruct Hc as [Hnog Hrem].
    apply dfs_gray in Hcall as [G1 G2 G3].
    + split.
      * intros g Hg. by apply (Hnog g), G1.
      * intros x k Hx. destruct (G3 x k Hx) as [Hold | Hnew]; [| done].
        destruct (Hrem x k Hold) as (He & Hr & Hv).
        split; [done |]. split; [done |]. by apply G2.
    + simpl. intros g Hg. by destruct (Hnog g).
Qed.

(** The final state of the sort, with all that is known about it. *)
Lemma topological_sort_final :
  ∃ st, topological_sort pick graph = Some (ordered st, removed_edges st) ∧
    loop_inv graph st ∧ unprocessed st = ∅ ∧ cycles_only st.
Proof.
  destruct (sort_loop_spec pick graph (size (dom graph))
              (mkSortState [] (dom graph) ∅ ∅) (loop_inv_init graph))
    as (st & Hrun & Hi & Hemp); [done |].
  exists st. unfold topological_sort. rewrite Hrun.
  split; [done |]. split; [done |]. split; [done |].
  apply (sort_loop_gray _ _ _ Hrun). split; simpl.
  - intros g. by rewrite lookup_empty.
  - intros x k Hx. by apply not_elem_of_empty in Hx.
Qed.

End SortCycles.

(** X1: every edge [topological_sort] removes is an edge of the graph that
    closes a cycle: its target leads back to its source. *)
Theorem removed_edges_close_cycles (pick : list string → nat)
    (graph : gmap string (list string)) :
  ∃ ord rem, topological_sort pick graph = Some (ord, rem) ∧
    ∀ u v, (u, v) ∈ rem → edge graph u v ∧ rtc (edge graph) v u.
Proof.
  destruct (topological_sort_final pick graph)
    as (st & Hrun & _ & _ & _ & Hrem).
  exists (ordered st), (removed_edges st). split; [done |].
  intros u v Huv. destruct (Hrem u v Huv) as (He & Hr & _). done.
Qed.

(** Positions along kept edges grow. *)
Lemma retained_path_lookup (graph : gmap string (list string))
    (ord : list string) (rem : gset (string * string)) :
  NoDup ord →
  (∀ u v, u ∈ ord → v ∈ successors graph u → (u, v) ∉ rem →
     precedes u v ord) →
  (∀ k, k ∈ dom graph → k ∈ ord) →
  ∀ u v, tc (retained graph rem) u v →
    ∃ i j, ord !! i = Some u ∧ ord !! j = Some v ∧ i < j.
Proof.
  intros Hnd Hedges Hkeys.
  assert (Hstep : ∀ u v, retained graph rem u v →
            ∃ i j, ord !! i = Some u ∧ ord !! j = Some v ∧ i < j).
  { intros u v [He Hnr]. apply precedes_lookup, Hedges; [| done | done].
    apply Hkeys, elem_of_dom. unfold edge, successors in He.
    destruct (graph !! u); [by eexists | by apply elem_of_nil in He]. }
  induction 1 as [u v Huv | u v w Huv _ IH]; [by apply Hstep |].
  destruct (Hstep u v Huv) as (i & j & Hi & Hj & Hij).
  destruct IH as (j' & k & Hj' & Hk & Hjk).
  pose proof (NoDup_lookup _ _ _ _ Hnd Hj Hj'). exists i, k.
  split; [done |]. split; [done |]. lia.
Qed.

(** X2: the edges [topological_sort] keeps form no cycle: no node leads back
    to itself along edges of the graph that are not among the removed
    ones. *)
Theorem retained_edges_acyclic (pick : list string → nat)
    (graph : gmap string (list string)) :
  ∃ ord rem, topological_sort pick graph = Some (ord, rem) ∧
    ∀ u, ¬ tc (retained graph rem) u u.
Proof.
  destruct (topological_sort_spec pick graph)
    as (ord & rem & Hrun & Hnd & Hkeys & _ & _ & Hedges).
  exists ord, rem. split; [done |]. intros u Hcyc.
  destruct (retained_path_lookup graph ord rem Hnd Hedges Hkeys u u Hcyc)
    as (i & j & Hi & Hj & Hij).
  pose proof (NoDup_lookup _ _ _ _ Hnd Hi Hj). lia.
Qed.

(** X3: the sequence [topological_sort] returns holds every node of the
    graph exactly once: every key, and every node that only occurs as a
    successor (for which [graph.get] finds no successors). *)
Theorem sort_covers_all_nodes (pick : list string → nat)
    (graph : gmap string (list string)) :
  ∃ ord rem, topological_sort pick graph = Some (ord, rem) ∧ NoDup ord ∧
    ∀ k, k ∈ ord ↔ k ∈ graph_nodes graph.
Proof.
  destruct (topological_sort_final pick graph)
    as (st & Hrun & Hi & Hemp & _ & Hrem).
  exists (ordered st), (removed_edges st). split; [done |].
  split; [apply (li_nodup _ _ Hi) |]. intros k. split.
  { apply (li_nodes _ _ Hi). }
  assert (Hkey : ∀ y, y ∈ dom graph → y ∈ ordered st).
  { intros y Hy. destruct (li_keys _ _ Hi y Hy) as [Hu | Ho]; [| done].
    rewrite Hemp in Hu. by apply not_elem_of_empty in Hu. }
  intros Hk. apply graph_nodes_inv in Hk as [Hk | [y Hk]]; [by apply Hkey |].
  assert (Hy : y ∈ ordered st).
  { apply Hkey, elem_of_dom. unfold successors in Hk.
    destruct (graph !! y); [by eexists | by apply elem_of_nil in Hk]. }
  destruct (li_edges _ _ Hi y k Hy Hk) as [Hr | (l1 & l2 & -> & Hin)].
  - destruct (Hrem y k Hr) as (_ & _ & Hv). by apply (li_ordered _ _ Hi).
  - apply elem_of_app. right. by right.
Qed.

(** No edge leads back to its source. *)
Definition acyclic (graph : gmap string (list string)) : Prop :=
  ∀ u v, edge graph u v → ¬ rtc (edge graph) v u.

(** X4: on a graph without cycles [topological_sort] removes no edge, and
    along every edge of the graph the source comes before the target. *)
Theorem acyclic_sorts_completely (pick : list string → nat)
    (graph : gmap string (list string)) :
  acyclic graph →
  ∃ ord, topological_sort pick graph = Some (ord, ∅) ∧ NoDup ord ∧
    ∀ u v, edge graph u v → precedes u v ord.
Proof.
  intros Hac.
  destruct (topological_sort_final pick graph)
    as (st & Hrun & Hi & Hemp & _ & Hrem).
  assert (Hnone : removed_edges st = ∅).
  { apply leibniz_equiv, elem_of_equiv_empty. intros [u v] Huv.
    destruct (Hrem u v Huv) as (He & Hr & _). by apply (Hac u v). }
  exists (ordered st). rewrite Hrun, Hnone. split; [done |].
  split; [apply (li_nodup _ _ Hi) |]. intros u v He.
  assert (Hu : u ∈ ordered st).
  { destruct (li_keys _ _ Hi u) as [Hu | Ho]; [| | done].
    - apply elem_of_dom. unfold edge, successors in He.
      destruct (graph !! u); [by eexists | by apply elem_of_nil in He].
    - rewrite Hemp in Hu. by apply not_elem_of_empty in Hu. }
  destruct (li_edges _ _ Hi u v Hu He) as [Hr | Hp]; [| done].
  rewrite Hnone in Hr. by apply not_elem_of_empty in Hr.
Qed.

(** X5: an edge from a node to itself is always among the removed edges. *)
Theorem self_loop_removed (pick : list string → nat)
    (graph : gmap string (list string)) (k : string) :
  edge graph k k →
  ∃ ord rem, topological_sort pick graph = Some (ord, rem) ∧ (k, k) ∈ rem.
Proof.
  intros He.
  destruct (topological_sort_spec pick graph)
    as (ord & rem & Hrun & Hnd & Hkeys & _ & _ & Hedges).
  exists ord, rem. split; [done |].
  destruct (decide ((k, k) ∈ rem)) as [| Hn]; [done | exfalso].
  destruct (retained_path_lookup graph ord rem Hnd Hedges Hkeys k k)
    as (i & j & Hi & Hj & Hij).
  { by apply tc_once. }
  pose proof (NoDup_lookup _ _ _ _ Hnd Hi Hj). lia.
Qed.

(** ** Dictionaries built from the step list *)

(** A dictionary filled in a loop holds, for each key, the value of the last
    element with that key. *)
Lemma foldl_insert_lookup {A V : Type} (key : A → string) (val : A → V)
    (l : list A) (acc : gmap string V) (i : string) :
  foldl (λ d a, <[key a := val a]> d) acc l !! i
  = match last (filter (λ a, key a = i) l) with
    | Some a => Some (val a)
    | None => acc !! i
    end.
Proof.
  revert acc. induction l as [| a l IH]; intros acc; [done |].
  cbn [foldl]. rewrite IH, filter_cons.
  destruct (decide (key a = i)) as [<- | Hne].
  - rewrite lookup_insert_eq.
    destruct (filter (λ a0, key a0 = key a) l) as [| b k] eqn:Hf; [done |].
    rewrite (last_cons a). by destruct (last (b :: k)).
  - by rewrite lookup_insert_ne.
Qed.

Lemma last_filter_elem {A} (P : A → Prop) `{∀ x, Decision (P x)}
    (l : list A) (a : A) :
  last (filter P l) = Some a → a ∈ l ∧ P a.
Proof.
  intros Hl. apply last_Some in Hl as [k Hk].
  assert (Ha : a ∈ filter P l) by (rewrite Hk; apply elem_of_app; right; by left).
  by apply list_elem_of_filter in Ha as [? ?].
Qed.

Lemma last_filter_None {A} (P : A → Prop) `{∀ x, Decision (P x)}
    (l : list A) :
  last (filter P l) = None → ∀ a, a ∈ l → ¬ P a.
Proof.
  intros Hl a Ha HP. apply last_None in Hl.
  assert (Hin : a ∈ filter P l) by by apply list_elem_of_filter.
  rewrite Hl in Hin. by apply elem_of_nil in Hin.
Qed.

(** With distinct keys the last element with a key is the only one. *)
Lemma last_filter_NoDup {A} (key : A → string) (l : list A) (a : A) :
  NoDup (key <$> l) → a ∈ l →
  last (filter (λ b, key b = key a) l) = Some a.
Proof.
  intros Hnd Ha.
  destruct (last (filter (λ b, key b = key a) l)) as [b |] eqn:Hl.
  - apply last_filter_elem in Hl as [Hb Hk]. f_equal.
    apply list_elem_of_lookup in Ha as [i Hi].
    apply list_elem_of_lookup in Hb as [j Hj].
    assert (i = j); [| congruence].
    eapply NoDup_lookup; [exact Hnd | |]; rewrite list_lookup_fmap.
    + by rewrite Hi.
    + rewrite Hj. simpl. by rewrite Hk.
  - by destruct (last_filter_None _ _ Hl a Ha).
Qed.

Section GraphExtras.

Variable Event : Type.
Abbreviation Step := (StoryStep Event).

Lemma group_fold_lookup_Some (steps : list Step)
    (acc : gmap (option string) (list Step)) (key : option string) :
  foldl (λ checkpoints step,
      <[start_checkpoint_name step :=
          default [] (checkpoints !! start_checkpoint_name step) ++ [step]]>
        checkpoints) acc steps !! key
  = match filter (λ s, start_checkpoint_name s = key) steps with
    | [] => acc !! key
    | l => Some (default [] (acc !! key) ++ l)
    end.
Proof.
  revert acc. induction steps as [| s steps IH]; intros acc; [done |].
  cbn [foldl]. rewrite IH, filter_cons.
  destruct (decide (start_checkpoint_name s = key)) as [-> | Hne].
  - rewrite lookup_insert_eq. simpl.
    destruct (filter _ steps) as [| t l]; [done |].
    by rewrite <- app_assoc.
  - by rewrite lookup_insert_ne.
Qed.

(** X6: [_group_by_start_checkpoint] has an entry exactly for the labels at
    which some step starts, and the entry lists the steps that start there,
    in input order. *)
Theorem group_by_start_checkpoint_buckets (steps : list Step)
    (key : option string) :
  _group_by_start_checkpoint steps !! key
  = match filter (λ s, start_checkpoint_name s = key) steps with
    | [] => None
    | l => Some l
    end.
Proof.
  unfold _group_by_start_checkpoint. rewrite group_fold_lookup_Some.
  rewrite lookup_empty. by destruct (filter _ steps).
Qed.

(** The entry of the graph for an identity, read off the step list. *)
Lemma steps_graph_entry (steps : list Step) (i : string) :
  steps_graph steps !! i
  = (λ s, id <$> filter (λ o, start_checkpoint_name o = end_checkpoint_name s)
                   steps)
      <$> last (filter (λ s, id s = i) steps).
Proof.
  unfold steps_graph.
  rewrite (foldl_insert_lookup id
             (λ s, id <$> default []
                     (_group_by_start_checkpoint steps
                        !! end_checkpoint_name s))).
  rewrite lookup_empty.
  destruct (last (filter (λ s, id s = i) steps)) as [s |]; [| done].
  simpl. by rewrite group_lookup.
Qed.

(** X7: the graph [order_steps] sorts has, under each identity, the
    identities of the steps that start where the last step with that identity
    ends, in input order; identities of no step have no entry. *)
Theorem steps_graph_lookup (steps : list Step) (i : string) :
  steps_graph steps !! i
  = (λ s, id <$> filter (λ o, start_checkpoint_name o = end_checkpoint_name s)
                   steps)
      <$> last (filter (λ s, id s = i) steps).
Proof. apply steps_graph_entry. Qed.

Variable pick : list string → nat.
Variable pick_edge : list (string * string) → nat.

(** [__init__] returns, and what its fields hold. *)
Lemma init_fields (steps : list Step) (ends : option (list string)) :
  ∃ ord rem,
    order_steps pick steps = Some (ord, rem) ∧
    StoryGraph_init pick steps ends
    = Ok (mkStoryGraph steps (foldl (λ d s, <[id s := s]> d) ∅ steps) ord rem
            (match ends with Some (c :: cs) => c :: cs | _ => [] end)) ∧
    NoDup ord ∧ (∀ i, i ∈ ord ↔ i ∈ id <$> steps) ∧
    (∀ u v, (u, v) ∈ rem → v ∈ successors (steps_graph steps) u) ∧
    (∀ u v, u ∈ ord → v ∈ successors (steps_graph steps) u → (u, v) ∉ rem →
       precedes u v ord).
Proof.
  unfold StoryGraph_init, order_steps.
  destruct (topological_sort_spec pick (steps_graph steps))
    as (ord & rem & Hrun & Hnd & Hkeys & Hnodes & Hrem & Hedges).
  exists ord, rem. rewrite Hrun. split; [done |]. split; [done |].
  split; [done |]. split; [| done]. intros i. split.
  - intros Hi. by apply steps_graph_nodes, Hnodes.
  - intros Hi. apply Hkeys. rewrite steps_graph_dom.
    by apply elem_of_list_to_set.
Qed.

Lemma get_init (steps : list Step) (ord : list string)
    (rem : gset (string * string)) (ends : list string) (i : string) :
  get (mkStoryGraph steps (foldl (λ d s, <[id s := s]> d) ∅ steps) ord rem
         ends) i
  = last (filter (λ s, id s = i) steps).
Proof.
  unfold get. cbn [step_lookup].
  rewrite (foldl_insert_lookup id (λ s, s)), lookup_empty.
  by destruct (last _).
Qed.

Lemma last_filter_is_Some (steps : list Step) (i : string) :
  i ∈ id <$> steps → is_Some (last (filter (λ s, id s = i) steps)).
Proof.
  intros (s & -> & Hs)%list_elem_of_fmap.
  destruct (last (filter (λ s0, id s0 = id s) steps)) as [t |] eqn:Hl;
    [by eexists |].
  by destruct (last_filter_None _ _ Hl s Hs).
Qed.

(** X8: for a graph made by [__init__], [get] returns the last step of the
    input with the identity asked for, so [None] for an identity of no step;
    with distinct identities it returns every step under its identity. *)
Theorem get_returns_last_with_identity (steps : list Step)
    (ends : option (list string)) :
  ∃ g, StoryGraph_init pick steps ends = Ok g ∧
    (∀ i, get g i = last (filter (λ s, id s = i) steps)) ∧
    (∀ i, i ∉ id <$> steps → get g i = None) ∧
    (∀ i s, get g i = Some s → s ∈ steps ∧ id s = i) ∧
    (NoDup (id <$> steps) → ∀ s, s ∈ steps → get g (id s) = Some s).
Proof.
  destruct (init_fields steps ends) as (ord & rem & _ & Hinit & _).
  eexists. split; [exact Hinit |]. split; [intros i; apply get_init |].
  split; [| split].
  - intros i Hi. rewrite get_init. apply last_None.
    destruct (filter (λ s, id s = i) steps) as [| s l] eqn:Hf; [done |].
    exfalso. apply Hi. assert (Hs : s ∈ filter (λ s, id s = i) steps)
      by (rewrite Hf; by left).
    apply list_elem_of_filter in Hs as [<- Hs]. apply list_elem_of_fmap. eauto.
  - intros i s. rewrite get_init.
    apply (last_filter_elem (λ s, id s = i)).
  - intros Hnd s Hs. rewrite get_init. by apply last_filter_NoDup.
Qed.

Lemma fmap_omap_Some {A B} (f : A → option B) (l : list A) :
  (∀ x, x ∈ l → is_Some (f x)) → f <$> l = Some <$> omap f l.
Proof.
  induction l as [| x l IH]; intros Hall; [done |].
  destruct (Hall x) as [y Hy]; [by left |]. cbn [fmap list_fmap omap list_omap].
  rewrite Hy. cbn. f_equal. apply IH. intros z Hz. apply Hall. by right.
Qed.

Lemma omap_identities (f : string → option Step) (l : list string) :
  (∀ i, i ∈ l → ∃ s, f i = Some s ∧ id s = i) → id <$> omap f l = l.
Proof.
  induction l as [| i l IH]; intros Hall; [done |].
  destruct (Hall i) as (s & Hs & Hi); [by left |]. cbn [omap list_omap].
  rewrite Hs. cbn. rewrite Hi. f_equal. apply IH. intros j Hj. apply Hall.
  by right.
Qed.

(** The ordered steps of a graph made by [__init__]. *)
Lemma ordered_steps_init (steps : list Step)
    (ends : option (list string)) :
  ∃ g ss, StoryGraph_init pick steps ends = Ok g ∧
    ordered_steps g = Some <$> ss ∧
    id <$> ss = ordered_ids g ∧
    (∀ s, s ∈ ss → s ∈ steps) ∧
    (NoDup (id <$> steps) → ss ≡ₚ steps).
Proof.
  destruct (init_fields steps ends)
    as (ord & rem & _ & Hinit & Hnd & Hmem & _).
  set (g := mkStoryGraph steps _ ord rem _) in Hinit.
  exists g, (omap (get g) ord). split; [exact Hinit |].
  assert (Hsome : ∀ i, i ∈ ord → is_Some (get g i)).
  { intros i Hi. unfold g. rewrite get_init.
    by apply last_filter_is_Some, Hmem. }
  assert (Hid : ∀ i s, get g i = Some s → s ∈ steps ∧ id s = i).
  { intros i s. unfold g. rewrite get_init.
    apply (last_filter_elem (λ s, id s = i)). }
  assert (Hids : id <$> omap (get g) ord = ord).
  { apply omap_identities. intros i Hi. destruct (Hsome i Hi) as [s Hs].
    exists s. split; [done |]. by apply (Hid i s). }
  split; [by apply fmap_omap_Some |]. split; [done |]. split.
  - intros s (i & Hi & Hs)%list_elem_of_omap. by apply (Hid i s).
  - intros Hnds. apply NoDup_Permutation.
    + apply (NoDup_fmap_1 id). by rewrite Hids.
    + by apply (NoDup_fmap_1 id).
    + intros s. split.
      * intros (i & Hi & Hs)%list_elem_of_omap. by apply (Hid i s).
      * intros Hs. apply list_elem_of_omap. exists (id s). split.
        -- apply Hmem, list_elem_of_fmap. eauto.
        -- unfold g. rewrite get_init. by apply last_filter_NoDup.
Qed.

(** Steps that follow each other at a checkpoint are ordered. *)
Lemma linked_steps_precede (steps : list Step)
    (ends : option (list string)) :
  NoDup (id <$> steps) →
  ∃ g, StoryGraph_init pick steps ends = Ok g ∧
    ∀ s t, s ∈ steps → t ∈ steps →
      end_checkpoint_name s = start_checkpoint_name t →
      (id s, id t) ∉ cyclic_edge_ids g →
      precedes (id s) (id t) (ordered_ids g).
Proof.
  intros Hids.
  destruct (init_fields steps ends)
    as (ord & rem & _ & Hinit & Hnd & Hmem & _ & Hedges).
  eexists. split; [exact Hinit |]. cbn [cyclic_edge_ids ordered_ids].
  intros s t Hs Ht Hst Hnr. apply Hedges; [| | done].
  - apply Hmem, list_elem_of_fmap. eauto.
  - unfold successors. rewrite steps_graph_entry.
    rewrite (last_filter_NoDup id steps s Hids Hs). simpl.
    apply list_elem_of_fmap. exists t. split; [done |].
    by apply list_elem_of_filter.
Qed.

(** X9: for a graph made by [__init__], [ordered_steps] holds no [None];
    its entries are steps of the input, and with distinct identities every
    step of the input occurs in it exactly once. *)
Theorem ordered_steps_permutation (steps : list Step)
    (ends : option (list string)) :
  ∃ g ss, StoryGraph_init pick steps ends = Ok g ∧
    ordered_steps g = Some <$> ss ∧
    id <$> ss = ordered_ids g ∧
    (∀ s, s ∈ ss → s ∈ steps) ∧
    (NoDup (id <$> steps) → ss ≡ₚ steps).
Proof. apply ordered_steps_init. Qed.

(** X10: for a graph made by [__init__] from steps with distinct identities,
    a step comes before every step that starts where it ends, unless the
    pair is one of the cyclic edges. *)
Theorem ordered_ids_follow_checkpoints (steps : list Step)
    (ends : option (list string)) :
  NoDup (id <$> steps) →
  ∃ g, StoryGraph_init pick steps ends = Ok g ∧
    ∀ s t, s ∈ steps → t ∈ steps →
      end_checkpoint_name s = start_checkpoint_name t →
      (id s, id t) ∉ cyclic_edge_ids g →
      precedes (id s) (id t) (ordered_ids g).
Proof. apply linked_steps_precede. Qed.

End GraphExtras.

(** Iteration over a set delivers each of its elements once. *)
Lemma drain_Permutation {A} (pick : list A → nat) (n : nat) (l : list A) :
  length l = n → drain pick n l ≡ₚ l.
Proof.
  revert l. induction n as [| n IH]; intros l Hl.
  - by apply nil_length_inv in Hl as ->.
  - cbn [drain].
    destruct (lookup_lt_is_Some_2 l (pick l `mod` length l)) as [x Hx].
    { apply Nat.mod_upper_bound. lia. }
    rewrite Hx. etrans; [| symmetry; apply (delete_Permutation l _ x Hx)].
    apply perm_skip, IH. rewrite length_delete by by eexists. lia.
Qed.

Lemma set_iter_Permutation `{Countable A} (pick : list A → nat) (s : gset A) :
  set_iter pick s ≡ₚ elements s.
Proof. unfold set_iter. by apply drain_Permutation. Qed.

Lemma set_iter_elem `{Countable A} (pick : list A → nat) (s : gset A) (x : A) :
  x ∈ set_iter pick s ↔ x ∈ s.
Proof. by rewrite set_iter_Permutation, elem_of_elements. Qed.

(** ** Cyclic edges and their replacement *)

(** What the two copies made for a cyclic edge from [p.1] to [p.2] look like:
    the copy of the source ends at the new checkpoint, the copy of the target
    starts there, and each keeps its events and its other checkpoint. *)
Definition seam_of {Event} (p : StoryStep Event * StoryStep Event)
    (seam : string * StoryStep Event * StoryStep Event) : Prop :=
  let '(label, u, v) := seam in
  start_checkpoint u = start_checkpoint p.1 ∧ events u = events p.1 ∧
  end_checkpoint u = Some (mkCheckpoint label) ∧
  start_checkpoint v = Some (mkCheckpoint label) ∧
  end_checkpoint v = end_checkpoint p.2 ∧ events v = events p.2.

Definition seam_steps {Event}
    (seams : list (string * StoryStep Event * StoryStep Event))
  : list (StoryStep Event) :=
  seams ≫= λ seam, [seam.1.2; seam.2].

Section BreakerExtras.

Variable Event : Type.
Abbreviation Step := (StoryStep Event).
Variable Gen : Type.
Variable generate_id : string → Gen → string * Gen.
Variable new_id : Gen → string * Gen.
Variable pick : list string → nat.
Variable pick_edge : list (string * string) → nat.

Lemma add_changed_seams (pairs : list (Step * Step)) :
  ∀ (steps : list Step) (ends : list string) (gen : Gen),
    ∃ seams gen',
      add_changed generate_id new_id
        ((λ p, (Some p.1, Some p.2)) <$> pairs) steps ends gen
      = Ok (steps ++ seam_steps seams, ends ++ seams.*1.*1, gen') ∧
      Forall2 seam_of pairs seams.
Proof.
  induction pairs as [| [s t] pairs IH]; intros steps ends gen.
  - exists [], gen. cbn. rewrite !app_nil_r. split; [done | constructor].
  - rewrite fmap_cons, add_changed_cons. cbn [add_changed fst snd].
    destruct (generate_id "CYCLE_" gen) as [label gen1].
    cbn [deref mbind result_bind]. unfold create_copy.
    destruct (new_id gen1) as [i1 gen2]. cbn [deref mbind result_bind].
    destruct (new_id gen2) as [i2 gen3]. cbn [mbind result_bind name].
    match goal with |- context [add_changed _ _ _ ?ss ?es ?g] =>
      destruct (IH ss es g) as (seams & gen' & Hrun & Hseams) end.
    rewrite Hrun.
    eexists ((label, _, _) :: seams), gen'.
    split; [| constructor; [| exact Hseams]].
    + cbn. by rewrite <- !app_assoc.
    + done.
Qed.

Lemma start_ids_sources (pairs : list (Step * Step)) :
  start_ids ((λ p, (Some p.1, Some p.2)) <$> pairs)
  = Ok (list_to_set ((λ p, id p.1) <$> pairs)).
Proof.
  induction pairs as [| [s t] pairs IH]; [done |].
  rewrite !fmap_cons. cbn [start_ids deref mbind result_bind fst].
  rewrite IH. done.
Qed.

(** The endpoints of the cyclic edges of a graph made by [__init__] are
    steps of the graph. *)
Lemma cyclic_edges_pairs (steps : list Step) (ord : list string)
    (rem : gset (string * string)) (ends : list string) :
  (∀ u v, (u, v) ∈ rem → v ∈ successors (steps_graph steps) u) →
  let g := mkStoryGraph steps (foldl (λ d s, <[id s := s]> d) ∅ steps) ord
             rem ends in
  ∃ pairs, cyclic_edges pick_edge g = (λ p, (Some p.1, Some p.2)) <$> pairs ∧
    (λ p, (id p.1, id p.2)) <$> pairs = set_iter pick_edge rem ∧
    Forall (λ p, p.1 ∈ steps ∧ p.2 ∈ steps ∧
              ∃ o, o ∈ steps ∧ id o = id p.2 ∧
                start_checkpoint_name o = end_checkpoint_name p.1) pairs.
Proof.
  intros Hrem g. unfold cyclic_edges. cbn [cyclic_edge_ids g].
  assert (Hall : ∀ e, e ∈ set_iter pick_edge rem → e ∈ rem).
  { intros e. by rewrite set_iter_elem. }
  induction (set_iter pick_edge rem) as [| [u v] l IH].
  { exists []. split; [done |]. split; [done | constructor]. }
  destruct IH as (pairs & Hmap & Hids & Hprop).
  { intros e He. apply Hall. by right. }
  assert (Huv : v ∈ successors (steps_graph steps) u).
  { apply Hrem, Hall. by left. }
  unfold successors in Huv. rewrite steps_graph_entry in Huv.
  destruct (last (filter (λ s, id s = u) steps)) as [s |] eqn:Hs;
    [| by apply elem_of_nil in Huv].
  simpl in Huv. apply list_elem_of_fmap in Huv as (o & -> & Ho).
  apply list_elem_of_filter in Ho as [Hst Ho].
  destruct (last_filter_is_Some Event steps (id o)) as [t Ht].
  { apply list_elem_of_fmap. eauto. }
  exists ((s, t) :: pairs). rewrite !fmap_cons, Hmap, Hids. cbn [fst snd].
  unfold g at 1 2. rewrite !get_init, Hs, Ht.
  apply (last_filter_elem (λ s, id s = u)) in Hs as [Hs <-].
  apply (last_filter_elem (λ s, id s = id o)) in Ht as [Ht Hid].
  split; [done |]. split; [by rewrite Hid |].
  constructor; [| done]. cbn [fst snd]. split; [done |]. split; [done |].
  exists o. by rewrite Hid.
Qed.

(** X11: for a graph made by [__init__], [cyclic_edges] lists one pair per
    cyclic edge; both entries of a pair are steps of the graph, with the
    identities of the edge, and some step with the identity of the second
    starts where the first ends. *)
Theorem cyclic_edges_are_steps (steps : list Step)
    (ends : option (list string)) :
  ∃ g, StoryGraph_init pick steps ends = Ok g ∧
    length (cyclic_edges pick_edge g) = size (cyclic_edge_ids g) ∧
    ∀ e, e ∈ cyclic_edges pick_edge g →
      ∃ s t, e = (Some s, Some t) ∧ s ∈ steps ∧ t ∈ steps ∧
        (id s, id t) ∈ cyclic_edge_ids g ∧
        ∃ o, o ∈ steps ∧ id o = id t ∧
          start_checkpoint_name o = end_checkpoint_name s.
Proof.
  destruct (init_fields Event pick steps ends)
    as (ord & rem & _ & Hinit & _ & _ & Hrem & _).
  eexists. split; [exact Hinit |].
  destruct (cyclic_edges_pairs steps ord rem
              (match ends with Some (c :: cs) => c :: cs | _ => [] end) Hrem)
    as (pairs & Hmap & Hids & Hprop).
  rewrite Hmap. cbn [cyclic_edge_ids]. split.
  - rewrite length_fmap, <- (length_fmap (λ p, (id p.1, id p.2))), Hids.
    by rewrite set_iter_Permutation.
  - intros e (p & -> & Hp)%list_elem_of_fmap. exists p.1, p.2.
    split; [done |]. rewrite Forall_forall in Hprop.
    destruct (Hprop p Hp) as (H1 & H2 & Ho).
    split; [done |]. split; [done |]. split; [| done].
    apply (set_iter_elem pick_edge). rewrite <- Hids.
    apply list_elem_of_fmap. by exists p.
Qed.

(** A list passed to [__init__] as end checkpoints is stored as it is, the
    empty one as a new empty list. *)
Lemma normalised_end_checkpoints (l : list string) :
  match Some l with Some (c :: cs) => c :: cs | _ => [] end = l.
Proof. by destruct l. Qed.

Lemma filter_all {A} (P : A → Prop) `{∀ x, Decision (P x)} (l : list A) :
  (∀ x, x ∈ l → P x) → filter P l = l.
Proof.
  induction l as [| x l IH]; intros Hall; [done |].
  rewrite filter_cons, decide_True by (apply Hall; by left).
  f_equal. apply IH. intros y Hy. apply Hall. by right.
Qed.

(** X12: on a graph made by [__init__], [with_cycles_removed] returns.  The
    new graph keeps, in order, the steps whose identity is not the source of
    a cyclic edge, followed by two copies per cyclic edge: a copy of the
    source that ends at a new checkpoint and a copy of the target that starts
    there, each with the events and the other checkpoint of its original;
    the new checkpoint labels are appended to the end checkpoints in the same
    order. *)
Theorem with_cycles_removed_seams (steps : list Step)
    (ends : option (list string)) :
  ∃ g, StoryGraph_init pick steps ends = Ok g ∧
    ∀ gen, ∃ g' gen' pairs seams,
      with_cycles_removed generate_id new_id pick pick_edge g gen
      = Ok (g', gen') ∧
      cyclic_edges pick_edge g = (λ p, (Some p.1, Some p.2)) <$> pairs ∧
      Forall2 seam_of pairs seams ∧
      story_steps g'
      = filter (λ s, id s ∉ (set_map fst (cyclic_edge_ids g) : gset string))
          steps ++ seam_steps seams ∧
      story_end_checkpoints g' = story_end_checkpoints g ++ seams.*1.*1.
Proof.
  destruct (init_fields Event pick steps ends)
    as (ord & rem & _ & Hinit & _ & _ & Hrem & _).
  eexists. split; [exact Hinit |]. intros gen.
  destruct (cyclic_edges_pairs steps ord rem
              (match ends with Some (c :: cs) => c :: cs | _ => [] end) Hrem)
    as (pairs & Hmap & Hids & _).
  unfold with_cycles_removed, changed_steps. rewrite Hmap.
  rewrite start_ids_sources. cbn [mbind result_bind story_steps
                                   story_end_checkpoints cyclic_edge_ids].
  match goal with |- context [add_changed _ _ _ ?ss ?es gen] =>
    destruct (add_changed_seams pairs ss es gen)
      as (seams & gen' & Hrun & Hseams) end.
  rewrite Hrun. cbn [mbind result_bind].
  match goal with |- context [StoryGraph_init pick ?ss ?es] =>
    destruct (init_fields Event pick ss es)
      as (ord' & rem' & _ & Hinit' & _) end.
  rewrite Hinit'. cbn [mbind result_bind].
  eexists _, gen', pairs, seams. split; [reflexivity |].
  split; [done |]. split; [done |].
  cbn [story_steps story_end_checkpoints]. split.
  - f_equal. assert (Hset : (list_to_set ((λ p, id p.1) <$> pairs)
                              : gset string) = set_map fst rem).
    { apply set_eq. intros i. rewrite elem_of_list_to_set, elem_of_map.
      rewrite list_elem_of_fmap. split.
      - intros (p & -> & Hp). exists (id p.1, id p.2). split; [done |].
        apply (set_iter_elem pick_edge). rewrite <- Hids.
        apply list_elem_of_fmap. by exists p.
      - intros ([u v] & -> & Huv). apply (set_iter_elem pick_edge) in Huv.
        rewrite <- Hids in Huv.
        apply list_elem_of_fmap in Huv as (p & [= -> ->] & Hp). by exists p. }
    by rewrite Hset.
  - apply normalised_end_checkpoints.
Qed.

(** X13: on a graph made by [__init__] that has no cyclic edge,
    [with_cycles_removed] returns the same graph value and draws no fresh
    name. *)
Theorem acyclic_graph_unchanged (steps : list Step)
    (ends : option (list string)) (g : StoryGraph Event) (gen : Gen) :
  StoryGraph_init pick steps ends = Ok g →
  cyclic_edge_ids g = ∅ →
  with_cycles_removed generate_id new_id pick pick_edge g gen = Ok (g, gen).
Proof.
  intros Hinit Hnone.
  destruct (init_fields Event pick steps ends)
    as (ord & rem & Hord & Hinit' & _).
  rewrite Hinit' in Hinit. injection Hinit as <-. cbn in Hnone. subst rem.
  unfold with_cycles_removed, changed_steps, cyclic_edges.
  cbn [cyclic_edge_ids story_steps story_end_checkpoints].
  unfold set_iter. rewrite size_empty. cbn [drain fmap list_fmap start_ids].
  cbn [mbind result_bind add_changed].
  rewrite filter_all by (intros s _; apply not_elem_of_empty).
  unfold StoryGraph_init. rewrite Hord. cbn [mbind result_bind].
  do 3 f_equal. destruct ends as [[| c cs] |]; done.
Qed.

End BreakerExtras.

(** ** The stories the enumerator returns *)

(** The steps lead from the checkpoint [from] to the checkpoint [to], each
    starting where the one before ends. *)
Fixpoint links {Event} (from : option string) (steps : list (StoryStep Event))
    (to : option string) : Prop :=
  match steps with
  | [] => from = to
  | s :: rest =>
      start_checkpoint_name s = from ∧ links (end_checkpoint_name s) rest to
  end.

Lemma links_snoc {Event} (from to : option string)
    (steps : list (StoryStep Event)) (s : StoryStep Event) :
  links from (steps ++ [s]) to
  ↔ links from steps (start_checkpoint_name s) ∧ end_checkpoint_name s = to.
Proof.
  revert from. induction steps as [| t steps IH]; intros from; simpl.
  - split; [intros [-> ->] | intros [-> ->]]; done.
  - rewrite IH. tauto.
Qed.

Section EnumeratorExtras.

Variable Event : Type.
Abbreviation Step := (StoryStep Event).
Variable STORY_START : string.
Variable Domain : Type.
Variable explicit_events : Step → Domain → list Event.
Variable Rand : Type.
Variable Random : Z → Rand.
Variable subsample_array : list (Story Event) → nat → Rand → list (Story Event) * Rand.

Abbreviation Trackers := (gmap (option string) (list (Story Event))).
Abbreviation process_step' := (process_step explicit_events subsample_array).
Abbreviation run_steps' := (run_steps explicit_events subsample_array).
Abbreviation propagated' := (propagated subsample_array).
Abbreviation initial' := (initial STORY_START Random).
Abbreviation build_stories' :=
  (build_stories STORY_START explicit_events Random subsample_array).

(** [subsample_array] returns stories it was given. *)
Definition selects : Prop :=
  ∀ l m r story, story ∈ (subsample_array l m r).1 → story ∈ l.

(** A story waiting at [key] after the steps [processed]: a chain of steps
    with events from the start of all stories to [key], taken in order from
    the processed steps. *)
Definition well_formed (domain : Domain) (processed : list Step)
    (key : option string) (story : Story Event) : Prop :=
  links (Some STORY_START) (Story_story_steps story) key ∧
  (∀ s, s ∈ Story_story_steps story → explicit_events s domain ≠ []) ∧
  Story_story_steps story `sublist_of` processed.

Lemma frontier_elem (active : Trackers) (key : option string)
    (story : Story Event) :
  story ∈ frontier active key ↔
  ∃ l, active !! key = Some l ∧ story ∈ l.
Proof.
  unfold frontier. destruct (active !! key) as [l |]; simpl.
  - split; [eauto | by intros (l' & [= <-] & H)].
  - split; [by intros H%elem_of_nil | by intros (l' & [=] & _)].
Qed.

Lemma extend_trackers_elem (domain : Domain) (step : Step)
    (incoming : list (Story Event)) (story : Story Event) :
  story ∈ extend_trackers explicit_events step domain incoming ↔
  explicit_events step domain ≠ [] ∧
  ∃ t, t ∈ incoming ∧ story = mkStory (Story_story_steps t ++ [step]).
Proof.
  unfold extend_trackers. destruct (explicit_events step domain) as [| e l].
  - split; [by intros H%elem_of_nil | by intros [H _]].
  - rewrite list_elem_of_fmap. split.
    + intros (t & -> & Ht). split; [done | eauto].
    + intros (_ & t & Ht & ->). eauto.
Qed.

Lemma propagated_elem (max : option nat) (incoming : list (Story Event))
    (rand : Rand) (story : Story Event) :
  selects → story ∈ propagated' max incoming rand → story ∈ incoming.
Proof.
  intros Hsel. unfold propagated. destruct max as [m |]; [apply Hsel | done].
Qed.

(** One step keeps the stories at all checkpoints well formed. *)
Lemma process_step_well_formed (domain : Domain) (max : option nat)
    (processed : list Step) (step : Step) (st : Trackers * Rand) :
  (∀ incoming rand story,
     story ∈ propagated' max incoming rand → story ∈ incoming) →
  (∀ key story, story ∈ frontier st.1 key →
     well_formed domain processed key story) →
  ∀ key story,
    story ∈ frontier (process_step' domain max step st).1 key →
    well_formed domain (processed ++ [step]) key story.
Proof.
  intros Hsel Hinv key story Hin. destruct st as [active rand].
  assert (Hold : ∀ key story, story ∈ frontier active key →
            well_formed domain (processed ++ [step]) key story).
  { intros k t Ht. destruct (Hinv k t Ht) as (H1 & H2 & H3).
    split; [done |]. split; [done |]. by apply sublist_inserts_r. }
  destruct (active !! start_checkpoint_name step) as [incoming |] eqn:Hs.
  - rewrite (process_step_reached _ _ _ _ _ _ _ _ _ _ _ Hs) in Hin.
    apply frontier_elem in Hin as (l & Hl & Hin).
    destruct (decide (end_checkpoint_name step = key)) as [<- | Hne].
    + rewrite lookup_insert_eq in Hl. injection Hl as <-.
      apply elem_of_app in Hin as [Hin | Hin]; [by apply Hold |].
      apply extend_trackers_elem in Hin as (Hev & t & Ht & ->).
      apply Hsel in Ht.
      destruct (Hinv (start_checkpoint_name step) t) as (H1 & H2 & H3).
      { apply frontier_elem. eauto. }
      split; [| split]; cbn [Story_story_steps].
      * by apply links_snoc.
      * intros s Hs'. apply elem_of_app in Hs' as [Hs' | Hs']; [by apply H2 |].
        by apply list_elem_of_singleton in Hs' as ->.
      * by apply sublist_app.
    + rewrite lookup_insert_ne in Hl by done. apply Hold, frontier_elem. eauto.
  - rewrite (process_step_skipped _ _ _ _ _ _ _ _ _ _ Hs) in Hin.
    by apply Hold.
Qed.

Lemma run_steps_snoc (domain : Domain) (max : option nat) (steps : list Step)
    (step : Step) (st : Trackers * Rand) :
  run_steps' domain max (steps ++ [step]) st
  = process_step' domain max step (run_steps' domain max steps st).
Proof. unfold run_steps. by rewrite foldl_app. Qed.

Lemma initial_frontier (key : option string) (story : Story Event) :
  story ∈ frontier initial'.1 key ↔
  key = Some STORY_START ∧ story = mkStory [].
Proof.
  rewrite frontier_elem. unfold initial. cbn [fst]. split.
  - intros (l & Hl & Hin). apply lookup_singleton_Some in Hl as [<- <-].
    by apply list_elem_of_singleton in Hin as ->.
  - intros [-> ->]. exists [mkStory []]. rewrite lookup_singleton_eq.
    split; [done | by left].
Qed.

Lemma run_steps_well_formed (domain : Domain) (max : option nat)
    (steps : list Step) :
  (∀ incoming rand story,
     story ∈ propagated' max incoming rand → story ∈ incoming) →
  ∀ key story, story ∈ frontier (run_steps' domain max steps initial').1 key →
    well_formed domain steps key story.
Proof.
  intros Hsel. induction steps as [| step steps IH] using rev_ind.
  - intros key story [-> ->]%initial_frontier. split; [done |].
    split; [| done]. intros s Hs. by apply elem_of_nil in Hs.
  - intros key story. rewrite run_steps_snoc.
    by apply process_step_well_formed.
Qed.

(** X14: provided [subsample_array] returns only stories it was given, every
    story [build_stories] returns is a chain of steps from the start of all
    stories to the end: its first step starts at [STORY_START], each further
    step starts where the one before ends, the last ends at [None]; every
    step in it has events; and its steps are ordered steps of the graph, in
    their order. *)
Theorem build_stories_sound (self : StoryGraph Event) (domain : Domain)
    (max : option nat) (steps : list Step) (stories : list (Story Event)) :
  selects →
  ordered_steps self = Some <$> steps →
  build_stories' self domain max = Ok stories →
  ∀ story, story ∈ stories →
    links (Some STORY_START) (Story_story_steps story) None ∧
    (∀ s, s ∈ Story_story_steps story → explicit_events s domain ≠ []) ∧
    Story_story_steps story `sublist_of` steps.
Proof.
  intros Hsel Hord Hrun story Hin.
  rewrite (build_stories_run _ _ _ _ _ _ _ _ _ _ _ Hord) in Hrun.
  apply (run_steps_well_formed domain max steps
           (λ incoming rand t, propagated_elem max incoming rand t Hsel)
           None story).
  apply frontier_elem.
  destruct (_ !! None) as [l |]; [| done]. injection Hrun as <-. eauto.
Qed.

(** Stories stay where they are. *)
Lemma process_step_grows (domain : Domain) (max : option nat) (step : Step)
    (st : Trackers * Rand) (key : option string) (story : Story Event) :
  story ∈ frontier st.1 key →
  story ∈ frontier (process_step' domain max step st).1 key.
Proof.
  destruct st as [active rand]. cbn [fst]. intros Hin.
  destruct (active !! start_checkpoint_name step) as [incoming |] eqn:Hs.
  - rewrite (process_step_reached _ _ _ _ _ _ _ _ _ _ _ Hs).
    destruct (decide (end_checkpoint_name step = key)) as [<- | Hne].
    + apply frontier_elem. rewrite lookup_insert_eq. eexists.
      split; [done |]. apply elem_of_app. by left.
    + unfold frontier. by rewrite lookup_insert_ne.
  - by rewrite (process_step_skipped _ _ _ _ _ _ _ _ _ _ Hs).
Qed.

Lemma run_steps_complete (domain : Domain) (steps : list Step) :
  ∀ key chain, chain `sublist_of` steps →
    links (Some STORY_START) chain key →
    (∀ s, s ∈ chain → explicit_events s domain ≠ []) →
    mkStory chain ∈ frontier (run_steps' domain None steps initial').1 key.
Proof.
  induction steps as [| step steps IH] using rev_ind;
    intros key chain Hsub Hlinks Hev.
  - apply sublist_nil_r in Hsub as ->. simpl in Hlinks. subst key.
    by apply initial_frontier.
  - rewrite run_steps_snoc.
    apply sublist_app_r in Hsub as (c1 & c2 & -> & Hc1 & Hc2).
    apply sublist_cons_r in Hc2 as [Hc2 | (c2' & -> & Hc2)];
      apply sublist_nil_r in Hc2; subst.
    + rewrite app_nil_r in *. apply process_step_grows. by apply IH.
    + apply links_snoc in Hlinks as [Hlinks <-].
      assert (Hin : mkStory c1
                ∈ frontier (run_steps' domain None steps initial').1
                    (start_checkpoint_name step)).
      { apply IH; [done | done |]. intros s Hs. apply Hev, elem_of_app.
        by left. }
      apply frontier_elem in Hin as (incoming & Hs & Hin).
      destruct (run_steps' domain None steps initial') as [active rand].
      cbn [fst] in Hs.
      rewrite (process_step_reached _ _ _ _ _ _ _ _ _ _ _ Hs).
      apply frontier_elem. rewrite lookup_insert_eq. eexists.
      split; [done |]. apply elem_of_app. right.
      apply extend_trackers_elem. split.
      * apply Hev, elem_of_app. right. by left.
      * exists (mkStory c1). split; [done | done].
Qed.

(** X15: without a maximum, [build_stories] returns every chain of steps
    with events that leads from [STORY_START] to the end of the story and
    takes its steps from the ordered steps in their order. *)
Theorem build_stories_complete (self : StoryGraph Event) (domain : Domain)
    (steps chain : list Step) :
  ordered_steps self = Some <$> steps →
  chain `sublist_of` steps →
  links (Some STORY_START) chain None →
  (∀ s, s ∈ chain → explicit_events s domain ≠ []) →
  ∃ stories, build_stories' self domain None = Ok stories ∧
    mkStory chain ∈ stories.
Proof.
  intros Hord Hsub Hlinks Hev.
  rewrite (build_stories_run _ _ _ _ _ _ _ _ _ _ _ Hord).
  pose proof (run_steps_complete domain steps None chain Hsub Hlinks Hev)
    as Hin.
  apply frontier_elem in Hin as (l & Hl & Hin). rewrite Hl. eauto.
Qed.

(** Entries only arise at the end checkpoints of steps. *)
Lemma run_steps_keys (domain : Domain) (max : option nat) (steps : list Step)
    (st : Trackers * Rand) (key : option string) :
  is_Some ((run_steps' domain max steps st).1 !! key) →
  is_Some (st.1 !! key) ∨ ∃ s, s ∈ steps ∧ end_checkpoint_name s = key.
Proof.
  revert st. induction steps as [| step steps IH]; intros st Hk; [by left |].
  cbn [run_steps foldl] in Hk. apply IH in Hk as [Hk | (s & Hs & He)].
  - destruct st as [active rand].
    destruct (active !! start_checkpoint_name step) as [incoming |] eqn:Hs.
    + rewrite (process_step_reached _ _ _ _ _ _ _ _ _ _ _ Hs) in Hk.
      destruct (decide (end_checkpoint_name step = key)) as [Heq | Hne].
      * right. exists step. split; [by left | done].
      * rewrite lookup_insert_ne in Hk by done. by left.
    + rewrite (process_step_skipped _ _ _ _ _ _ _ _ _ _ Hs) in Hk. by left.
  - right. exists s. split; [by right | done].
Qed.

(** X16: when no ordered step ends at the end of the story, [build_stories]
    raises [KeyError] at its last line. *)
Theorem build_stories_key_error (self : StoryGraph Event) (domain : Domain)
    (max : option nat) (steps : list Step) :
  ordered_steps self = Some <$> steps →
  (∀ s, s ∈ steps → end_checkpoint_name s ≠ None) →
  build_stories' self domain max = Raise KeyError.
Proof.
  intros Hord Hno. rewrite (build_stories_run _ _ _ _ _ _ _ _ _ _ _ Hord).
  destruct (_ !! None) as [l |] eqn:Hl; [exfalso | done].
  destruct (run_steps_keys domain max steps initial' None) as [Hk | Hk].
  - by eexists.
  - unfold initial in Hk. cbn [fst] in Hk.
    rewrite lookup_singleton_ne in Hk by done. by destruct Hk.
  - destruct Hk as (s & Hs & He). by apply (Hno s).
Qed.

End EnumeratorExtras.

(** ** The stories of a graph without cycles *)

Lemma precedes_tail (u v a : string) (l : list string) :
  precedes u v (a :: l) → u ≠ a → precedes u v l.
Proof.
  intros (l1 & l2 & Heq & Hv) Hne. destruct l1 as [| b l1].
  - injection Heq as <- _. done.
  - injection Heq as _ ->. by exists l1, l2.
Qed.

Lemma precedes_not_head (u a : string) (l : list string) :
  NoDup (a :: l) → ¬ precedes u a (a :: l).
Proof.
  intros Hnd (l1 & l2 & Heq & Hv). apply NoDup_cons in Hnd as [Hnin _].
  apply Hnin. destruct l1 as [| b l1].
  - injection Heq as _ ->. done.
  - injection Heq as _ ->. apply elem_of_app. right. by right.
Qed.

(** Each element is related to the next one. *)
Fixpoint adjacent {A} (R : A → A → Prop) (c : list A) : Prop :=
  match c with
  | x :: (y :: _) as rest => R x y ∧ adjacent R rest
  | _ => True
  end.

Lemma adjacent_impl {A} (R Q : A → A → Prop) (c : list A) :
  (∀ x y, x ∈ c → y ∈ c → R x y → Q x y) → adjacent R c → adjacent Q c.
Proof.
  induction c as [| x [| y c] IH]; intros Himp; [done | done |].
  intros [Hxy Hrest]. split.
  - apply Himp; [by left | by right; left | done].
  - apply IH; [| done]. intros u v Hu Hv. apply Himp; by right.
Qed.

(** In a chain every element but the first comes after some element. *)
Lemma adjacent_tail {A} (R : A → A → Prop) (x : A) (c : list A) :
  adjacent R (x :: c) → Forall (λ y, ∃ w, R w y) c.
Proof.
  revert x. induction c as [| y c IH]; intros x; [by constructor |].
  intros [Hxy Hrest]. constructor; [eauto | by eapply IH].
Qed.

Lemma key_inj_on {A} (key : A → string) (l : list A) (x y : A) :
  NoDup (key <$> l) → x ∈ l → y ∈ l → key x = key y → x = y.
Proof.
  intros Hnd Hx Hy Hk.
  apply list_elem_of_lookup in Hx as [i Hi].
  apply list_elem_of_lookup in Hy as [j Hj].
  assert (i = j); [| congruence].
  eapply NoDup_lookup; [exact Hnd | |]; rewrite list_lookup_fmap.
  - by rewrite Hi.
  - rewrite Hj. simpl. by rewrite Hk.
Qed.

(** A chain whose elements follow each other in a duplicate-free list is
    taken from that list in order. *)
Lemma chain_sublist {A} (key : A → string) (l : list A) :
  NoDup (key <$> l) →
  ∀ c, Forall (λ x, x ∈ l) c →
    adjacent (λ x y, precedes (key x) (key y) (key <$> l)) c →
    c `sublist_of` l.
Proof.
  induction l as [| a l IH]; intros Hnd c Hin Hadj.
  - destruct c as [| x c]; [done |].
    apply Forall_cons in Hin as [Hx _]. by apply elem_of_nil in Hx.
  - destruct c as [| x c]; [apply sublist_nil_l |].
    rewrite fmap_cons in Hnd. pose proof Hnd as Hnd'.
    apply NoDup_cons in Hnd' as [Hnin Hndl].
    assert (Hlater : ∀ y, (∃ w, precedes (key w) (key y) (key a :: (key <$> l)))
              → y ∈ a :: l → y ∈ l).
    { intros y [w Hw] Hy. apply elem_of_cons in Hy as [-> | Hy]; [| done].
      by destruct (precedes_not_head (key w) (key a) (key <$> l)). }
    assert (Htail : Forall (λ y, y ∈ l) c).
    { apply adjacent_tail in Hadj. apply Forall_cons in Hin as [_ Hin].
      rewrite Forall_forall in Hadj, Hin. apply Forall_forall.
      intros y Hy. apply Hlater; [by apply Hadj | by apply Hin]. }
    assert (Hrestrict : ∀ c', Forall (λ y, y ∈ l) c' →
              adjacent (λ x y, precedes (key x) (key y)
                                 (key <$> a :: l)) c' →
              adjacent (λ x y, precedes (key x) (key y) (key <$> l)) c').
    { intros c' Hc'. apply adjacent_impl. intros u v Hu Hv Huv.
      rewrite fmap_cons in Huv. apply (precedes_tail _ _ (key a)); [done |].
      intros Heq. apply Hnin. rewrite <- Heq. apply list_elem_of_fmap.
      exists u. split; [done |]. rewrite Forall_forall in Hc'. by apply Hc'. }
    apply Forall_cons in Hin as [Hx _].
    apply elem_of_cons in Hx as [-> | Hx].
    + apply sublist_skip, IH; [done | done |]. apply Hrestrict; [done |].
      destruct c as [| y c]; [done |]. by destruct Hadj.
    + apply sublist_cons, IH; [done | by constructor |].
      apply Hrestrict; [by constructor | done].
Qed.

Lemma links_adjacent {Event} (from to : option string)
    (chain : list (StoryStep Event)) :
  links from chain to →
  adjacent (λ s t, end_checkpoint_name s = start_checkpoint_name t) chain.
Proof.
  revert from. induction chain as [| s [| t chain] IH]; intros from;
    [done | done |].
  intros (_ & Ht & Hrest). split; [done |]. apply (IH (end_checkpoint_name s)).
  by split.
Qed.

Section ChainExtras.

Variable Event : Type.
Abbreviation Step := (StoryStep Event).
Variable STORY_START : string.
Variable Domain : Type.
Variable explicit_events : Step → Domain → list Event.
Variable Rand : Type.
Variable Random : Z → Rand.
Variable subsample_array : list (Story Event) → nat → Rand → list (Story Event) * Rand.
Variable pick : list string → nat.

(** X17: for a graph made by [__init__] from steps with distinct identities
    that has no cyclic edge, [build_stories] without a maximum returns
    exactly the chains of steps of the graph, each with events, that lead
    from [STORY_START] to the end of the story. *)
Theorem build_stories_enumerates_chains (steps : list Step)
    (ends : option (list string)) (g : StoryGraph Event) (domain : Domain)
    (stories : list (Story Event)) :
  NoDup (id <$> steps) →
  StoryGraph_init pick steps ends = Ok g →
  cyclic_edge_ids g = ∅ →
  build_stories STORY_START explicit_events Random subsample_array g domain
    None = Ok stories →
  ∀ chain, mkStory chain ∈ stories ↔
    Forall (λ s, s ∈ steps ∧ explicit_events s domain ≠ []) chain ∧
    links (Some STORY_START) chain None.
Proof.
  intros Hnd Hinit Hnone Hrun chain.
  destruct (ordered_steps_init Event pick steps ends)
    as (g0 & ss & Hinit0 & Hord & Hids & Hsub & Hperm).
  rewrite Hinit in Hinit0. injection Hinit0 as <-.
  specialize (Hperm Hnd).
  rewrite (build_stories_run _ _ _ _ _ _ _ _ _ _ _ Hord) in Hrun.
  assert (Hfr : ∀ story, story ∈ stories ↔
            story ∈ frontier
              (run_steps explicit_events subsample_array domain None ss
                 (initial STORY_START Random)).1 None).
  { intros story. rewrite frontier_elem.
    destruct (_ !! None) as [l |]; [| done]. injection Hrun as <-.
    split; [eauto | by intros (l' & [= <-] & H)]. }
  rewrite Hfr. split.
  - intros Hin.
    destruct (run_steps_well_formed Event STORY_START Domain explicit_events
                Rand Random subsample_array domain None ss
                (λ _ _ _ H, H) None _ Hin) as (Hlinks & Hev & Hsl).
    split; [| done]. apply Forall_forall. intros s Hs. split; [| by apply Hev].
    apply Hsub. by eapply elem_of_sublist.
  - intros [Hall Hlinks]. rewrite Forall_forall in Hall.
    apply run_steps_complete; [| done | intros s Hs; by apply Hall].
    apply (chain_sublist id).
    + by rewrite Hperm.
    + apply Forall_forall. intros s Hs. rewrite Hperm. by apply Hall.
    + destruct (linked_steps_precede Event pick steps ends Hnd)
        as (g1 & Hinit1 & Hprec).
      rewrite Hinit in Hinit1. injection Hinit1 as <-.
      eapply adjacent_impl; [| by eapply links_adjacent].
      intros s t Hs Ht Hst. cbn beta in Hst. rewrite Hids.
      apply Hprec; [by apply Hall | by apply Hall | done |].
      rewrite Hnone. apply not_elem_of_empty.
Qed.

End ChainExtras.

(** ** What the new graph shares with the old one *)

Section StoreExtras.

Variable Event : Type.
Variable Gen : Type.
Variable generate_id : string → Gen → string * Gen.
Variable new_id : Gen → string * Gen.
Variable pick : list string → nat.
Variable pick_edge : list (string * string) → nat.

Lemma heap_keep_sublist (h : Heap Event) (removed : gset string)
    (refs kept : list nat) :
  heap_keep h removed refs = Ok kept → kept `sublist_of` refs.
Proof.
  revert kept. induction refs as [| r refs IH]; intros kept Hrun.
  - by injection Hrun as <-.
  - cbn [heap_keep] in Hrun. repeat next_call Hrun. injection Hrun as <-.
    destruct (decide _).
    + by apply sublist_skip, IH.
    + by apply sublist_cons, IH.
Qed.

(** One round of the loop appends two new step objects to the list. *)
Lemma add_edge_refs (story_steps ends_ref : nat)
    (edge : option nat * option nat) (h h' : Heap Event) (gen gen' : Gen)
    (refs : list nat) :
  step_lists h !! story_steps = Some refs →
  heap_add_edge generate_id new_id story_steps ends_ref edge (h, gen)
  = Ok (h', gen') →
  ∃ n1 n2, step_lists h' !! story_steps = Some (refs ++ [n1; n2]) ∧
    (length (step_objects h) ≤ n1)%nat ∧ (length (step_objects h) ≤ n2)%nat ∧
    (length (step_objects h) ≤ length (step_objects h'))%nat.
Proof.
  intros Hrefs Hrun. unfold heap_add_edge in Hrun. destruct edge as [s e].
  destruct (generate_id "CYCLE_" gen) as [cname gen1].
  next_call Hrun. apply append_label_inv in E as (l & _ & ->).
  do 2 next_call Hrun.
  destruct (create_copy new_id a0 gen1) as [copy1 gen2].
  next_call Hrun. injection E1 as <- <-.
  next_call Hrun. apply update_step_inv in E1 as (o & _ & ->).
  next_call Hrun. apply append_ref_inv in E1 as (l1 & Hl1 & ->).
  cbn [step_lists] in Hl1. rewrite Hrefs in Hl1. injection Hl1 as <-.
  do 2 next_call Hrun.
  destruct (create_copy new_id a2 gen2) as [copy2 gen3].
  next_call Hrun. injection E3 as <- <-.
  next_call Hrun. apply update_step_inv in E3 as (o2 & _ & ->).
  next_call Hrun. apply append_ref_inv in E3 as (l2 & Hl2 & ->).
  cbn [step_lists step_objects] in Hl2.
  assert (Hlt : story_steps < length (step_lists h)) by by eapply lookup_lt_Some.
  rewrite list_lookup_insert_eq in Hl2 by done. injection Hl2 as <-.
  injection Hrun as <- <-. cbn [step_lists step_objects].
  eexists _, _. split.
  { rewrite list_lookup_insert_eq by by rewrite length_insert.
    by rewrite <- app_assoc. }
  repeat (rewrite ?length_insert, ?length_app; cbn [length step_objects]).
  lia.
Qed.

Lemma add_changed_refs (story_steps ends_ref : nat)
    (edges : list (option nat * option nat)) (bound : nat) :
  ∀ (h h' : Heap Event) (gen gen' : Gen) (refs : list nat),
    step_lists h !! story_steps = Some refs →
    (bound ≤ length (step_objects h))%nat →
    heap_add_changed generate_id new_id story_steps ends_ref edges (h, gen)
    = Ok (h', gen') →
    ∃ fresh, step_lists h' !! story_steps = Some (refs ++ fresh) ∧
      Forall (λ r, (bound ≤ r)%nat) fresh ∧
      length fresh = 2 * length edges.
Proof.
  induction edges as [| edge edges IH]; intros h h' gen gen' refs Hrefs Hb Hrun.
  - injection Hrun as <- <-. exists []. rewrite app_nil_r.
    split; [done |]. split; [constructor | done].
  - cbn [heap_add_changed] in Hrun. next_call Hrun. destruct a as [h1 gen1].
    destruct (add_edge_refs _ _ _ _ _ _ _ _ Hrefs E)
      as (n1 & n2 & Hrefs1 & Hn1 & Hn2 & Hlen).
    destruct (IH _ _ _ _ _ Hrefs1 ltac:(lia) Hrun)
      as (fresh & Hrefs' & Hfresh & Hcount).
    exists (n1 :: n2 :: fresh). split.
    { rewrite Hrefs'. by rewrite <- app_assoc. }
    split; [| cbn [length]; lia].
    constructor; [lia |]. constructor; [lia | done].
Qed.

(** X18: the graph [with_cycles_removed] returns has a step list and an
    end-checkpoint list of its own; its step list holds references to step
    objects of the receiver (those that are kept, in order: the objects
    themselves, not copies), followed by references to two new step objects
    per cyclic edge. *)
Theorem with_cycles_removed_sharing (self : nat) (h h' : Heap Event)
    (gen gen' : Gen) (g' : nat) :
  heap_with_cycles_removed generate_id new_id pick pick_edge self h gen
  = Ok (g', h', gen') →
  ∃ obj obj' refs kept fresh,
    graph_objects h !! self = Some obj ∧
    graph_objects h' !! g' = Some obj' ∧
    step_lists h !! obj_story_steps obj = Some refs ∧
    step_lists h' !! obj_story_steps obj' = Some (kept ++ fresh) ∧
    kept `sublist_of` refs ∧
    Forall (λ r, (length (step_objects h) ≤ r)%nat) fresh ∧
    length fresh = 2 * size (obj_cyclic_edge_ids obj) ∧
    (length (step_lists h) ≤ obj_story_steps obj')%nat ∧
    (length (label_lists h) ≤ obj_story_end_checkpoints obj')%nat.
Proof.
  intros Hrun. unfold heap_with_cycles_removed in Hrun.
  next_call Hrun. rename a into obj. apply load_Ok in E.
  next_call Hrun. cbn [alloc_labels] in Hrun.
  do 3 next_call Hrun. apply load_Ok in E2. cbn [step_lists] in E2.
  apply heap_keep_sublist in E3. cbn [alloc_list] in Hrun.
  next_call Hrun. destruct a3 as [h3 gen3].
  next_call Hrun. destruct a3 as [g h4]. injection Hrun as <- <- <-.
  match type of E4 with
  | heap_add_changed _ _ ?ss ?es ?edges (?h2, _) = _ =>
      destruct (add_changed_refs ss es edges (length (step_objects h))
                  h2 h3 gen gen3 a2) as (fresh & Hrefs & Hfresh & Hcount);
        [by cbn; rewrite list_lookup_middle | done | exact E4 |]
  end.
  unfold heap_init in E5. next_call E5. apply load_Ok in E6.
  cbn [step_lists] in E6, Hrefs. rewrite Hrefs in E6. injection E6 as <-.
  next_call E5.
  destruct (order_steps pick a3) as [[ord cyc] |]; [| done].
  next_call E5. destruct a4 as [ends_ref h5].
  injection E5 as <- <-.
  assert (Hf3 : frames Event h h3).
  { eapply (frames_add_changed _ _ _ _ h);
      [| | | exact E4]; cbn [step_lists label_lists]; [lia | lia |].
    split; cbn [step_objects step_lists label_lists graph_objects];
      try done; by apply prefix_app_r. }
  assert (Hh5 : step_lists h5 = step_lists h3 ∧
                (length (label_lists h) ≤ ends_ref)%nat).
  { next_call E7. destruct a4; injection E7 as <- <-.
    - split; [done |]. cbn [alloc_labels fst].
      apply prefix_length. by destruct Hf3.
    - split; [done | done]. }
  destruct Hh5 as [Hlists Hends].
  eexists obj, _, a1, a2, fresh. split; [done |].
  cbn [alloc_graph fst snd graph_objects]. rewrite list_lookup_middle by done.
  split; [reflexivity |]. cbn [obj_story_steps obj_story_end_checkpoints].
  split; [done |]. rewrite Hlists. split; [done |]. split; [done |].
  split; [done |]. split.
  - rewrite Hcount, length_fmap.
    assert (Hperm : set_iter pick_edge (obj_cyclic_edge_ids obj)
                    ≡ₚ elements (obj_cyclic_edge_ids obj)).
    { unfold set_iter. apply drain_Permutation. done. }
    by rewrite Hperm.
  - split; [cbn; lia | done].
Qed.

End StoreExtras.

(** ** Further properties at concrete inputs *)

(** A graph whose nodes can be ranked so that every edge leads to a higher
    rank has no cycle. *)
Lemma ranked_acyclic (rank : string → nat)
    (graph : gmap string (list string)) :
  map_Forall (λ u succs, Forall (λ v, (rank u < rank v)%nat) succs) graph →
  acyclic graph.
Proof.
  intros Hrank.
  assert (Hedge : ∀ u v, edge graph u v → (rank u < rank v)%nat).
  { intros u v Huv. unfold edge, successors in Huv.
    destruct (graph !! u) as [succs |] eqn:Hu; [| by apply elem_of_nil in Huv].
    specialize (Hrank u succs Hu). simpl in Hrank.
    by eapply Forall_forall in Hrank. }
  intros u v Huv Hback. apply Hedge in Huv.
  assert (rank v ≤ rank u)%nat; [| lia].
  clear Huv. induction Hback as [| x y z Hxy _ IH]; [done |].
  apply Hedge in Hxy. lia.
Qed.

Definition example_rank (u : string) : nat :=
  default 0 (({["a" := 0; "b" := 1; "c" := 1; "d" := 2; "e" := 0; "f" := 1]}
              : gmap string nat) !! u).

Definition self_loop : gmap string (list string) := {["a" := ["a"]]}.

(** A single step that ends at a checkpoint no step starts at. *)
Definition open_graph : StoryGraph nat :=
  graph_or_empty (StoryGraph_init (λ _, 0) [step_S1] None).

Lemma demo_subsample_selects : selects nat nat demo_subsample.
Proof.
  intros l m r story Hs. simpl in Hs.
  eapply elem_of_sublist; [exact Hs | apply sublist_take].
Qed.

Lemma acyclic_sorts_completely_witness :
  ∃ ord, topological_sort (λ _, 4) example_graph = Some (ord, ∅) ∧
    NoDup ord ∧ ∀ u v, edge example_graph u v → precedes u v ord.
Proof.
  apply acyclic_sorts_completely. apply (ranked_acyclic example_rank).
  apply (bool_decide_unpack _). vm_compute. reflexivity.
Defined.

Lemma self_loop_removed_witness :
  ∃ ord rem, topological_sort (λ _, 0) self_loop = Some (ord, rem) ∧
    ("a", "a") ∈ rem.
Proof.
  apply self_loop_removed. vm_compute. apply list_elem_of_here.
Defined.

Lemma ordered_ids_follow_checkpoints_witness :
  ∃ g, StoryGraph_init (λ _, 0) [step_S1; step_S2; step_S3] None = Ok g ∧
    ∀ s t, s ∈ [step_S1; step_S2; step_S3] → t ∈ [step_S1; step_S2; step_S3] →
      end_checkpoint_name s = start_checkpoint_name t →
      (id s, id t) ∉ cyclic_edge_ids g →
      precedes (id s) (id t) (ordered_ids g).
Proof.
  apply ordered_ids_follow_checkpoints.
  apply (bool_decide_unpack _). vm_compute. reflexivity.
Defined.

Lemma acyclic_graph_unchanged_witness :
  with_cycles_removed demo_generate_id demo_new_id (λ _, 0) (λ _, 0)
    merge_graph 0
  = Ok (merge_graph, 0).
Proof.
  apply (acyclic_graph_unchanged nat nat demo_generate_id demo_new_id
           (λ _, 0) (λ _, 0) [step_S1; step_S2; step_S3] None).
  - vm_compute. reflexivity.
  - vm_compute. reflexivity.
Defined.

Lemma build_stories_sound_witness :
  links (Some "STORY_START") [step_S2; step_S3] None ∧
  (∀ s, s ∈ [step_S2; step_S3] → demo_events s true ≠ []) ∧
  [step_S2; step_S3] `sublist_of` [step_S2; step_S1; step_S3].
Proof.
  refine (build_stories_sound nat "STORY_START" bool demo_events nat Z.to_nat
            demo_subsample merge_graph true (Some 1)
            [step_S2; step_S1; step_S3] [mkStory [step_S2; step_S3]]
            demo_subsample_selects _ _ (mkStory [step_S2; step_S3]) _).
  - vm_compute. reflexivity.
  - vm_compute. reflexivity.
  - apply list_elem_of_here.
Defined.

Lemma build_stories_complete_witness :
  ∃ stories,
    build_stories "STORY_START" demo_events Z.to_nat demo_subsample
      merge_graph true None = Ok stories ∧
    mkStory [step_S1; step_S3] ∈ stories.
Proof.
  apply (build_stories_complete nat "STORY_START" bool demo_events nat
           Z.to_nat demo_subsample merge_graph true
           [step_S2; step_S1; step_S3]).
  - vm_compute. reflexivity.
  - apply sublist_cons, sublist_skip, sublist_skip, sublist_nil.
  - vm_compute. done.
  - intros s Hs.
    apply elem_of_cons in Hs as [-> | Hs]; [done |].
    apply list_elem_of_singleton in Hs as ->. done.
Defined.

Lemma build_stories_key_error_witness :
  build_stories "STORY_START" demo_events Z.to_nat demo_subsample open_graph
    true (Some 5)
  = Raise KeyError.
Proof.
  apply (build_stories_key_error nat "STORY_START" bool demo_events nat
           Z.to_nat demo_subsample open_graph true (Some 5) [step_S1]).
  - vm_compute. reflexivity.
  - intros s Hs. apply list_elem_of_singleton in Hs as ->. done.
Defined.

Lemma build_stories_enumerates_chains_witness :
  mkStory [step_S1; step_S3]
  ∈ [mkStory [step_S2; step_S3]; mkStory [step_S1; step_S3]]
  ↔ Forall (λ s, s ∈ [step_S1; step_S2; step_S3] ∧ demo_events s true ≠ [])
      [step_S1; step_S3] ∧
    links (Some "STORY_START") [step_S1; step_S3] None.
Proof.
  refine (build_stories_enumerates_chains nat "STORY_START" bool demo_events
            nat Z.to_nat demo_subsample (λ _, 0) [step_S1; step_S2; step_S3]
            None merge_graph true
            [mkStory [step_S2; step_S3]; mkStory [step_S1; step_S3]]
            _ _ _ _ [step_S1; step_S3]).
  - apply (bool_decide_unpack _). vm_compute. reflexivity.
  - vm_compute. reflexivity.
  - vm_compute. reflexivity.
  - vm_compute. reflexivity.
Defined.

Lemma with_cycles_removed_sharing_witness :
  match heap_with_cycles_removed demo_generate_id demo_new_id (λ _, 1)
          (λ _, 0) 0 cycle3_heap 0 with
  | Ok (g', h', _) =>
      ∃ obj' kept fresh,
        graph_objects h' !! g' = Some obj' ∧
        step_lists h' !! obj_story_steps obj' = Some (kept ++ fresh) ∧
        kept `sublist_of` [0; 1; 2] ∧
        Forall (λ r, (3 ≤ r)%nat) fresh ∧
        length fresh = 2 ∧
        (1 ≤ obj_story_steps obj')%nat
  | Raise _ => False
  end.
Proof.
  destruct (heap_with_cycles_removed demo_generate_id demo_new_id (λ _, 1)
              (λ _, 0) 0 cycle3_heap 0) as [[[g' h'] gen'] | e] eqn:Hrun.
  - destruct (with_cycles_removed_sharing nat nat demo_generate_id demo_new_id
                (λ _, 1) (λ _, 0) 0 cycle3_heap h' 0 gen' g' Hrun)
      as (obj & obj' & refs & kept & fresh & Hobj & Hobj' & Hrefs & Hlist
          & Hkept & Hfresh & Hcount & Hown & _).
    vm_compute in Hobj. injection Hobj as <-.
    vm_compute in Hrefs. injection Hrefs as <-.
    exists obj', kept, fresh.
    split; [done |]. split; [done |]. split; [done |].
    split; [exact Hfresh |]. split; [| exact Hown].
    rewrite Hcount. vm_compute. reflexivity.
  - vm_compute in Hrun. discriminate Hrun.
Defined.
